(** * TinyRAG: the chunker and the vector store of [RAG.ipynb]

    A shallow embedding of [ReadFiles.get_chunk],
    [BaseEmbeddings.cosine_similarity] and [VectorStore] (get_vector,
    persist, load_vector, query), with the properties the specification
    states about them.

    Conventions.
    - A Python [str] is a list of Unicode code points ([pystr]).
    - A Python [int] is a [Z]; a Python [float] is a binary64 [float].
    - A Python exception is a value of [exn]; code that can raise returns a
      [result].
    - Slices follow Python: negative indices count from the end, indices out
      of range are clamped. *)

From Stdlib Require Import ZArith List Bool Lia Floats String Ascii Sorted.
From Equations Require Import Equations.
From stdpp Require Import base option list gmap.

Local Open Scope string_scope.
Local Open Scope list_scope.

Local Open Scope Z_scope.

(** ** Python values *)

Definition pystr := list N.

(** Exceptions raised by the modelled code, by the provider or by the
    libraries it calls. [ProviderError] carries whatever an embedding
    provider reports (network, authentication, rate limit). *)
Inductive exn :=
| ZeroDivisionError
| UnboundLocalError
| ValueError
| IndexError
| FileNotFoundError
| FileExistsError
| NotADirectoryError
| IsADirectoryError
| UnicodeEncodeError
| JSONDecodeError
| ProviderError (code : N).

Inductive result (A : Type) :=
| Ok (a : A)
| Raise (e : exn).
Arguments Ok {A} a.
Arguments Raise {A} e.

Definition result_bind {A B} (r : result A) (k : A -> result B) : result B :=
  match r with
  | Ok a => k a
  | Raise e => Raise e
  end.

(** The characters of an ASCII literal, as code points. *)
Definition str (s : string) : pystr :=
  map N_of_ascii (list_ascii_of_string s).

Definition NUL : N := 0%N.
Definition TAB : N := 9%N.
Definition NL : N := 10%N.
Definition SPACE : N := 32%N.
Definition SLASH : N := 47%N.

(** ** Slices *)

(** The bound [i] of a slice over a sequence of [n] items: a negative bound
    counts from the end, and every bound is clamped to [0..n]. *)
Definition slice_bound (n i : Z) : Z :=
  if i <? 0 then Z.max (i + n) 0 else Z.min i n.

(** [l[start:stop]]; [None] is an omitted bound. *)
Definition py_slice {A} (l : list A) (start stop : option Z) : list A :=
  let n := Z.of_nat (length l) in
  let a := match start with Some i => slice_bound n i | None => 0 end in
  let b := match stop with Some i => slice_bound n i | None => n end in
  drop (Z.to_nat a) (take (Z.to_nat b) l).

(** [s[-c:]], the seed of the next chunk. For [c = 0] Python reads [s[-0:]]
    as [s[0:]], the whole string. *)
Definition tail_slice (s : pystr) (c : Z) : pystr :=
  py_slice s (Some (- c)) None.

(** ** String methods *)

(** [str.replace(' ', '')]. *)
Definition remove_spaces (s : pystr) : pystr :=
  filter (fun c => c ≠ SPACE) s.

(** The line boundaries of [str.splitlines]: LF, VT, FF, CR, FS, GS, RS,
    NEL, LS and PS; CR LF counts as one boundary. *)
Definition is_linebreak (c : N) : bool :=
  match c with
  | 10 | 11 | 12 | 13 | 28 | 29 | 30 | 133 | 8232 | 8233 => true
  | _ => false
  end%N.

(** [str.splitlines()]: [cur] is the current line, reversed. The last line
    is dropped when it is empty, so a text that ends in a line break has no
    empty last line and the empty text has no line at all. *)
Fixpoint splitlines_from (cur : pystr) (s : pystr) : list pystr :=
  match s with
  | [] => match cur with [] => [] | _ => [rev cur] end
  | c :: rest =>
      if is_linebreak c then
        match c, rest with
        | 13%N, 10%N :: rest' => rev cur :: splitlines_from [] rest'
        | _, _ => rev cur :: splitlines_from [] rest
        end
      else splitlines_from (c :: cur) rest
  end.

Definition splitlines (s : pystr) : list pystr := splitlines_from [] s.

(** The characters [str.isspace] and [str.rstrip] treat as whitespace. *)
Definition is_whitespace (c : N) : bool :=
  ((9 <=? c) && (c <=? 13) || (28 <=? c) && (c <=? 32)
   || (c =? 133) || (c =? 160) || (c =? 5760)
   || (8192 <=? c) && (c <=? 8202)
   || (c =? 8232) || (c =? 8233) || (c =? 8239) || (c =? 8287)
   || (c =? 12288))%N.

(** [str.isspace()]: every character is whitespace and there is one. *)
Definition isspace (s : pystr) : bool :=
  match s with
  | [] => false
  | _ => forallb is_whitespace s
  end.

(** [str.rstrip()]: drop the trailing whitespace. *)
Fixpoint lstrip (s : pystr) : pystr :=
  match s with
  | c :: rest => if is_whitespace c then lstrip rest else s
  | [] => []
  end.

Definition rstrip (s : pystr) : pystr := rev (lstrip (rev s)).

(** [s.endswith(suffix)] and [s.startswith(prefix)]. *)
Definition endswith (s suffix : pystr) : bool :=
  (length suffix <=? length s)%nat
  && bool_decide (drop (length s - length suffix) s = suffix).

Definition startswith (s prefix : pystr) : bool :=
  bool_decide (take (length prefix) s = prefix).

(** [sub in s]: [sub] starts at some position of [s]. *)
Fixpoint contains (s sub : pystr) : bool :=
  startswith s sub
  || match s with
     | [] => false
     | _ :: rest => contains rest sub
     end.

(** ** The chunker: [ReadFiles.get_chunk] *)

Module Chunker.
Section WithTokenizer.

(** The tokenizer behind the global [enc] ([enc.encode]). It returns the
    tokens of a text or raises: [tiktoken] raises [ValueError] on a text that
    holds a special token such as [<|endoftext|>]. Of the tokens only their
    number is used. *)
Variable enc_encode : pystr -> result (list Z).

(** The locals of [get_chunk] that live across lines. [end_var] is the local
    [end]: it is bound by the first pass of the splitting loop, and stays
    bound for the lines that follow. *)
Record locals := Locals {
  chunk_text : list pystr;
  curr_len : Z;
  curr_chunk : pystr;
  end_var : option Z
}.

(** The inner [while] of the splitting loop:
<<
    while not line[start:end].rstrip().isspace():
        start += 1
        end += 1
        if start >= line_len:
            break
>>
    It returns the final [start] and [end]. *)
Equations? seek (line : pystr) (line_len start end_ : Z) : Z * Z
  by wf (Z.to_nat (line_len - start)) lt :=
  seek line line_len start end_ with
      isspace (rstrip (py_slice line (Some start) (Some end_))) := {
    | true := (start, end_)
    | false with Z_ge_dec (start + 1) line_len := {
      | left _ := (start + 1, end_ + 1)
      | right _ := seek line line_len (start + 1) (end_ + 1) } }.
Proof. lia. Qed.

(** One pass of [for i in range(num_chunks)]. *)
Definition split_pass (line : pystr) (line_len token_len cover_content : Z)
    (st : locals) (i : Z) : locals :=
  let start := i * token_len in
  let end_ := start + token_len in
  let '(start, end_) := seek line line_len start end_ in
  let chunk :=
    tail_slice (curr_chunk st) cover_content
      ++ py_slice line (Some start) (Some end_) in
  Locals (chunk_text st ++ [chunk]) (curr_len st) chunk (Some end_).

(** The branch [if line_len > max_token_len]: the splitting loop, then the
    statements under "handle the last chunk". *)
Definition split_line (line : pystr) (line_len token_len cover_content : Z)
    (st : locals) : result locals :=
  if token_len =? 0 then Raise ZeroDivisionError
  else
    let num_chunks := (line_len + token_len - 1) / token_len in
    let st :=
      foldl (split_pass line line_len token_len cover_content) st
        (seqZ 0 num_chunks) in
    let start := (num_chunks - 1) * token_len in
    match end_var st with
    | None => Raise UnboundLocalError
    | Some end_ =>
        let chunk :=
          tail_slice (curr_chunk st) cover_content
            ++ py_slice line (Some start) (Some end_) in
        Ok (Locals (chunk_text st ++ [chunk]) (curr_len st) chunk (Some end_))
    end.

(** The second [if] of the loop body, which every line reaches. *)
Definition accumulate (line : pystr) (line_len token_len cover_content : Z)
    (st : locals) : locals :=
  if curr_len st + line_len <=? token_len then
    Locals (chunk_text st) (curr_len st + line_len + 1)
      (curr_chunk st ++ line ++ [NL]) (end_var st)
  else
    Locals (chunk_text st ++ [curr_chunk st])
      (line_len + cover_content)
      (tail_slice (curr_chunk st) cover_content ++ line) (end_var st).

(** The body of [for line in lines]. *)
Definition process_line (max_token_len cover_content : Z) (st : locals)
    (line : pystr) : result locals :=
  let token_len := max_token_len - cover_content in
  let line := remove_spaces line in
  result_bind (enc_encode line) (fun tokens =>
  let line_len := Z.of_nat (length tokens) in
  result_bind
    (if max_token_len <? line_len
     then split_line line line_len token_len cover_content st
     else Ok st)
    (fun st => Ok (accumulate line line_len token_len cover_content st))).

Fixpoint process_lines (max_token_len cover_content : Z) (st : locals)
    (lines : list pystr) : result locals :=
  match lines with
  | [] => Ok st
  | line :: rest =>
      result_bind (process_line max_token_len cover_content st line)
        (fun st => process_lines max_token_len cover_content st rest)
  end.

Definition get_chunk (text : pystr) (max_token_len cover_content : Z)
    : result (list pystr) :=
  let st0 := Locals [] 0 [] None in
  result_bind
    (process_lines max_token_len cover_content st0 (splitlines text))
    (fun st =>
       match curr_chunk st with
       | [] => Ok (chunk_text st)
       | _ => Ok (chunk_text st ++ [curr_chunk st])
       end).

End WithTokenizer.

(** A tokenizer that returns on every text, with the tokens [tokens] gives
    for it. *)
Definition returning (tokens : pystr -> list Z) : pystr -> result (list Z) :=
  fun text => Ok (tokens text).

(** The tokens of the specification's scenario: one token per character. *)
Definition char_tokens (s : pystr) : list Z := map Z.of_N s.

(** A tokenizer in the way of [tiktoken]'s [encode] with its defaults: it
    raises [ValueError] on a text that holds the special token
    [<|endoftext|>]; here it gives one token per character otherwise. *)
Definition strict_tokens (text : pystr) : result (list Z) :=
  if contains text (str "<|endoftext|>") then Raise ValueError
  else Ok (char_tokens text).

End Chunker.
Import Chunker.
Arguments process_line : simpl never.

(** ** Floats and numpy *)

Definition vector := list float.

(** The order numpy sorts floats by: [a < b], with every NaN after every
    number. *)
Definition np_lt (a b : float) : bool :=
  (a <? b)%float || (is_nan b && negb (is_nan a)).

(** The numpy functions the code calls. The order in which [np.dot] adds up
    the products, and the order [argsort] leaves equal keys in, are the
    library's choice, so they are not fixed here: the interface states what
    every implementation does.
    - [np_dot a b] is [np.dot(a, b)] on two lists of floats; it raises
      [ValueError] exactly when the lengths differ.
    - [np_norm a] is [np.linalg.norm(a)].
    - [np_argsort l] is [np.array(l).argsort()]: the indices of [l], each
      once, in an order in which the keys never decrease. *)
Class Numpy := {
  np_dot : vector -> vector -> result float;
  np_norm : vector -> float;
  np_argsort : list float -> list nat;
  np_dot_aligned : forall a b,
    length a = length b -> exists x, np_dot a b = Ok x;
  np_dot_not_aligned : forall a b,
    length a <> length b -> np_dot a b = Raise ValueError;
  np_argsort_perm : forall l, np_argsort l ≡ₚ seq 0 (length l);
  np_argsort_sorted : forall l (i j a b : nat) x y,
    (i < j)%nat ->
    np_argsort l !! i = Some a -> np_argsort l !! j = Some b ->
    l !! a = Some x -> l !! b = Some y ->
    np_lt y x = false
}.

(** *** A reference implementation *)

Module Reference.

(** Products added from left to right. *)
Fixpoint dot_from (acc : float) (a b : vector) : float :=
  match a, b with
  | x :: a', y :: b' => dot_from (acc + x * y)%float a' b'
  | _, _ => acc
  end.

Definition dot (a b : vector) : result float :=
  if decide (length a = length b) then Ok (dot_from 0%float a b)
  else Raise ValueError.

(** [np.linalg.norm] of a one-dimensional array: [sqrt(dot(x, x))]. *)
Definition norm (a : vector) : float := sqrt (dot_from 0%float a a).

(** A stable insertion sort of the indices by their keys. *)
Fixpoint insert_index (key : nat -> float) (i : nat) (sorted : list nat)
    : list nat :=
  match sorted with
  | [] => [i]
  | j :: rest =>
      if np_lt (key i) (key j) then i :: sorted
      else j :: insert_index key i rest
  end.

Definition key_of (l : list float) (i : nat) : float :=
  nth i l 0%float.

Definition argsort (l : list float) : list nat :=
  foldl (fun sorted i => insert_index (key_of l) i sorted) []
    (seq 0 (length l)).

End Reference.

(** ** Cosine similarity: [BaseEmbeddings.cosine_similarity] *)

Section Similarity.
Context `{Numpy}.

(** [not magnitude] on a float: true for [0.0] and [-0.0], false for every
    other float, NaN included. *)
Definition falsy (x : float) : bool := (x =? 0)%float.

(** The literal [0] of [return 0] is read as the float it becomes in the
    array of similarities. *)
Definition cosine_similarity (vectors1 vectors2 : vector) : result float :=
  result_bind (np_dot vectors1 vectors2) (fun dot_product =>
  let magnitude := (np_norm vectors1 * np_norm vectors2)%float in
  if falsy magnitude then Ok 0%float
  else Ok (dot_product / magnitude)%float).

End Similarity.

(** ** JSON artifacts and the disk *)

#[local] Unset Elimination Schemes.
Inductive json :=
| JStr (s : pystr)
| JNum (x : float)
| JArr (items : list json).
#[local] Set Elimination Schemes.

(** [json.dump] of a list of strings and of a list of lists of floats. *)
Definition dump_document (d : list pystr) : json := JArr (map JStr d).

Definition dump_vectors (v : list vector) : json :=
  JArr (map (fun x => JArr (map JNum x)) v).

(** [json.load], read at the type the store holds: a value of another shape
    does not fit the typed store and is reported as a decode error. *)
Definition load_str (j : json) : option pystr :=
  match j with JStr s => Some s | _ => None end.

Definition load_num (j : json) : option float :=
  match j with JNum x => Some x | _ => None end.

Definition load_list {A} (item : json -> option A) (j : json)
    : option (list A) :=
  match j with JArr items => mapM item items | _ => None end.

Definition load_document : json -> option (list pystr) := load_list load_str.

Definition load_vectors : json -> option (list vector) :=
  load_list (load_list load_num).

(** A code point from U+D800 to U+DFFF, a surrogate, has no UTF-8 encoding:
    writing a string that holds one to a file opened with
    [encoding='utf-8'] raises [UnicodeEncodeError]. *)
Definition is_surrogate (c : N) : bool := ((55296 <=? c) && (c <=? 57343))%N.

Definition encodable (s : pystr) : bool :=
  forallb (fun c => negb (is_surrogate c)) s.

(** The strings of a list before the first that cannot be encoded. *)
Fixpoint encodable_prefix (l : list pystr) : list pystr :=
  match l with
  | s :: rest => if encodable s then s :: encodable_prefix rest else []
  | [] => []
  end.

(** ** The disk *)

(** The disk is a tree of folders and files, without links, permissions or
    limits of size: a call fails for the reasons POSIX gives for the path
    alone. A file holds a JSON document, read as the JSON value it stands
    for, or a text that is none: [Cut written] is what [json.dump] had
    written of a list of strings when it raised, the opening bracket and
    the strings [written] (nothing at all when [written] is empty). *)
Inductive content :=
| Json (value : json)
| Cut (written : list pystr).

Inductive node :=
| Folder
| File (holds : content).

(** The nodes of the disk by their place, the names on the way from the
    root; the root itself is a folder and has no entry. [cwd] is the place
    of the working directory of the process. *)
Record filesystem := Disk {
  cwd : list pystr;
  nodes : gmap (list pystr) node
}.

Global Instance filesystem_empty : Empty filesystem := Disk [] ∅.

Definition node_at (d : filesystem) (place : list pystr) : option node :=
  match place with
  | [] => Some Folder
  | _ => nodes d !! place
  end.

(** [path.split('/')]: the components of a path. *)
Fixpoint split_slash (path : pystr) : list pystr :=
  match path with
  | [] => [[]]
  | c :: rest =>
      if (c =? SLASH)%N then [] :: split_slash rest
      else match split_slash rest with
           | name :: names => (c :: name) :: names
           | [] => [[c]]
           end
  end.

(** One component further: an empty component and [.] stay, [..] goes up
    (and stays at the root), a name goes down. *)
Definition follow (place : list pystr) (name : pystr) : list pystr :=
  if bool_decide (name = [] \/ name = str ".") then place
  else if bool_decide (name = str "..") then removelast place
  else place ++ [name].

(** The components followed from a place, as the kernel follows them: every
    component is looked up in a folder, so the place reached so far must be
    one. The place of the last component is not looked at. *)
Fixpoint walk (d : filesystem) (place : list pystr) (names : list pystr)
    : result (list pystr) :=
  match names with
  | [] => Ok place
  | name :: rest =>
      match node_at d place with
      | Some Folder => walk d (follow place name) rest
      | Some (File _) => Raise NotADirectoryError
      | None => Raise FileNotFoundError
      end
  end.

(** Where a path starts: at the root when it begins with a slash. *)
Definition start (d : filesystem) (path : pystr) : list pystr :=
  match path with
  | c :: _ => if (c =? SLASH)%N then [] else cwd d
  | [] => cwd d
  end.

(** The place a path stands for. Python refuses a path that holds a NUL
    character with [ValueError]; the empty path stands for nothing. *)
Definition resolve (d : filesystem) (path : pystr) : result (list pystr) :=
  if bool_decide (NUL ∈ path) then Raise ValueError
  else if bool_decide (path = []) then Raise FileNotFoundError
  else walk d (start d path) (split_slash path).

(** [os.stat(path)]. *)
Definition os_stat (d : filesystem) (path : pystr) : result node :=
  result_bind (resolve d path) (fun place =>
  match node_at d place with
  | Some n => Ok n
  | None => Raise FileNotFoundError
  end).

(** [os.path.exists(path)]: [os.stat] does not raise. *)
Definition os_path_exists (d : filesystem) (path : pystr) : bool :=
  match os_stat d path with
  | Ok _ => true
  | Raise _ => false
  end.

Fixpoint drop_empty (names : list pystr) : list pystr :=
  match names with
  | [] :: rest => drop_empty rest
  | _ => names
  end.

(** The folder that holds the last component of a path, and that component;
    slashes at the end of the path do not count. [None] is for a path of
    slashes only, the root. *)
Definition parent_of (d : filesystem) (path : pystr)
    : result (option (list pystr * pystr)) :=
  if bool_decide (NUL ∈ path) then Raise ValueError
  else if bool_decide (path = []) then Raise FileNotFoundError
  else
    match drop_empty (rev (split_slash path)) with
    | [] => Ok None
    | name :: parents =>
        result_bind (walk d (start d path) (rev parents)) (fun place =>
        match node_at d place with
        | Some Folder => Ok (Some (place, name))
        | Some (File _) => Raise NotADirectoryError
        | None => Raise FileNotFoundError
        end)
    end.

(** [os.mkdir(path)]: the last component is made a folder in the folder of
    the components before it, unless something is there already. *)
Definition os_mkdir (path : pystr) (d : filesystem)
    : result unit * filesystem :=
  match parent_of d path with
  | Raise e => (Raise e, d)
  | Ok None => (Raise FileExistsError, d)
  | Ok (Some (place, name)) =>
      if bool_decide (name = str "." \/ name = str "..")
      then (Raise FileExistsError, d)
      else
        match node_at d (place ++ [name]) with
        | Some _ => (Raise FileExistsError, d)
        | None =>
            (Ok (), Disk (cwd d) (<[place ++ [name] := Folder]> (nodes d)))
        end
  end.

(** [s.lstrip('/')], and [s] up to its first slash. *)
Fixpoint lstrip_slash (s : pystr) : pystr :=
  match s with
  | c :: rest => if (c =? SLASH)%N then lstrip_slash rest else s
  | [] => []
  end.

Fixpoint upto_slash (s : pystr) : pystr :=
  match s with
  | c :: rest => if (c =? SLASH)%N then [] else c :: upto_slash rest
  | [] => []
  end.

(** [os.path.split(p)]: [tail] is what follows the last slash, [head] what
    comes before, without the slashes it ends in unless it is slashes only.
    Both are computed on the reversed path. *)
Definition posix_split (p : pystr) : pystr * pystr :=
  let tail := upto_slash (rev p) in
  let head := drop (length tail) (rev p) in
  let head :=
    match lstrip_slash head with
    | [] => head
    | stripped => stripped
    end in
  (rev head, rev tail).

(** The first lines of [os.makedirs(name)]:
<<
    head, tail = path.split(name)
    if not tail:
        head, tail = path.split(head)
    if head and tail and not path.exists(head):
>>
    [Some (head, tail)] when the test holds. *)
Definition missing_parent (name : pystr) (d : filesystem)
    : option (pystr * pystr) :=
  let '(head, tail) := posix_split name in
  let '(head, tail) :=
    match tail with
    | [] => posix_split head
    | _ => (head, tail)
    end in
  match head, tail with
  | _ :: _, _ :: _ =>
      if os_path_exists d head then None else Some (head, tail)
  | _, _ => None
  end.

Definition inspect {A : Type} (a : A) : {b : A | a = b} := exist _ a eq_refl.

(** The rest of [os.makedirs(name)], with [exist_ok=False], once
    [makedirs(head)] has returned or raised:
<<
        try:
            makedirs(head, exist_ok=exist_ok)
        except FileExistsError:
            pass
        if tail == curdir:
            return
    mkdir(name, mode)
>>
    An error of [mkdir] is raised as it is. *)
Definition after_parent (name tail : pystr)
    (made : result unit * filesystem) : result unit * filesystem :=
  match made with
  | (Ok _, d) | (Raise FileExistsError, d) =>
      if bool_decide (tail = str ".") then (Ok (), d) else os_mkdir name d
  | (Raise e, d) => (Raise e, d)
  end.

Equations? os_makedirs (name : pystr) (d : filesystem)
    : result unit * filesystem by wf (length name) lt :=
  os_makedirs name d with inspect (missing_parent name d) := {
    | exist _ (Some parts) Hparent =>
        after_parent name (snd parts) (os_makedirs (fst parts) d)
    | exist _ None Hparent => os_mkdir name d }.
Proof.
  assert (forall s, (length (upto_slash s) <= length s)%nat) as Hupto.
  { induction s as [|c s IH]; simpl; [lia|].
    destruct (c =? SLASH)%N; simpl; lia. }
  assert (forall s, (length (lstrip_slash s) <= length s)%nat) as Hstrip.
  { induction s as [|c s IH]; simpl; [lia|].
    destruct (c =? SLASH)%N; simpl; lia. }
  assert (forall p head tail,
            posix_split p = (head, tail) ->
            (length head + length tail <= length p)%nat) as Hsplit.
  { unfold posix_split. intros p head tail [= <- <-]. rewrite !length_rev.
    pose proof (Hupto (rev p)) as Htail.
    pose proof (Hstrip (drop (length (upto_slash (rev p))) (rev p)))
      as Hhead.
    rewrite length_drop in Hhead. rewrite length_rev in Htail, Hhead.
    destruct (lstrip_slash _) eqn:Hstripped.
    - rewrite length_drop, length_rev. lia.
    - lia. }
  destruct parts as [head tail]. cbn [fst]. revert Hparent.
  unfold missing_parent.
  destruct (posix_split name) as [h1 t1] eqn:H1. apply Hsplit in H1.
  destruct t1 as [|c t1].
  - destruct (posix_split h1) as [h2 t2] eqn:H2. apply Hsplit in H2.
    destruct h2; [done|]. destruct t2; [done|].
    destruct (os_path_exists _ _); [done|].
    intros [= <- <-]. simpl in *. lia.
  - destruct h1; [done|]. destruct (os_path_exists _ _); [done|].
    intros [= <- <-]. simpl in *. lia.
Qed.

(** [open(file, 'w')]: the place of the file, which is made or emptied. A
    path that ends in a slash, or that stands for a folder, is refused. *)
Definition open_write (d : filesystem) (file : pystr)
    : result (list pystr) :=
  if endswith file (str "/") then
    result_bind (parent_of d file) (fun _ => Raise IsADirectoryError)
  else
    result_bind (resolve d file) (fun place =>
    match node_at d place with
    | Some Folder => Raise IsADirectoryError
    | _ => Ok place
    end).

(** [with open(file, 'w', encoding='utf-8') as f: json.dump(value, f)]:
    [body] is what [json.dump] leaves in the file, and how it ends. *)
Definition write_text (file : pystr) (body : content * result unit)
    (d : filesystem) : result unit * filesystem :=
  match open_write d file with
  | Raise e => (Raise e, d)
  | Ok place =>
      (snd body, Disk (cwd d) (<[place := File (fst body)]> (nodes d)))
  end.

(** [open(file, 'r')] and what the file holds. *)
Definition open_read (d : filesystem) (file : pystr) : result content :=
  result_bind (resolve d file) (fun place =>
  match node_at d place with
  | Some (File holds) => Ok holds
  | Some Folder => Raise IsADirectoryError
  | None => Raise FileNotFoundError
  end).

(** [json.dump(document, f, ensure_ascii=False)] on a list of strings: the
    strings are written one by one, and the first that cannot be encoded
    ends the writing with [UnicodeEncodeError]. *)
Definition json_dump_document (d : list pystr) : content * result unit :=
  if forallb encodable d then (Json (dump_document d), Ok ())
  else (Cut (encodable_prefix d), Raise UnicodeEncodeError).

(** [json.dump(vectors, f)] on a list of lists of floats: digits only. *)
Definition json_dump_vectors (v : list vector) : content * result unit :=
  (Json (dump_vectors v), Ok ()).

(** [json.load(f)]. *)
Definition json_load (c : content) : result json :=
  match c with
  | Json value => Ok value
  | Cut _ => Raise JSONDecodeError
  end.

Definition document_json : pystr := str "document.json".
Definition vectors_json : pystr := str "vectors.json".

(** ** The vector store: [VectorStore] *)

Record VectorStore := Store {
  document : list pystr;
  vectors : list vector
}.

(** [VectorStore()], with the default [document=['']]. *)
Definition new_store (document : list pystr) : VectorStore :=
  Store document [].

(** An embedding provider: [get_embedding] may fail, and may change the
    provider's own state [P] (a connection, a quota, a cache). *)
Class BaseEmbeddings (P : Type) :=
  get_embedding : pystr -> P -> result vector * P.

(** What a method of the store can read and change: the store itself, the
    provider, the disk, and [calls], the log of the texts the provider was
    asked to embed, oldest first. *)
Record world (P : Type) := World {
  self : VectorStore;
  provider : P;
  calls : list pystr;
  disk : filesystem
}.
Arguments World {P}.
Arguments self {P}.
Arguments provider {P}.
Arguments calls {P}.
Arguments disk {P}.

(** A method: it returns or raises, and leaves a world behind either way. *)
Definition M (P A : Type) : Type := world P -> result A * world P.

Global Instance M_ret {P : Type} : MRet (M P) := fun A a w => (Ok a, w).

Global Instance M_bind {P : Type} : MBind (M P) := fun A B k m w =>
  match m w with
  | (Ok a, w') => k a w'
  | (Raise e, w') => (Raise e, w')
  end.

Definition gets {P A : Type} (f : world P -> A) : M P A :=
  fun w => (Ok (f w), w).

Definition lift {P A : Type} (r : result A) : M P A := fun w => (r, w).

Definition set_vectors {P : Type} (v : list vector) : M P unit := fun w =>
  (Ok (), World (Store (document (self w)) v) (provider w) (calls w) (disk w)).

Definition set_document {P : Type} (d : list pystr) : M P unit := fun w =>
  (Ok (), World (Store d (vectors (self w))) (provider w) (calls w) (disk w)).

Definition set_disk {P : Type} (d : filesystem) : M P unit := fun w =>
  (Ok (), World (self w) (provider w) (calls w) d).

(** A call of the operating system: it reads and changes the disk. *)
Definition os_call {P A : Type} (f : filesystem -> result A * filesystem)
    : M P A := fun w =>
  let '(r, d) := f (disk w) in
  (r, World (self w) (provider w) (calls w) d).

(** [for x in l: body(x)]. *)
Fixpoint for_each {P A : Type} (l : list A) (body : A -> M P unit) : M P unit :=
  match l with
  | [] => mret ()
  | x :: rest => body x ;; for_each rest body
  end.

(** [[f(x) for x in l]] for an [f] that can raise. *)
Fixpoint result_map {A B} (f : A -> result B) (l : list A) : result (list B) :=
  match l with
  | [] => Ok []
  | x :: rest =>
      result_bind (f x) (fun y =>
      result_bind (result_map f rest) (fun ys => Ok (y :: ys)))
  end.

(** A string read back from a numpy array of strings: the fixed-width
    unicode type pads with NUL, so trailing NULs are lost. *)
Fixpoint lstrip_nul (s : pystr) : pystr :=
  match s with
  | 0%N :: rest => lstrip_nul rest
  | _ => s
  end.

Definition np_str (s : pystr) : pystr := rev (lstrip_nul (rev s)).

(** [np.array(docs)[idx].tolist()]: an index out of range raises. *)
Definition np_take (docs : list pystr) (idx : list nat) : result (list pystr) :=
  result_map
    (fun i => match docs !! i with
              | Some d => Ok (np_str d)
              | None => Raise IndexError
              end) idx.

Section Methods.
Context `{Numpy} {P : Type} `{BaseEmbeddings P}.

(** [EmbeddingModel.get_embedding(text)], logged. *)
Definition call_embedding (text : pystr) : M P vector := fun w =>
  let '(r, p) := get_embedding text (provider w) in
  (r, World (self w) p (calls w ++ [text]) (disk w)).

(** [self.vectors.append(EmbeddingModel.get_embedding(doc))]. *)
Definition append_embedding (doc : pystr) : M P unit :=
  v ← call_embedding doc;
  vecs ← gets (fun w => vectors (self w));
  set_vectors (vecs ++ [v]).

Definition get_vector : M P (list vector) :=
  docs ← gets (fun w => document (self w));
  for_each docs append_embedding ;;
  gets (fun w => vectors (self w)).

(** [with open(f"{path}/{name}", 'w', encoding='utf-8') as f:
    json.dump(..., f)], for a file name [name]. *)
Definition write_file (path name : pystr) (body : content * result unit)
    : M P unit :=
  os_call (write_text (path ++ str "/" ++ name) body).

(** [with open(f"{path}/{name}", 'r', encoding='utf-8') as f: json.load(f)],
    read at the type the store holds. *)
Definition read_file {A} (path name : pystr) (load : json -> option A)
    : M P A :=
  d ← gets disk;
  holds ← lift (open_read d (path ++ str "/" ++ name));
  value ← lift (json_load holds);
  match load value with
  | Some a => mret a
  | None => lift (Raise JSONDecodeError)
  end.

Definition persist (path : pystr) : M P unit :=
  d ← gets disk;
  (if os_path_exists d path then mret ()
   else os_call (os_makedirs path)) ;;
  docs ← gets (fun w => document (self w));
  write_file path document_json (json_dump_document docs) ;;
  vecs ← gets (fun w => vectors (self w));
  match vecs with
  | [] => mret ()
  | _ => write_file path vectors_json (json_dump_vectors vecs)
  end.

Definition load_vector (path : pystr) : M P unit :=
  vecs ← read_file path vectors_json load_vectors;
  set_vectors vecs ;;
  docs ← read_file path document_json load_document;
  set_document docs.

Definition get_similarity (vector1 vector2 : vector) : result float :=
  cosine_similarity vector1 vector2.

Definition query (query : pystr) (k : Z) : M P (list pystr) :=
  query_vector ← call_embedding query;
  vecs ← gets (fun w => vectors (self w));
  result ← lift (result_map (get_similarity query_vector) vecs);
  docs ← gets (fun w => document (self w));
  lift (np_take docs (rev (py_slice (np_argsort result) (Some (- k)) None))).

End Methods.

(** * Properties *)

(** ** Strings and slices *)

Lemma rev_reverse {A} (l : list A) : rev l = reverse l.
Proof. unfold reverse. apply rev_alt. Qed.

Lemma lstrip_head (s : pystr) :
  lstrip s = [] \/ exists c r, lstrip s = c :: r /\ is_whitespace c = false.
Proof.
  induction s as [|c s IH]; simpl; [by left|].
  destruct (is_whitespace c) eqn:Hc; [exact IH|].
  right. by exists c, s.
Qed.

(** [s.rstrip().isspace()] is false for every [s]: what [rstrip] leaves is
    empty or ends in a character that is not whitespace. *)
Lemma rstrip_not_isspace (s : pystr) : isspace (rstrip s) = false.
Proof.
  unfold rstrip.
  destruct (lstrip_head (rev s)) as [-> | (c & r & -> & Hc)]; [done|].
  simpl. unfold isspace.
  destruct (rev r ++ [c]) eqn:E; [done|].
  rewrite <- E, forallb_app. simpl. rewrite Hc.
  by rewrite andb_false_r.
Qed.

Lemma splitlines_from_nonempty (cur s : pystr) :
  cur ≠ [] \/ s ≠ [] -> splitlines_from cur s ≠ [].
Proof.
  revert cur. induction s as [|c s IH]; intros cur Hne; simpl.
  - destruct Hne as [Hne|Hne]; [|done].
    destruct cur; [done|]. discriminate.
  - destruct (is_linebreak c).
    + repeat case_match; discriminate.
    + apply IH. by left.
Qed.

Lemma splitlines_nonempty (s : pystr) : s ≠ [] -> splitlines s ≠ [].
Proof. intros Hs. apply splitlines_from_nonempty. by right. Qed.

Lemma endswith_suffix (s suffix : pystr) :
  endswith s suffix = true <-> suffix `suffix_of` s.
Proof.
  unfold endswith. rewrite andb_true_iff, Nat.leb_le, bool_decide_eq_true.
  split.
  - intros [_ Hdrop]. exists (take (length s - length suffix) s).
    by rewrite <- Hdrop at 2; rewrite take_drop.
  - intros [k ->]. rewrite length_app. split; [lia|].
    replace (length k + length suffix - length suffix)%nat with (length k)
      by lia.
    by rewrite drop_app_length.
Qed.

(** ** The chunker *)

(** What [get_chunk] does with the token counts is stated for a tokenizer
    that returns on every line, [returning tokens]. [get_chunk_encoded] and
    [get_chunk_returned] carry these statements to every tokenizer, on a
    text whose lines it takes; a tokenizer that raises is taken up with the
    outcomes of [get_chunk] further down. *)

Section ChunkerFacts.
Variable enc_encode : pystr -> list Z.

(** The inner [while] never finds its boundary: it stops only through the
    [break], with [start] moved to [line_len] (or by one, when [start] was
    already there) and [end] moved along. *)
Lemma seek_runs_to_break (line : pystr) (line_len start end_ : Z) :
  seek line line_len start end_ =
    (Z.max (start + 1) line_len,
     end_ + (Z.max (start + 1) line_len - start)).
Proof.
  funelim (seek line line_len start end_).
  - rewrite rstrip_not_isspace in Heq. discriminate.
  - f_equal; lia.
  - rewrite H. f_equal; lia.
Qed.

(** The number of tokens [get_chunk] counts for a line. *)
Definition line_tokens (line : pystr) : Z :=
  Z.of_nat (length (enc_encode (remove_spaces line))).

(** The body of the loop, once the tokenizer has returned. *)
Lemma process_line_returning (T C : Z) (st : locals) (line : pystr) :
  process_line (returning enc_encode) T C st line =
    result_bind
      (if T <? line_tokens line
       then split_line (remove_spaces line) (line_tokens line) (T - C) C st
       else Ok st)
      (fun st =>
         Ok (accumulate (remove_spaces line) (line_tokens line) (T - C) C st)).
Proof. reflexivity. Qed.

(** What [curr_len] reaches when every line is appended to the buffer: the
    tokens of each line, and one for the newline that follows it. *)
Definition budget (lines : list pystr) : Z :=
  foldr (fun line n => line_tokens line + 1 + n) 0 lines.

(** The lines put back together: each without its spaces and followed by a
    newline. *)
Definition reassemble (lines : list pystr) : pystr :=
  concat (map (fun line => remove_spaces line ++ [NL]) lines).

Lemma budget_nonneg (lines : list pystr) : 0 <= budget lines.
Proof.
  induction lines as [|l lines IH]; simpl; [done|].
  unfold line_tokens. lia.
Qed.

Lemma process_lines_fit (T C : Z) (lines : list pystr) (st : locals) :
  0 <= C -> 0 <= curr_len st ->
  curr_len st + budget lines <= T - C + 1 ->
  process_lines (returning enc_encode) T C st lines =
    Ok (Locals (chunk_text st) (curr_len st + budget lines)
          (curr_chunk st ++ reassemble lines) (end_var st)).
Proof.
  intros HC. revert st.
  induction lines as [|l lines IH]; intros st Hlen Hfit; simpl.
  - rewrite Z.add_0_r, app_nil_r. by destruct st.
  - simpl in Hfit. pose proof (budget_nonneg lines) as Hb.
    assert (0 <= line_tokens l) as Hl by (unfold line_tokens; lia).
    rewrite process_line_returning.
    destruct (T <? line_tokens l) eqn:Hover; [lia|].
    simpl. unfold accumulate.
    destruct (curr_len st + line_tokens l <=? T - C) eqn:Hle; [|lia].
    rewrite IH; simpl; [|lia|lia].
    f_equal. f_equal; [lia|].
    unfold reassemble. simpl. by rewrite <- !app_assoc.
Qed.

End ChunkerFacts.

Lemma reassemble_nonempty (lines : list pystr) :
  lines ≠ [] -> reassemble lines ≠ [].
Proof.
  destruct lines as [|l lines]; [done|]. intros _.
  unfold reassemble. simpl. by destruct (remove_spaces l).
Qed.

(** C2, amended. A text with at least one character whose lines all fit the
    buffer, counting the tokens of each line without its spaces and one more
    per line, is returned as exactly one chunk: its lines, each without its
    spaces and followed by a newline. *)
Theorem get_chunk_single_chunk (enc_encode : pystr -> list Z)
    (text : pystr) (T C : Z) :
  0 <= C ->
  text ≠ [] ->
  budget enc_encode (splitlines text) <= T - C + 1 ->
  get_chunk (returning enc_encode) text T C = Ok [reassemble (splitlines text)].
Proof.
  intros HC Htext Hfit. unfold get_chunk.
  rewrite process_lines_fit; simpl; [|done|done|lia].
  pose proof (reassemble_nonempty _ (splitlines_nonempty _ Htext)) as Hne.
  by destruct (reassemble (splitlines text)).
Qed.

(** The scenario of the specification: ["a\nb\nc"] with [T = 10], [C = 2]
    and one token per character. *)
Lemma get_chunk_single_chunk_scenario :
  get_chunk (returning char_tokens)
    (str "a" ++ [NL] ++ str "b" ++ [NL] ++ str "c") 10 2
  = Ok [str "a" ++ [NL] ++ str "b" ++ [NL] ++ str "c" ++ [NL]].
Proof.
  apply (get_chunk_single_chunk char_tokens
           (str "a" ++ [NL] ++ str "b" ++ [NL] ++ str "c") 10 2).
  - lia.
  - discriminate.
  - by vm_compute.
Defined.

(** A tokenizer that merges across characters: a text of any length is one
    token. *)
Definition one_token (s : pystr) : list Z :=
  match s with [] => [] | _ => [0] end.

(** C2 as stated fails. The empty text has an encoded length of zero and
    yields no chunk at all. Under a tokenizer whose counts do not add up over
    lines, a text of one token is cut in two although [T - C = 1]. And of
    the whitespace of a line only the spaces are removed: a tab stays. *)
Lemma get_chunk_single_chunk_fails :
  (Z.of_nat (length (char_tokens [])) <= 10 - 2
   /\ get_chunk (returning char_tokens) [] 10 2 = Ok [])
  /\ (Z.of_nat (length (one_token (str "a" ++ [NL] ++ str "b"))) <= 2 - 1
      /\ get_chunk (returning one_token) (str "a" ++ [NL] ++ str "b") 2 1
         = Ok [str "a" ++ [NL]; [NL] ++ str "b"])
  /\ (Z.of_nat (length (char_tokens (str "a b" ++ [TAB] ++ str "c"))) <= 10 - 2
      /\ get_chunk (returning char_tokens) (str "a b" ++ [TAB] ++ str "c") 10 2
         = Ok [str "ab" ++ [TAB] ++ str "c" ++ [NL]]).
Proof. repeat split; by vm_compute. Qed.

(** The trailing [c] characters of [s] (all of [s] when it is shorter). *)
Definition trailing (c : Z) (s : pystr) : pystr :=
  drop (length s - Z.to_nat c) s.

(** The overlap invariant: each chunk after the first begins with the
    trailing [c] characters of the chunk before it. *)
Definition overlap_ok (c : Z) (chunks : list pystr) : Prop :=
  forall (i : nat) (a b : pystr),
    chunks !! i = Some a -> chunks !! S i = Some b ->
    trailing c a `prefix_of` b.

(** C4: the code on a line of six tokens with [T = 3], [C = 1]. The
    specification asks for the segments of width two, each seeded with the
    last character of the one before: ["cd"], ["def"], ["fgh"]. The
    [while] of the splitting loop runs to the end of the line on every pass,
    so the three passes append empty segments; the statements after the loop
    append ["gh"]; the accumulation branch, reached because it is an [if]
    and not an [elif], appends ["gh"] again and then turns the whole line
    into one more chunk. *)
Theorem get_chunk_oversized_line :
  get_chunk (returning char_tokens) (str "cdefgh") 3 1
  = Ok [[]; []; []; str "gh"; str "gh"; str "hcdefgh"].
Proof. by vm_compute. Qed.

(** C3: on the same input the chunk appended twice breaks the overlap: the
    fifth chunk ["gh"] does not begin with ["h"], the last character of the
    fourth. *)
Theorem get_chunk_overlap_broken :
  exists chunks,
    get_chunk (returning char_tokens) (str "cdefgh") 3 1 = Ok chunks
    /\ ~ overlap_ok 1 chunks.
Proof.
  eexists. split; [by vm_compute|].
  intros Hok. specialize (Hok 3%nat _ _ eq_refl eq_refl).
  vm_compute in Hok. destruct Hok as [k Hk]. discriminate.
Qed.

(** *** The overlap invariant on texts without an oversized line *)

Lemma overlap_ok_extend_last c (l : list pystr) (x y : pystr) :
  overlap_ok c (l ++ [x]) -> x `prefix_of` y -> overlap_ok c (l ++ [y]).
Proof.
  intros Hok Hxy i a b Ha Hb.
  destruct (decide (S i < length l)%nat) as [Hlt|Hge].
  - rewrite lookup_app_l in Ha by lia. rewrite lookup_app_l in Hb by lia.
    apply (Hok i); by rewrite lookup_app_l by lia.
  - destruct (decide (S i = length l)) as [Heq|Hne].
    + rewrite lookup_app_l in Ha by lia.
      rewrite lookup_app_r, Heq, Nat.sub_diag in Hb by lia.
      simpl in Hb. injection Hb as <-.
      trans x; [|done].
      apply (Hok i); [by rewrite lookup_app_l by lia|].
      by rewrite lookup_app_r, Heq, Nat.sub_diag by lia.
    + apply lookup_lt_Some in Hb. rewrite length_app in Hb. simpl in Hb. lia.
Qed.

Lemma overlap_ok_snoc c (l : list pystr) (x y : pystr) :
  overlap_ok c (l ++ [x]) -> trailing c x `prefix_of` y ->
  overlap_ok c ((l ++ [x]) ++ [y]).
Proof.
  intros Hok Hxy i a b Ha Hb.
  destruct (decide (S i < length (l ++ [x]))%nat) as [Hlt|Hge].
  - rewrite lookup_app_l in Ha by lia. rewrite lookup_app_l in Hb by lia.
    by apply (Hok i).
  - destruct (decide (S i = length (l ++ [x]))) as [Heq|Hne].
    + rewrite lookup_app_l in Ha by lia.
      rewrite lookup_app_r, Heq, Nat.sub_diag in Hb by lia.
      simpl in Hb. injection Hb as <-.
      rewrite length_app in Heq. simpl in Heq.
      rewrite lookup_app_r in Ha by lia.
      replace (i - length l)%nat with 0%nat in Ha by lia.
      simpl in Ha. by injection Ha as <-.
    + apply lookup_lt_Some in Hb. rewrite length_app in Hb. simpl in Hb. lia.
Qed.

Lemma overlap_ok_init c (l : list pystr) (x : pystr) :
  overlap_ok c (l ++ [x]) -> overlap_ok c l.
Proof.
  intros Hok i a b Ha Hb. apply (Hok i).
  - apply lookup_app_l_Some, Ha.
  - apply lookup_app_l_Some, Hb.
Qed.

(** For a positive [c], [s[-c:]] is the trailing [c] characters of [s]; for
    [c = 0] it is all of [s], of which the empty trailing part is a prefix
    all the same. *)
Lemma trailing_prefix_tail_slice (c : Z) (s : pystr) :
  0 <= c -> trailing c s `prefix_of` tail_slice s c.
Proof.
  intros Hc. unfold trailing, tail_slice, py_slice, slice_bound.
  rewrite Nat2Z.id, firstn_all.
  destruct (decide (c = 0)) as [->|Hpos].
  - simpl. rewrite Nat.sub_0_r, drop_all. apply prefix_nil.
  - destruct (- c <? 0) eqn:Hneg; [|lia].
    replace (Z.to_nat (Z.max (- c + Z.of_nat (length s)) 0))
      with (length s - Z.to_nat c)%nat by lia.
    done.
Qed.

Section OverlapInvariant.
Variable enc_encode : pystr -> list Z.
Variables T C : Z.
Hypothesis C_nonneg : 0 <= C.

Lemma accumulate_overlap (line : pystr) (line_len : Z) (st : locals) :
  overlap_ok C (chunk_text st ++ [curr_chunk st]) ->
  let st' := accumulate line line_len (T - C) C st in
  overlap_ok C (chunk_text st' ++ [curr_chunk st']).
Proof.
  intros Hok. unfold accumulate.
  destruct (curr_len st + line_len <=? T - C); simpl.
  - eapply overlap_ok_extend_last; [exact Hok|]. by apply prefix_app_r.
  - apply overlap_ok_snoc; [exact Hok|].
    apply prefix_app_r. by apply trailing_prefix_tail_slice.
Qed.

Lemma process_lines_overlap (lines : list pystr) (st st' : locals) :
  Forall (fun line => line_tokens enc_encode line <= T) lines ->
  overlap_ok C (chunk_text st ++ [curr_chunk st]) ->
  process_lines (returning enc_encode) T C st lines = Ok st' ->
  overlap_ok C (chunk_text st' ++ [curr_chunk st']).
Proof.
  intros Hfit. revert st.
  induction Hfit as [|line lines Hline _ IH]; intros st Hok Hrun; simpl in Hrun.
  - by injection Hrun as <-.
  - rewrite process_line_returning in Hrun.
    destruct (T <? line_tokens enc_encode line) eqn:Hover; [lia|].
    simpl in Hrun. eapply IH; [|exact Hrun].
    by apply accumulate_overlap.
Qed.

End OverlapInvariant.

(** On a text none of whose lines counts more than [T] tokens, the chunks
    returned satisfy the overlap invariant: the accumulation branch seeds
    each new buffer with the tail of the chunk it has just appended. *)
Theorem get_chunk_overlap_without_oversized_line
    (enc_encode : pystr -> list Z) (text : pystr) (T C : Z)
    (chunks : list pystr) :
  0 <= C ->
  Forall (fun line => line_tokens enc_encode line <= T) (splitlines text) ->
  get_chunk (returning enc_encode) text T C = Ok chunks ->
  overlap_ok C chunks.
Proof.
  intros HC Hfit Hrun. unfold get_chunk in Hrun.
  destruct (process_lines (returning enc_encode) T C (Locals [] 0 [] None)
              (splitlines text)) as [st|e] eqn:Hst; [|discriminate].
  simpl in Hrun.
  assert (overlap_ok C (chunk_text st ++ [curr_chunk st])) as Hok.
  { eapply process_lines_overlap; [exact HC|exact Hfit| |exact Hst].
    intros [|i] a b Ha Hb; discriminate. }
  destruct (curr_chunk st) eqn:Hcur; injection Hrun as <-.
  - by eapply overlap_ok_init.
  - done.
Qed.

(** Without an oversized line [get_chunk] does return: the theorem above is
    not vacuous. *)
Lemma process_lines_returns (enc_encode : pystr -> list Z) (T C : Z)
    (lines : list pystr) (st : locals) :
  Forall (fun line => line_tokens enc_encode line <= T) lines ->
  exists st', process_lines (returning enc_encode) T C st lines = Ok st'.
Proof.
  intros Hfit. revert st.
  induction Hfit as [|line lines Hline _ IH]; intros st; simpl; [by eexists|].
  rewrite process_line_returning.
  destruct (T <? line_tokens enc_encode line) eqn:Hover; [lia|].
  simpl. apply IH.
Qed.

Lemma get_chunk_overlap_without_oversized_line_witness :
  overlap_ok 1 [str "ab" ++ [NL]; [NL] ++ str "cd"; str "d" ++ str "ef"].
Proof.
  apply (get_chunk_overlap_without_oversized_line char_tokens
           (str "ab" ++ [NL] ++ str "cd" ++ [NL] ++ str "ef") 3 1).
  - lia.
  - repeat constructor; by vm_compute.
  - by vm_compute.
Defined.

(** ** Floats *)

Section FloatFacts.
Local Open Scope float_scope.

Lemma falsy_zero (x : float) :
  falsy x = true <-> exists s, Prim2SF x = S754_zero s.
Proof.
  unfold falsy. rewrite FloatAxioms.eqb_spec.
  change (Prim2SF 0) with (S754_zero false).
  destruct (Prim2SF x) as [s|s| |s m e]; simpl; split;
    try discriminate; try (intros [? ?]; discriminate); eauto;
    destruct s; discriminate.
Qed.

Lemma is_finite_spec (x : float) :
  is_finite x = true ->
  (exists s, Prim2SF x = S754_zero s)
  \/ (exists s m e, Prim2SF x = S754_finite s m e).
Proof.
  unfold is_finite, is_nan, is_infinity.
  rewrite !FloatAxioms.eqb_spec, FloatAxioms.abs_spec.
  change (Prim2SF infinity) with (S754_infinity false).
  destruct (Prim2SF x) as [s|s| |s m e]; intros Hfin; eauto;
    [by destruct s|done].
Qed.

(** Zero times a finite float is a zero; zero times an infinity or a NaN is
    a NaN. *)
Lemma falsy_mul_l (x y : float) :
  falsy x = true -> is_finite y = true -> falsy (x * y) = true.
Proof.
  intros [sx Hx]%falsy_zero Hy%is_finite_spec. apply falsy_zero.
  rewrite FloatAxioms.mul_spec, Hx. unfold SF64mul.
  destruct Hy as [[sy ->]|(sy & m & e & ->)]; simpl; eauto.
Qed.

Lemma falsy_mul_r (x y : float) :
  is_finite x = true -> falsy y = true -> falsy (x * y) = true.
Proof.
  intros Hx%is_finite_spec [sy Hy]%falsy_zero. apply falsy_zero.
  rewrite FloatAxioms.mul_spec, Hy. unfold SF64mul.
  destruct Hx as [[sx ->]|(sx & m & e & ->)]; simpl; eauto.
Qed.

Lemma SFltb_trans (a b c : spec_float) :
  SFltb a b = true -> SFltb b c = true -> SFltb a c = true.
Proof.
  unfold SFltb, SFcompare.
  destruct a as [sa|sa| |sa ma ea], b as [sb|sb| |sb mb eb],
    c as [sc|sc| |sc mc ec];
    try discriminate; try done;
    try (destruct sa; try discriminate; try done);
    try (destruct sb; try discriminate; try done);
    try (destruct sc; try discriminate; try done).
  all: change (Pos.compare_cont Eq ?m ?n) with (Pos.compare m n).
  all: destruct (Z.compare_spec ea eb), (Z.compare_spec eb ec),
         (Z.compare_spec ea ec);
       try discriminate; try done; try lia; subst.
  all: destruct (Pos.compare_spec ma mb), (Pos.compare_spec mb mc),
         (Pos.compare_spec ma mc);
       simpl; try discriminate; try done; try lia.
Qed.

Lemma SFltb_not_nan (a b : spec_float) :
  SFltb a b = true -> a <> S754_nan /\ b <> S754_nan.
Proof.
  unfold SFltb, SFcompare.
  destruct a as [sa|sa| |sa ma ea], b as [sb|sb| |sb mb eb];
    try discriminate; done.
Qed.

Lemma is_nan_spec (x : float) : is_nan x = true <-> Prim2SF x = S754_nan.
Proof.
  unfold is_nan. rewrite FloatAxioms.eqb_spec. unfold SFeqb, SFcompare.
  destruct (Prim2SF x) as [s|s| |s m e]; simpl; split;
    try discriminate; try done.
  - destruct s; discriminate.
  - change (Pos.compare_cont Eq m m) with (Pos.compare m m).
    rewrite Z.compare_refl, Pos.compare_refl. destruct s; discriminate.
Qed.

Lemma np_lt_trans (a b c : float) :
  np_lt a b = true -> np_lt b c = true -> np_lt a c = true.
Proof.
  unfold np_lt. rewrite !FloatAxioms.ltb_spec.
  intros Hab Hbc.
  destruct (SFltb (Prim2SF a) (Prim2SF b)) eqn:Eab; simpl in Hab.
  - destruct (SFltb (Prim2SF b) (Prim2SF c)) eqn:Ebc; simpl in Hbc.
    + by rewrite (SFltb_trans _ _ _ Eab Ebc).
    + apply andb_true_iff in Hbc as [Hc _]. rewrite Hc.
      destruct (SFltb_not_nan _ _ Eab) as [Ha _].
      destruct (is_nan a) eqn:Hna; [by apply is_nan_spec in Hna|].
      by rewrite orb_true_r.
  - apply andb_true_iff in Hab as [Hb Hna].
    destruct (SFltb (Prim2SF b) (Prim2SF c)) eqn:Ebc; simpl in Hbc.
    + destruct (SFltb_not_nan _ _ Ebc) as [Hb' _].
      by apply is_nan_spec in Hb.
    + rewrite Hb in Hbc. apply andb_true_iff in Hbc as [_ Hbc]. done.
Qed.

Lemma np_lt_irrefl (a : float) : np_lt a a = false.
Proof.
  unfold np_lt. rewrite FloatAxioms.ltb_spec.
  destruct (is_nan a) eqn:Hna; simpl.
  - apply is_nan_spec in Hna. rewrite Hna. done.
  - rewrite orb_false_r. unfold SFltb, SFcompare.
    destruct (Prim2SF a) as [s|s| |s m e]; try done.
    + by destruct s.
    + change (Pos.compare_cont Eq m m) with (Pos.compare m m).
      rewrite Z.compare_refl, Pos.compare_refl. by destruct s.
Qed.

Lemma np_lt_asym (a b : float) : np_lt a b = true -> np_lt b a = false.
Proof.
  intros Hab. destruct (np_lt b a) eqn:Hba; [|done].
  by rewrite <- (np_lt_irrefl a), (np_lt_trans _ _ _ Hab Hba).
Qed.

End FloatFacts.

(** ** The reference numpy meets the interface *)

Section ReferenceFacts.
Import Reference.

Lemma StronglySorted_lookup {A} (R : A -> A -> Prop) (l : list A)
    (i j : nat) (a b : A) :
  StronglySorted R l -> (i < j)%nat ->
  l !! i = Some a -> l !! j = Some b -> R a b.
Proof.
  intros Hs. revert i j.
  induction Hs as [|x l Hs IH Hx]; intros i j Hij Ha Hb; [done|].
  destruct j as [|j]; [lia|]. simpl in Hb.
  destruct i as [|i]; simpl in Ha.
  - injection Ha as <-. rewrite Forall_forall in Hx.
    apply Hx. by eapply list_elem_of_lookup_2.
  - apply (IH i j); [lia|done|done].
Qed.

(** Keys never decrease from left to right. *)
Definition ascending (key : nat -> float) : list nat -> Prop :=
  StronglySorted (fun a b => np_lt (key b) (key a) = false).

Lemma insert_index_perm key (i : nat) (sorted : list nat) :
  insert_index key i sorted ≡ₚ i :: sorted.
Proof.
  induction sorted as [|j rest IH]; simpl; [done|].
  destruct (np_lt (key i) (key j)); [done|].
  rewrite IH. apply Permutation_swap.
Qed.

Lemma insert_index_ascending key (i : nat) (sorted : list nat) :
  ascending key sorted -> ascending key (insert_index key i sorted).
Proof.
  unfold ascending. intros Hs.
  induction Hs as [|j rest Hs IH Hj]; simpl.
  - repeat constructor.
  - destruct (np_lt (key i) (key j)) eqn:Hij.
    + constructor; [by constructor|].
      constructor; [by apply np_lt_asym|].
      eapply Forall_impl; [exact Hj|]. intros w Hw. simpl in Hw.
      destruct (np_lt (key w) (key i)) eqn:Hwi; [|done].
      by rewrite (np_lt_trans _ _ _ Hwi Hij) in Hw.
    + constructor; [exact IH|].
      rewrite (insert_index_perm key i rest). by constructor.
Qed.

Lemma argsort_fold_perm key (todo acc : list nat) :
  foldl (fun sorted i => insert_index key i sorted) acc todo ≡ₚ acc ++ todo.
Proof.
  revert acc. induction todo as [|i todo IH]; intros acc; simpl.
  - by rewrite app_nil_r.
  - rewrite IH, insert_index_perm. simpl. apply Permutation_middle.
Qed.

Lemma argsort_fold_ascending key (todo acc : list nat) :
  ascending key acc ->
  ascending key (foldl (fun sorted i => insert_index key i sorted) acc todo).
Proof.
  revert acc. induction todo as [|i todo IH]; intros acc Hacc; simpl; [done|].
  by apply IH, insert_index_ascending.
Qed.

Lemma argsort_perm (l : list float) : argsort l ≡ₚ seq 0 (length l).
Proof. unfold argsort. by rewrite argsort_fold_perm. Qed.

Lemma key_of_lookup (l : list float) (i : nat) (x : float) :
  l !! i = Some x -> key_of l i = x.
Proof.
  unfold key_of. revert i.
  induction l as [|y l IH]; intros [|i] Hi; try done.
  - by injection Hi.
  - by apply IH.
Qed.

Lemma argsort_sorted (l : list float) (i j a b : nat) (x y : float) :
  (i < j)%nat ->
  argsort l !! i = Some a -> argsort l !! j = Some b ->
  l !! a = Some x -> l !! b = Some y ->
  np_lt y x = false.
Proof.
  intros Hij Ha Hb Hx Hy.
  rewrite <- (key_of_lookup _ _ _ Hx), <- (key_of_lookup _ _ _ Hy).
  refine (StronglySorted_lookup
            (fun a b => np_lt (key_of l b) (key_of l a) = false)
            (argsort l) i j a b _ Hij Ha Hb).
  apply argsort_fold_ascending. constructor.
Qed.

Lemma dot_aligned (a b : vector) :
  length a = length b -> exists x, dot a b = Ok x.
Proof. intros Hab. unfold dot. rewrite decide_True by done. eauto. Qed.

Lemma dot_not_aligned (a b : vector) :
  length a <> length b -> dot a b = Raise ValueError.
Proof. intros Hab. unfold dot. by rewrite decide_False. Qed.

End ReferenceFacts.

Definition numpy_reference : Numpy := {|
  np_dot := Reference.dot;
  np_norm := Reference.norm;
  np_argsort := Reference.argsort;
  np_dot_aligned := dot_aligned;
  np_dot_not_aligned := dot_not_aligned;
  np_argsort_perm := argsort_perm;
  np_argsort_sorted := argsort_sorted
|}.

(** ** Cosine similarity *)

(** C5, amended. On two vectors of the same length [cosine_similarity]
    returns 0 when the product of the two magnitudes, as computed, is zero,
    and the quotient of the dot product by that product otherwise: the
    quotient is formed only with a denominator that is not zero. The product
    is zero, and the result 0, whenever one magnitude is zero and the other
    is finite. *)
Theorem cosine_similarity_guard `{Numpy} (a b : vector) :
  length a = length b ->
  exists dot_product,
    np_dot a b = Ok dot_product
    /\ (let magnitude := (np_norm a * np_norm b)%float in
        cosine_similarity a b =
          Ok (if falsy magnitude then 0%float
              else (dot_product / magnitude)%float))
    /\ (falsy (np_norm a) = true /\ is_finite (np_norm b) = true
        \/ is_finite (np_norm a) = true /\ falsy (np_norm b) = true ->
        cosine_similarity a b = Ok 0%float).
Proof.
  intros Hlen. destruct (np_dot_aligned a b Hlen) as [d Hd].
  exists d. split; [exact Hd|].
  unfold cosine_similarity. rewrite Hd. simpl.
  split; [by destruct (falsy _)|].
  intros [[Ha Hb]|[Ha Hb]].
  - by rewrite falsy_mul_l.
  - by rewrite falsy_mul_r.
Qed.

Lemma cosine_similarity_guard_witness :
  exists dot_product,
    @np_dot numpy_reference [1; 0]%float [1; 1]%float = Ok dot_product
    /\ (let magnitude :=
          (@np_norm numpy_reference [1; 0] * @np_norm numpy_reference [1; 1])%float in
        @cosine_similarity numpy_reference [1; 0]%float [1; 1]%float =
          Ok (if falsy magnitude then 0%float
              else (dot_product / magnitude)%float))
    /\ (falsy (@np_norm numpy_reference [1; 0]%float) = true
        /\ is_finite (@np_norm numpy_reference [1; 1]%float) = true
        \/ is_finite (@np_norm numpy_reference [1; 0]%float) = true
           /\ falsy (@np_norm numpy_reference [1; 1]%float) = true ->
        @cosine_similarity numpy_reference [1; 0]%float [1; 1]%float
        = Ok 0%float).
Proof.
  apply (@cosine_similarity_guard numpy_reference [1; 0]%float [1; 1]%float).
  reflexivity.
Defined.

(** C5 as stated fails where a magnitude overflows. The vector [[0.0]] has
    magnitude zero; the magnitude of [[2.0**600]] is computed as infinity;
    zero times infinity is NaN, which is not falsy, and the result is NaN
    divided by NaN rather than 0. *)
Lemma cosine_similarity_zero_magnitude_not_zero :
  falsy (@np_norm numpy_reference [0%float]) = true
  /\ exists x,
       @cosine_similarity numpy_reference [0%float] [0x1p+600%float] = Ok x
       /\ is_nan x = true.
Proof. split; [by vm_compute|]. eexists. split; by vm_compute. Qed.

(** ** The vector store *)

(** Unfolds the plumbing of [M] in the goal. *)
Ltac run_M :=
  cbv [mbind M_bind mret M_ret gets lift set_vectors set_document set_disk
         os_call];
  cbn [self provider calls disk document vectors fst snd].

(** *** The JSON codec *)

Lemma load_document_dump (d : list pystr) :
  load_document (dump_document d) = Some d.
Proof.
  unfold load_document, load_list, dump_document.
  induction d as [|s d IH]; [done|].
  cbn. cbn in IH. by rewrite IH.
Qed.

Lemma load_numbers_dump (x : vector) :
  load_list load_num (JArr (map JNum x)) = Some x.
Proof.
  unfold load_list.
  induction x as [|y x IH]; [done|].
  cbn. cbn in IH. by rewrite IH.
Qed.

Lemma load_vectors_dump (v : list vector) :
  load_vectors (dump_vectors v) = Some v.
Proof.
  unfold load_vectors, dump_vectors.
  induction v as [|x v IH]; [done|].
  unfold load_list at 1. unfold load_list at 1 in IH.
  cbn [map mapM]. rewrite load_numbers_dump. cbn.
  cbn in IH. by rewrite IH.
Qed.

(** *** Paths *)

Lemma split_slash_nonempty (path : pystr) : split_slash path ≠ [].
Proof.
  induction path as [|c path IH]; simpl; [done|].
  destruct (c =? SLASH)%N; [done|]. by destruct (split_slash path).
Qed.

Lemma split_slash_app (a b : pystr) :
  split_slash (a ++ SLASH :: b) = split_slash a ++ split_slash b.
Proof.
  induction a as [|c a IH]; [done|]. simpl.
  destruct (c =? SLASH)%N; [by rewrite IH|]. rewrite IH.
  pose proof (split_slash_nonempty a). by destruct (split_slash a).
Qed.

Lemma split_slash_name (name : pystr) :
  SLASH ∉ name -> split_slash name = [name].
Proof.
  induction name as [|c name IH]; [done|]. intros Hin. simpl.
  apply not_elem_of_cons in Hin as [Hc Hin].
  assert ((c =? SLASH)%N = false) as -> by (apply N.eqb_neq; congruence).
  by rewrite IH.
Qed.

Lemma walk_app (d : filesystem) (place : list pystr) (xs ys : list pystr) :
  walk d place (xs ++ ys)
  = result_bind (walk d place xs) (fun place' => walk d place' ys).
Proof.
  revert place. induction xs as [|x xs IH]; intros place; simpl; [done|].
  destruct (node_at d place) as [[|c]|]; [apply IH|done..].
Qed.

(** A file name: a component that is neither empty nor [.] nor [..]. *)
Definition file_name (name : pystr) : Prop :=
  (SLASH ∉ name) /\ (NUL ∉ name)
  /\ name ≠ [] /\ name ≠ str "." /\ name ≠ str "..".

Lemma document_json_file_name : file_name document_json.
Proof. unfold file_name. apply (bool_decide_unpack _). by vm_compute. Qed.

Lemma vectors_json_file_name : file_name vectors_json.
Proof. unfold file_name. apply (bool_decide_unpack _). by vm_compute. Qed.

Lemma artifact_names_differ : document_json ≠ vectors_json.
Proof. discriminate. Qed.

(** The file [name] of the directory [path]: [f"{path}/{name}"] stands for
    the place [name] in the folder [path] stands for. *)
Lemma resolve_file (d : filesystem) (path name : pystr) :
  file_name name -> path ≠ [] ->
  resolve d (path ++ str "/" ++ name) =
    result_bind (resolve d path) (fun place =>
    match node_at d place with
    | Some Folder => Ok (place ++ [name])
    | Some (File _) => Raise NotADirectoryError
    | None => Raise FileNotFoundError
    end).
Proof.
  intros (Hslash & Hnul & Hne & Hdot & Hdots) Hpath. unfold resolve.
  change (str "/" ++ name) with (SLASH :: name).
  destruct (bool_decide (NUL ∈ path)) eqn:Hn.
  - apply bool_decide_eq_true in Hn.
    rewrite bool_decide_eq_true_2; [done|]. apply elem_of_app. by left.
  - apply bool_decide_eq_false in Hn.
    rewrite (bool_decide_eq_false_2 (NUL ∈ path ++ SLASH :: name)).
    2:{ rewrite elem_of_app, elem_of_cons.
        intros [?|[?|?]]; [done|discriminate|done]. }
    rewrite (bool_decide_eq_false_2 (path = [])) by done.
    rewrite (bool_decide_eq_false_2 (path ++ SLASH :: name = []))
      by (by destruct path).
    assert (start d (path ++ SLASH :: name) = start d path) as ->
      by (by destruct path).
    rewrite split_slash_app, (split_slash_name name), walk_app by done.
    destruct (walk d (start d path) (split_slash path)) as [place|e]; simpl;
      [|done].
    destruct (node_at d place) as [[|c]|]; [|done..].
    unfold follow. rewrite bool_decide_eq_false_2 by (by intros [?|?]).
    by rewrite bool_decide_eq_false_2.
Qed.

Lemma file_not_endswith_slash (path name : pystr) :
  file_name name -> endswith (path ++ str "/" ++ name) (str "/") = false.
Proof.
  intros (Hslash & _ & Hne & _).
  destruct (endswith _ _) eqn:Hends; [|done]. exfalso.
  apply endswith_suffix in Hends as [k Hk].
  apply Hslash. destruct name as [|c name _] using rev_ind; [done|].
  change (str "/") with [SLASH] in Hk.
  rewrite !app_assoc in Hk. apply app_inj_tail in Hk as [_ ->].
  apply elem_of_app. right. by left.
Qed.

Lemma open_write_file (d : filesystem) (path name : pystr) :
  file_name name -> path ≠ [] ->
  open_write d (path ++ str "/" ++ name) =
    result_bind (resolve d path) (fun place =>
    match node_at d place with
    | Some Folder =>
        match node_at d (place ++ [name]) with
        | Some Folder => Raise IsADirectoryError
        | _ => Ok (place ++ [name])
        end
    | Some (File _) => Raise NotADirectoryError
    | None => Raise FileNotFoundError
    end).
Proof.
  intros Hname Hpath. unfold open_write.
  rewrite file_not_endswith_slash, resolve_file by done.
  destruct (resolve d path) as [place|e]; simpl; [|done].
  by destruct (node_at d place) as [[|c]|].
Qed.

Lemma open_read_file (d : filesystem) (path name : pystr) :
  file_name name -> path ≠ [] ->
  open_read d (path ++ str "/" ++ name) =
    result_bind (resolve d path) (fun place =>
    match node_at d place with
    | Some Folder =>
        match node_at d (place ++ [name]) with
        | Some (File holds) => Ok holds
        | Some Folder => Raise IsADirectoryError
        | None => Raise FileNotFoundError
        end
    | Some (File _) => Raise NotADirectoryError
    | None => Raise FileNotFoundError
    end).
Proof.
  intros Hname Hpath. unfold open_read.
  rewrite resolve_file by done.
  destruct (resolve d path) as [place|e]; simpl; [|done].
  by destruct (node_at d place) as [[|c]|].
Qed.

(** [path] stands for the folder at [place]. *)
Definition folder_at (d : filesystem) (path : pystr) (place : list pystr)
    : Prop :=
  resolve d path = Ok place /\ node_at d place = Some Folder.

Lemma folder_at_stat (d : filesystem) (path : pystr) (place : list pystr) :
  folder_at d path place -> os_stat d path = Ok Folder.
Proof.
  intros [Hplace Hnode]. unfold os_stat.
  by rewrite Hplace; simpl; rewrite Hnode.
Qed.

Lemma node_at_app (d : filesystem) (place : list pystr) (name : pystr) :
  node_at d (place ++ [name]) = nodes d !! (place ++ [name]).
Proof. unfold node_at. by destruct place. Qed.

(** The folders of [d] are folders of [d'], and the working directory is
    the same: every path that leads somewhere in [d] leads there in [d']. *)
Definition folders_kept (d d' : filesystem) : Prop :=
  cwd d' = cwd d
  /\ forall place, node_at d place = Some Folder ->
                   node_at d' place = Some Folder.

Lemma folders_kept_refl (d : filesystem) : folders_kept d d.
Proof. by split. Qed.

Lemma folders_kept_trans (d1 d2 d3 : filesystem) :
  folders_kept d1 d2 -> folders_kept d2 d3 -> folders_kept d1 d3.
Proof.
  intros [Hcwd1 H1] [Hcwd2 H2]. split; [congruence|]. intros place Hplace.
  by apply H2, H1.
Qed.

Lemma walk_folders_kept (d d' : filesystem) (place place' : list pystr)
    (names : list pystr) :
  folders_kept d d' ->
  walk d place names = Ok place' -> walk d' place names = Ok place'.
Proof.
  intros [_ Hkept]. revert place.
  induction names as [|name names IH]; intros place; simpl; [done|].
  destruct (node_at d place) as [[|c]|] eqn:Hnode; [|done..].
  rewrite (Hkept _ Hnode). apply IH.
Qed.

Lemma folder_at_kept (d d' : filesystem) (path : pystr)
    (place : list pystr) :
  folders_kept d d' -> folder_at d path place -> folder_at d' path place.
Proof.
  intros Hkept [Hplace Hnode]. split; [|by apply Hkept].
  revert Hplace. unfold resolve.
  destruct (bool_decide (NUL ∈ path)); [done|].
  destruct (bool_decide (path = [])); [done|].
  assert (start d' path = start d path) as ->.
  { destruct Hkept as [Hcwd _]. unfold start. by rewrite Hcwd. }
  by apply walk_folders_kept.
Qed.

(** A file written where no folder is keeps the folders. *)
Lemma write_folders_kept (d : filesystem) (place : list pystr) (name : pystr)
    (holds : content) :
  node_at d (place ++ [name]) ≠ Some Folder ->
  folders_kept d
    (Disk (cwd d) (<[place ++ [name] := File holds]> (nodes d))).
Proof.
  intros Hnode. split; [done|]. intros place' Hplace'.
  destruct place' as [|n rest]; [done|]. simpl in *.
  rewrite lookup_insert_ne; [done|]. intros Heq.
  apply Hnode. by rewrite node_at_app, Heq.
Qed.

(** The folder [path] stands for when a file of the directory [path] is
    opened; with the empty path the file name is read from the root. *)
Definition directory_place (d : filesystem) (path : pystr)
    : result (list pystr) :=
  match path with
  | [] => Ok []
  | _ =>
      result_bind (resolve d path) (fun place =>
      match node_at d place with
      | Some Folder => Ok place
      | Some (File _) => Raise NotADirectoryError
      | None => Raise FileNotFoundError
      end)
  end.

Lemma open_read_directory (d : filesystem) (path name : pystr) :
  file_name name ->
  open_read d (path ++ str "/" ++ name) =
    result_bind (directory_place d path) (fun place =>
    match nodes d !! (place ++ [name]) with
    | Some (File holds) => Ok holds
    | Some Folder => Raise IsADirectoryError
    | None => Raise FileNotFoundError
    end).
Proof.
  intros Hname. destruct path as [|c path].
  - destruct Hname as (Hslash & Hnul & Hne & Hdot & Hdots).
    unfold open_read, resolve.
    change ([] ++ str "/" ++ name) with (SLASH :: name).
    rewrite bool_decide_eq_false_2
      by (rewrite elem_of_cons; intros [?|?]; [discriminate|done]).
    rewrite bool_decide_eq_false_2 by done.
    change (SLASH :: name) with ([] ++ SLASH :: name) at 2.
    rewrite split_slash_app, (split_slash_name name) by done.
    cbn [start N.eqb SLASH Pos.eqb split_slash app walk node_at].
    unfold follow. rewrite bool_decide_eq_true_2 by (by left).
    cbn [walk node_at app].
    rewrite bool_decide_eq_false_2 by (by intros [?|?]).
    rewrite bool_decide_eq_false_2 by done.
    cbn [app result_bind directory_place]. by destruct name.
  - rewrite open_read_file by done. unfold directory_place.
    destruct (resolve d (c :: path)) as [place|e]; cbn [result_bind]; [|done].
    destruct (node_at d place) as [[|holds]|]; cbn [result_bind]; [|done..].
    by rewrite node_at_app.
Qed.

(** Making directories makes folders where nothing was: the files of the
    disk are the files it had. *)
Definition files_kept (d d' : filesystem) : Prop :=
  forall (key : list pystr) (holds : content),
    nodes d' !! key = Some (File holds) -> nodes d !! key = Some (File holds).

Lemma files_kept_refl (d : filesystem) : files_kept d d.
Proof. by intros key holds. Qed.

Lemma os_mkdir_files (path : pystr) (d : filesystem) :
  files_kept d (snd (os_mkdir path d)).
Proof.
  unfold os_mkdir.
  destruct (parent_of d path) as [[[place name]|]|e];
    [|apply files_kept_refl..].
  destruct (bool_decide _); [apply files_kept_refl|].
  destruct (node_at d (place ++ [name])) as [n|] eqn:Hnode;
    [apply files_kept_refl|].
  rewrite node_at_app in Hnode.
  intros key holds. cbn [snd nodes].
  destruct (decide (key = place ++ [name])) as [->|Hne].
  - by rewrite lookup_insert_eq.
  - by rewrite lookup_insert_ne.
Qed.

Lemma os_makedirs_files (name : pystr) (d : filesystem) :
  files_kept d (snd (os_makedirs name d)).
Proof.
  funelim (os_makedirs name d).
  - destruct (os_makedirs parts.1 d) as [r d1]. cbn [snd] in H.
    assert (files_kept d
              (snd (if bool_decide (parts.2 = str ".") then (Ok (), d1)
                    else os_mkdir name d1))) as Hrest.
    { destruct (bool_decide _); [done|].
      intros key holds Hkey. by apply H, (os_mkdir_files name d1). }
    unfold after_parent. destruct r as [[]|e]; [done|].
    by destruct e.
  - apply os_mkdir_files.
Qed.






(** Writing a file of a directory. *)
Lemma write_text_run (d : filesystem) (path name : pystr)
    (place : list pystr) (body : content * result unit) :
  file_name name -> path ≠ [] ->
  folder_at d path place ->
  node_at d (place ++ [name]) ≠ Some Folder ->
  write_text (path ++ str "/" ++ name) body d
  = (snd body,
     Disk (cwd d) (<[place ++ [name] := File (fst body)]> (nodes d))).
Proof.
  intros Hname Hpath [Hplace Hfolder] Hnode. unfold write_text.
  rewrite open_write_file, Hplace by done. cbn [result_bind].
  rewrite Hfolder.
  by destruct (node_at d (place ++ [name])) as [[|c]|].
Qed.

Lemma write_text_returns (d d' : filesystem) (path name : pystr)
    (body : content * result unit) :
  file_name name -> path ≠ [] ->
  write_text (path ++ str "/" ++ name) body d = (Ok (), d') ->
  exists place,
    folder_at d path place
    /\ node_at d (place ++ [name]) ≠ Some Folder
    /\ snd body = Ok ()
    /\ d' = Disk (cwd d) (<[place ++ [name] := File (fst body)]> (nodes d)).
Proof.
  intros Hname Hpath. unfold write_text.
  rewrite open_write_file by done.
  destruct (resolve d path) as [place|e] eqn:Hplace; cbn [result_bind];
    [|done].
  destruct (node_at d place) as [[|c]|] eqn:Hfolder; [|done..].
  destruct (node_at d (place ++ [name])) as [[|c]|] eqn:Hnode; [done|..];
    intros [= Hbody <-]; exists place; by rewrite Hnode.
Qed.

(** *** persist *)

(** The first statement of [persist]: the directory is made when [path]
    does not exist. *)
Definition after_directory (path : pystr) (d : filesystem)
    : result unit * filesystem :=
  if os_path_exists d path then (Ok (), d) else os_makedirs path d.

(** What [persist] does to the disk: the store is only read. *)
Definition persist_disk (s : VectorStore) (path : pystr) (d : filesystem)
    : result unit * filesystem :=
  match after_directory path d with
  | (Raise e, d1) => (Raise e, d1)
  | (Ok _, d1) =>
      match write_text (path ++ str "/" ++ document_json)
              (json_dump_document (document s)) d1 with
      | (Raise e, d2) => (Raise e, d2)
      | (Ok _, d2) =>
          match vectors s with
          | [] => (Ok (), d2)
          | _ =>
              write_text (path ++ str "/" ++ vectors_json)
                (json_dump_vectors (vectors s)) d2
          end
      end
  end.


Lemma exists_kept (d d' : filesystem) (path : pystr) (place : list pystr) :
  folder_at d path place -> folders_kept d d' ->
  after_directory path d' = (Ok (), d').
Proof.
  intros Hat Hkept. unfold after_directory, os_path_exists.
  by rewrite (folder_at_stat d' path place) by by eapply folder_at_kept.
Qed.

Lemma persist_run {P : Type} (path : pystr) (w : world P) :
  persist path w =
    (fst (persist_disk (self w) path (disk w)),
     World (self w) (provider w) (calls w)
       (snd (persist_disk (self w) path (disk w)))).
Proof.
  unfold persist, persist_disk, after_directory, write_file. run_M.
  destruct (os_path_exists (disk w) path); run_M.
  - destruct (write_text _ _ (disk w)) as [[[]|e] d2]; run_M; [|done].
    destruct (vectors (self w)); run_M; [done|].
    by destruct (write_text _ _ d2) as [[[]|e] d3].
  - destruct (os_makedirs path (disk w)) as [[[]|e] d1]; run_M; [|done].
    destruct (write_text _ _ d1) as [[[]|e] d2]; run_M; [|done].
    destruct (vectors (self w)); run_M; [done|].
    by destruct (write_text _ _ d2) as [[[]|e] d3].
Qed.

(** The empty path stands for nothing: nothing is made and nothing is
    written. *)
Lemma after_directory_empty_path (d : filesystem) :
  after_directory [] d = (Raise FileNotFoundError, d).
Proof. unfold after_directory. by simp os_makedirs. Qed.

(** The nodes [persist] leaves, in the folder at [place]. *)
Definition persisted (s : VectorStore) (place : list pystr)
    (old : gmap (list pystr) node) : gmap (list pystr) node :=
  let written :=
    <[place ++ [document_json] := File (Json (dump_document (document s)))]>
      old in
  match vectors s with
  | [] => written
  | _ =>
      <[place ++ [vectors_json] := File (Json (dump_vectors (vectors s)))]>
        written
  end.

(** What [persist] has found and done when it returns: the directory is
    there, the chunks can be encoded, and no folder is in the way of the
    files. *)
Lemma persist_disk_returns (s : VectorStore) (path : pystr)
    (d d' : filesystem) :
  persist_disk s path d = (Ok (), d') ->
  exists (d1 : filesystem) (place : list pystr),
    after_directory path d = (Ok (), d1)
    /\ path ≠ []
    /\ folder_at d1 path place
    /\ node_at d1 (place ++ [document_json]) ≠ Some Folder
    /\ forallb encodable (document s) = true
    /\ (vectors s ≠ [] -> node_at d1 (place ++ [vectors_json]) ≠ Some Folder)
    /\ d' = Disk (cwd d1) (persisted s place (nodes d1)).
Proof.
  unfold persist_disk.
  destruct (after_directory path d) as [[[]|e] d1] eqn:Hdir; [|done].
  assert (path ≠ []) as Hpath.
  { intros ->. by rewrite after_directory_empty_path in Hdir. }
  destruct (write_text _ _ d1) as [[[]|e] d2] eqn:Hdoc; [|done].
  apply write_text_returns in Hdoc
    as (place & Hat & Hnode & Henc & ->);
    [|apply document_json_file_name|done].
  unfold json_dump_document in Henc.
  destruct (forallb encodable (document s)) eqn:Hall; [|done].
  intros Hrest. exists d1, place. do 5 (split; [done|]).
  revert Hrest. unfold persisted, json_dump_document. rewrite Hall.
  cbn [fst]. destruct (vectors s) as [|v vs] eqn:Hvecs.
  - intros [= <-]. by split.
  - intros (place' & Hat' & Hnode' & _ & ->)%write_text_returns;
      [|apply vectors_json_file_name|done].
    assert (place' = place) as ->.
    { apply (folder_at_kept _ _ _ _
               (write_folders_kept d1 place document_json
                  (Json (dump_document (document s))) Hnode)) in Hat.
      destruct Hat as [Hplace _], Hat' as [Hplace' _]. congruence. }
    split; [|done]. intros _.
    rewrite node_at_app in Hnode'. cbn [nodes] in Hnode'.
    rewrite lookup_insert_ne in Hnode'
      by (intros [_ ?]%app_inj_tail; by apply artifact_names_differ).
    by rewrite node_at_app.
Qed.

(** And the other way round. *)
Lemma persist_disk_run (s : VectorStore) (path : pystr)
    (d d1 : filesystem) (place : list pystr) :
  after_directory path d = (Ok (), d1) ->
  path ≠ [] ->
  folder_at d1 path place ->
  node_at d1 (place ++ [document_json]) ≠ Some Folder ->
  forallb encodable (document s) = true ->
  (vectors s ≠ [] -> node_at d1 (place ++ [vectors_json]) ≠ Some Folder) ->
  persist_disk s path d
  = (Ok (), Disk (cwd d1) (persisted s place (nodes d1))).
Proof.
  intros Hdir Hpath Hat Hdoc Henc Hvec.
  unfold persist_disk, persisted, json_dump_document.
  rewrite Hdir, Henc.
  rewrite (write_text_run d1 path document_json place)
    by (done || apply document_json_file_name).
  cbn [fst snd]. destruct (vectors s) as [|v vs] eqn:Hvecs; [done|].
  rewrite (write_text_run _ path vectors_json place); [done|..].
  - apply vectors_json_file_name.
  - done.
  - eapply folder_at_kept; [|done]. by apply write_folders_kept.
  - rewrite node_at_app. cbn [nodes].
    rewrite lookup_insert_ne
      by (intros [_ ?]%app_inj_tail; by apply artifact_names_differ).
    rewrite <- node_at_app. by apply Hvec.
Qed.

Lemma persisted_folders_kept (s : VectorStore) (place : list pystr)
    (d : filesystem) :
  node_at d (place ++ [document_json]) ≠ Some Folder ->
  (vectors s ≠ [] -> node_at d (place ++ [vectors_json]) ≠ Some Folder) ->
  folders_kept d (Disk (cwd d) (persisted s place (nodes d))).
Proof.
  intros Hdoc Hvec. unfold persisted.
  destruct (vectors s) as [|v vs]; [by apply write_folders_kept|].
  eapply folders_kept_trans; [by apply write_folders_kept|].
  apply (write_folders_kept (Disk (cwd d) _)).
  rewrite node_at_app. cbn [nodes].
  rewrite lookup_insert_ne
    by (intros [_ ?]%app_inj_tail; by apply artifact_names_differ).
  rewrite <- node_at_app. by apply Hvec.
Qed.

Lemma persisted_document (s : VectorStore) (place : list pystr)
    (old : gmap (list pystr) node) :
  persisted s place old !! (place ++ [document_json])
  = Some (File (Json (dump_document (document s)))).
Proof.
  unfold persisted. destruct (vectors s); [apply lookup_insert_eq|].
  rewrite lookup_insert_ne
    by (intros [_ ?]%app_inj_tail; by apply artifact_names_differ).
  apply lookup_insert_eq.
Qed.

Lemma persisted_vectors (s : VectorStore) (place : list pystr)
    (old : gmap (list pystr) node) :
  persisted s place old !! (place ++ [vectors_json])
  = match vectors s with
    | [] => old !! (place ++ [vectors_json])
    | _ => Some (File (Json (dump_vectors (vectors s))))
    end.
Proof.
  unfold persisted. destruct (vectors s); [|apply lookup_insert_eq].
  apply lookup_insert_ne.
  intros [_ ?]%app_inj_tail. by apply artifact_names_differ.
Qed.

Lemma persisted_elsewhere (s : VectorStore) (place key : list pystr)
    (old : gmap (list pystr) node) :
  key ≠ place ++ [document_json] -> key ≠ place ++ [vectors_json] ->
  persisted s place old !! key = old !! key.
Proof.
  intros Hdoc Hvec. unfold persisted.
  destruct (vectors s); by rewrite ?lookup_insert_ne.
Qed.

(** Reading a file of a directory that is there. *)
Lemma open_read_at (d : filesystem) (path name : pystr)
    (place : list pystr) :
  file_name name -> path ≠ [] -> folder_at d path place ->
  open_read d (path ++ str "/" ++ name) =
    match nodes d !! (place ++ [name]) with
    | Some (File holds) => Ok holds
    | Some Folder => Raise IsADirectoryError
    | None => Raise FileNotFoundError
    end.
Proof.
  intros Hname Hpath [Hplace Hfolder].
  rewrite open_read_file, Hplace by done. cbn [result_bind].
  by rewrite Hfolder, node_at_app.
Qed.

(** What [persist] leaves when it returns. *)
Lemma persist_returns {P : Type} (path : pystr) (w w' : world P) :
  persist path w = (Ok (), w') ->
  exists (d1 : filesystem) (place : list pystr),
    after_directory path (disk w) = (Ok (), d1)
    /\ path ≠ []
    /\ folder_at d1 path place
    /\ node_at d1 (place ++ [document_json]) ≠ Some Folder
    /\ forallb encodable (document (self w)) = true
    /\ (vectors (self w) ≠ [] ->
        node_at d1 (place ++ [vectors_json]) ≠ Some Folder)
    /\ folder_at (disk w') path place
    /\ w' = World (self w) (provider w) (calls w)
              (Disk (cwd d1) (persisted (self w) place (nodes d1))).
Proof.
  rewrite persist_run. intros [= Hrun <-].
  destruct (persist_disk (self w) path (disk w)) as [r d'] eqn:Hdisk.
  simpl in Hrun. subst r. cbn [snd disk].
  destruct (persist_disk_returns _ _ _ _ Hdisk)
    as (d1 & place & Hdir & Hpath & Hat & Hdoc & Henc & Hvec & ->).
  exists d1, place. do 6 (split; [done|]). split; [|done].
  eapply folder_at_kept; [|done]. by apply persisted_folders_kept.
Qed.

(** *** When persist returns *)




















(** *** load_vector *)


Lemma load_vector_returns {P : Type} (path : pystr) (w w' : world P) :
  load_vector path w = (Ok (), w') ->
  exists jv jd vecs docs,
    open_read (disk w) (path ++ str "/" ++ vectors_json) = Ok (Json jv)
    /\ load_vectors jv = Some vecs
    /\ open_read (disk w) (path ++ str "/" ++ document_json) = Ok (Json jd)
    /\ load_document jd = Some docs
    /\ w' = World (Store docs vecs) (provider w) (calls w) (disk w).
Proof.
  unfold load_vector, read_file. run_M.
  destruct (open_read (disk w) (path ++ str "/" ++ vectors_json))
    as [[jv|cut]|e] eqn:Hjv; cbn [json_load]; [|discriminate..].
  destruct (load_vectors jv) as [vecs|] eqn:Hvecs; run_M; [|discriminate].
  destruct (open_read (disk w) (path ++ str "/" ++ document_json))
    as [[jd|cut]|e] eqn:Hjd; cbn [json_load]; [|discriminate..].
  destruct (load_document jd) as [docs|] eqn:Hdocs; run_M; [|discriminate].
  intros [= <-]. by exists jv, jd, vecs, docs.
Qed.




(** *** get_vector *)

Section GetVector.
Context {P : Type} `{BaseEmbeddings P}.

(** [provides p docs vs p']: asked for the embeddings of [docs], one text
    after the other, a provider in state [p] returns the vectors [vs] and
    ends in state [p']. *)
Inductive provides : P -> list pystr -> list vector -> P -> Prop :=
| provides_nil p : provides p [] [] p
| provides_cons p doc v p1 docs vs p2 :
    get_embedding doc p = (Ok v, p1) ->
    provides p1 docs vs p2 ->
    provides p (doc :: docs) (v :: vs) p2.

Lemma append_embedding_ok (doc : pystr) (w : world P) (v : vector) (p1 : P) :
  get_embedding doc (provider w) = (Ok v, p1) ->
  append_embedding doc w =
    (Ok (), World (Store (document (self w)) (vectors (self w) ++ [v])) p1
              (calls w ++ [doc]) (disk w)).
Proof.
  intros Hv. unfold append_embedding, call_embedding. run_M.
  rewrite Hv. by run_M.
Qed.

Lemma append_embedding_raise (doc : pystr) (w : world P) (e : exn) (p1 : P) :
  get_embedding doc (provider w) = (Raise e, p1) ->
  append_embedding doc w =
    (Raise e, World (self w) p1 (calls w ++ [doc]) (disk w)).
Proof.
  intros Hv. unfold append_embedding, call_embedding. run_M.
  rewrite Hv. by run_M.
Qed.

Lemma for_each_provides (docs : list pystr) (vs : list vector) (p' : P)
    (w : world P) :
  provides (provider w) docs vs p' ->
  for_each docs append_embedding w =
    (Ok (), World (Store (document (self w)) (vectors (self w) ++ vs)) p'
              (calls w ++ docs) (disk w)).
Proof.
  remember (provider w) as p eqn:Hp. intros Hprov. revert w Hp.
  induction Hprov as [p|p doc v p1 docs vs p2 Hv _ IH]; intros w ->.
  - cbn. rewrite !app_nil_r. by destruct w as [[? ?] ? ? ?].
  - cbn [for_each]. run_M.
    rewrite (append_embedding_ok doc w v p1 Hv).
    rewrite IH by done. cbn.
    by rewrite <- !app_assoc.
Qed.

Lemma for_each_provider_raises (before after : list pystr) (doc : pystr)
    (vs : list vector) (p1 p2 : P) (e : exn) (w : world P) :
  provides (provider w) before vs p1 ->
  get_embedding doc p1 = (Raise e, p2) ->
  for_each (before ++ doc :: after) append_embedding w =
    (Raise e, World (Store (document (self w)) (vectors (self w) ++ vs)) p2
                (calls w ++ before ++ [doc]) (disk w)).
Proof.
  remember (provider w) as p eqn:Hp. intros Hprov. revert w Hp.
  induction Hprov as [p|p d v p1' docs vs p1 Hv _ IH]; intros w -> Hraise.
  - cbn [app for_each]. run_M.
    rewrite (append_embedding_raise doc w e p2 Hraise).
    rewrite app_nil_r. by destruct w as [[? ?] ? ? ?].
  - cbn [app for_each]. run_M.
    rewrite (append_embedding_ok d w v p1' Hv).
    rewrite IH by done. cbn.
    by rewrite <- !app_assoc.
Qed.

End GetVector.

Lemma get_vector_ok {P : Type} `{BaseEmbeddings P} (w : world P)
    (vs : list vector) (p' : P) :
  provides (provider w) (document (self w)) vs p' ->
  get_vector w =
    (Ok (vectors (self w) ++ vs),
     World (Store (document (self w)) (vectors (self w) ++ vs)) p'
       (calls w ++ document (self w)) (disk w)).
Proof.
  intros Hprov. unfold get_vector. run_M.
  rewrite (for_each_provides _ _ _ _ Hprov). by run_M.
Qed.

Lemma get_vector_raise {P : Type} `{BaseEmbeddings P} (w : world P)
    (before after : list pystr) (doc : pystr) (vs : list vector)
    (p1 p2 : P) (e : exn) :
  document (self w) = before ++ doc :: after ->
  provides (provider w) before vs p1 ->
  get_embedding doc p1 = (Raise e, p2) ->
  get_vector w =
    (Raise e,
     World (Store (document (self w)) (vectors (self w) ++ vs)) p2
       (calls w ++ before ++ [doc]) (disk w)).
Proof.
  intros Hdocs Hprov Hraise.
  unfold get_vector. run_M. rewrite Hdocs.
  rewrite (for_each_provider_raises _ _ _ _ _ _ _ _ Hprov Hraise).
  by rewrite <- Hdocs.
Qed.

(** Every run of the provider over the chunks is of one of two kinds: all
    calls return, or some first call raises. *)
Lemma provider_run_cases {P : Type} `{BaseEmbeddings P} (docs : list pystr)
    (p : P) :
  (exists vs p', provides p docs vs p')
  \/ (exists before doc after vs p1 e p2,
        docs = before ++ doc :: after
        /\ provides p before vs p1
        /\ get_embedding doc p1 = (Raise e, p2)).
Proof.
  revert p. induction docs as [|d docs IH]; intros p.
  - left. exists [], p. constructor.
  - destruct (get_embedding d p) as [[v|e] p1] eqn:Hd.
    + destruct (IH p1) as [(vs & p' & Hvs)
                          |(before & doc & after & vs & p2 & e & p3
                            & -> & Hvs & Hraise)].
      * left. exists (v :: vs), p'. by econstructor.
      * right. exists (d :: before), doc, after, (v :: vs), p2, e, p3.
        split; [done|]. split; [by econstructor|done].
    + right. exists [], d, docs, [], p, e, p1.
      split; [done|]. split; [constructor|done].
Qed.

(** C8. [get_vector] asks the provider for the embedding of each chunk, once
    and in document order, and appends each vector it gets to those the
    store holds. When every call returns, it returns the extended vector
    sequence. When the provider raises on a chunk, [get_vector] raises the
    very same exception, no later chunk is asked for, and the vectors of the
    chunks before it stay in the store. *)
Theorem get_vector_fail_fast {P : Type} `{BaseEmbeddings P} (w : world P) :
  (forall vs p',
     provides (provider w) (document (self w)) vs p' ->
     get_vector w =
       (Ok (vectors (self w) ++ vs),
        World (Store (document (self w)) (vectors (self w) ++ vs)) p'
          (calls w ++ document (self w)) (disk w)))
  /\ (forall before doc after vs p1 e p2,
        document (self w) = before ++ doc :: after ->
        provides (provider w) before vs p1 ->
        get_embedding doc p1 = (Raise e, p2) ->
        get_vector w =
          (Raise e,
           World (Store (document (self w)) (vectors (self w) ++ vs)) p2
             (calls w ++ before ++ [doc]) (disk w))).
Proof.
  split.
  - intros vs p' Hprov. by apply get_vector_ok.
  - intros before doc after vs p1 e p2 Hdocs Hprov Hraise.
    by eapply get_vector_raise.
Qed.

(** A provider with a quota: it answers [limit] calls with the vector
    [[1.0; 0.0]] and raises on every call after that; its state is the
    number of calls answered or refused so far. *)
Definition quota_provider (limit : nat) : BaseEmbeddings nat :=
  fun _ n =>
    if (n <? limit)%nat then (Ok [1; 0]%float, S n)
    else (Raise (ProviderError 429), S n).

Lemma get_vector_fail_fast_witness :
  let docs := [str "a"; str "b"; str "c"] in
  @get_vector nat (quota_provider 3) (World (new_store docs) 0%nat [] ∅)
  = (Ok [[1; 0]; [1; 0]; [1; 0]]%float,
     World (Store docs [[1; 0]; [1; 0]; [1; 0]]%float) 3%nat docs ∅)
  /\ @get_vector nat (quota_provider 2) (World (new_store docs) 0%nat [] ∅)
     = (Raise (ProviderError 429),
        World (Store docs [[1; 0]; [1; 0]]%float) 3%nat docs ∅).
Proof.
  intros docs. split.
  - apply (proj1 (@get_vector_fail_fast nat (quota_provider 3)
                    (World (new_store docs) 0%nat [] ∅))
             [[1; 0]; [1; 0]; [1; 0]]%float 3%nat).
    repeat econstructor.
  - apply (proj2 (@get_vector_fail_fast nat (quota_provider 2)
                    (World (new_store docs) 0%nat [] ∅))
             [str "a"; str "b"] (str "c") [] [[1; 0]; [1; 0]]%float
             2%nat (ProviderError 429) 3%nat).
    + reflexivity.
    + repeat econstructor.
    + reflexivity.
Defined.

(** *** The pairing of chunks and vectors *)

Section Pairing.
Context {P : Type} `{BaseEmbeddings P}.

(** The three operations that change the store or the disk. *)
Inductive operation :=
| GetVector
| Persist (path : pystr)
| LoadVector (path : pystr).

Definition run_operation (o : operation) : M P unit :=
  match o with
  | GetVector => get_vector ;; mret ()
  | Persist path => persist path
  | LoadVector path => load_vector path
  end.

(** A sequence of calls, each on the world the one before left, whether it
    returned or raised. *)
Fixpoint run_operations (ops : list operation) (w : world P) : world P :=
  match ops with
  | [] => w
  | o :: rest => run_operations rest (snd (run_operation o w))
  end.

(** The invariant of the store: once vectors are held, there are as many as
    chunks. *)
Definition paired (s : VectorStore) : Prop :=
  vectors s ≠ [] -> length (document s) = length (vectors s).

(** The same of every folder of the disk that holds both artifacts. *)
Definition disk_paired (d : filesystem) : Prop :=
  forall (place : list pystr) jv jd vecs docs,
    nodes d !! (place ++ [vectors_json]) = Some (File (Json jv)) ->
    load_vectors jv = Some vecs ->
    nodes d !! (place ++ [document_json]) = Some (File (Json jd)) ->
    load_document jd = Some docs ->
    paired (Store docs vecs).

Definition consistent (w : world P) : Prop :=
  paired (self w) /\ disk_paired (disk w).

(** The calls the invariant survives: [get_vector] on a store that holds no
    vector yet, [persist] of a store that holds some, and [load_vector]. *)
Definition allowed (o : operation) (w : world P) : Prop :=
  match o with
  | GetVector => vectors (self w) = []
  | Persist _ => vectors (self w) ≠ []
  | LoadVector _ => True
  end.

(** An allowed call that returns. *)
Definition step (w w' : world P) : Prop :=
  exists o, allowed o w /\ run_operation o w = (Ok (), w').

Lemma provides_length (p p' : P) (docs : list pystr) (vs : list vector) :
  provides p docs vs p' -> length vs = length docs.
Proof. induction 1; simpl; congruence. Qed.

Lemma get_vector_returns (w w' : world P) (vs : list vector) :
  get_vector w = (Ok vs, w') ->
  exists new,
    provides (provider w) (document (self w)) new (provider w')
    /\ vs = vectors (self w) ++ new
    /\ w' = World (Store (document (self w)) (vectors (self w) ++ new))
              (provider w') (calls w ++ document (self w)) (disk w).
Proof.
  intros Hrun.
  destruct (provider_run_cases (document (self w)) (provider w))
    as [(new & p' & Hnew)
       |(before & doc & after & new & p1 & e & p2 & Hdocs & Hnew & Hraise)].
  - rewrite (get_vector_ok w new p' Hnew) in Hrun.
    injection Hrun as <- <-. by exists new.
  - rewrite (get_vector_raise w _ _ _ _ _ _ _ Hdocs Hnew Hraise) in Hrun.
    discriminate.
Qed.

Lemma step_consistent (w w' : world P) :
  consistent w -> step w w' -> consistent w'.
Proof.
  intros [Hstore Hdisk] (o & Hallowed & Hrun).
  destruct o as [|path|path]; simpl in Hallowed, Hrun.
  - revert Hrun. run_M.
    destruct (get_vector w) as [[vs|e] w1] eqn:Hget; [|discriminate].
    intros [= <-].
    destruct (get_vector_returns _ _ _ Hget) as (new & Hnew & _ & ->).
    split; [|exact Hdisk].
    intros _. simpl. rewrite Hallowed. simpl.
    symmetry. by eapply provides_length.
  - apply persist_returns in Hrun
      as (d1 & place & Hdir & _ & _ & _ & _ & _ & _ & ->).
    split; [exact Hstore|]. cbn [disk].
    assert (files_kept (disk w) d1) as Hfiles.
    { unfold after_directory in Hdir.
      destruct (os_path_exists (disk w) path).
      - injection Hdir as <-. apply files_kept_refl.
      - pose proof (os_makedirs_files path (disk w)) as Hkept.
        by rewrite Hdir in Hkept. }
    intros place' jv jd vecs docs Hjv Hvecs Hjd Hdocs. cbn [nodes] in *.
    destruct (decide (place' = place)) as [->|Hne].
    + rewrite persisted_document in Hjd. injection Hjd as <-.
      rewrite persisted_vectors in Hjv.
      destruct (vectors (self w)) as [|v vs] eqn:Hv; [done|].
      injection Hjv as <-.
      rewrite load_vectors_dump in Hvecs. injection Hvecs as <-.
      rewrite load_document_dump in Hdocs. injection Hdocs as <-.
      unfold paired. cbn [document vectors]. rewrite <- Hv. apply Hstore.
    + pose proof artifact_names_differ as Hnames.
      rewrite persisted_elsewhere in Hjv;
        [|intros [_ ?]%app_inj_tail; congruence
         |intros [? _]%app_inj_tail; congruence].
      rewrite persisted_elsewhere in Hjd;
        [|intros [? _]%app_inj_tail; congruence
         |intros [_ ?]%app_inj_tail; congruence].
      apply Hfiles in Hjv, Hjd. by eapply Hdisk.
  - destruct (load_vector_returns _ _ _ Hrun)
      as (jv & jd & vecs & docs & Hjv & Hvecs & Hjd & Hdocs & ->).
    split; [|exact Hdisk]. cbn [self].
    rewrite open_read_directory in Hjv, Hjd
      by (apply vectors_json_file_name || apply document_json_file_name).
    destruct (directory_place (disk w) path) as [place|e];
      cbn [result_bind] in *; [|done].
    destruct (nodes (disk w) !! (place ++ [vectors_json]))
      as [[|holds]|] eqn:Hv; [done| |done].
    destruct (nodes (disk w) !! (place ++ [document_json]))
      as [[|holds']|] eqn:Hd; [done| |done].
    injection Hjv as ->. injection Hjd as ->. by eapply Hdisk.
Qed.

End Pairing.

(** C9, amended. Over a disk whose directories are paired, a store that is
    paired stays paired through every sequence of calls that return in which
    [get_vector] is called only while the store holds no vector and
    [persist] only once it holds some: in every state so reached with
    vectors, there are as many vectors as chunks. After such a [get_vector]
    the vectors are those the provider returned for the chunks, in order:
    vector [i] belongs to chunk [i]. *)
Theorem pairing_preserved {P : Type} `{BaseEmbeddings P} (w w' : world P) :
  (consistent w -> rtc step w w' ->
   consistent w'
   /\ (vectors (self w') ≠ [] ->
       length (document (self w')) = length (vectors (self w'))))
  /\ (forall vs,
        vectors (self w) = [] -> get_vector w = (Ok vs, w') ->
        document (self w') = document (self w)
        /\ provides (provider w) (document (self w')) (vectors (self w'))
             (provider w')).
Proof.
  split.
  - intros Hw Hrun.
    assert (consistent w') as Hw'.
    { induction Hrun as [w|w w1 w2 Hstep _ IH]; [done|].
      apply IH. by eapply step_consistent. }
    split; [exact Hw'|]. apply Hw'.
  - intros vs Hempty Hget.
    destruct (get_vector_returns _ _ _ Hget) as (new & Hnew & _ & Hw').
    rewrite Hw' at 1 2 3. simpl. by rewrite Hempty.
Qed.

(** A sequence of allowed calls that all return is a run of [step]. *)
Fixpoint all_return {P : Type} `{BaseEmbeddings P} (ops : list operation)
    (w : world P) : Prop :=
  match ops with
  | [] => True
  | o :: rest =>
      allowed o w
      /\ fst (run_operation o w) = Ok ()
      /\ all_return rest (snd (run_operation o w))
  end.

Lemma run_operations_steps {P : Type} `{BaseEmbeddings P}
    (ops : list operation) (w : world P) :
  all_return ops w -> rtc step w (run_operations ops w).
Proof.
  revert w. induction ops as [|o ops IH]; intros w Hall; simpl; [done|].
  destruct Hall as (Hallowed & Hret & Hrest).
  eapply rtc_l; [|by apply IH].
  exists o. split; [done|].
  destruct (run_operation o w) as [r w1]. simpl in *. by rewrite Hret.
Qed.

Lemma pairing_preserved_witness :
  let w := World (new_store [str "a"; str "b"]) 0%nat [] ∅ in
  let w' :=
    @run_operations nat (quota_provider 5)
      [GetVector; Persist (str "storage"); LoadVector (str "storage")] w in
  @consistent nat w'
  /\ (vectors (self w') ≠ [] ->
      length (document (self w')) = length (vectors (self w'))).
Proof.
  intros w w'.
  apply (proj1 (@pairing_preserved nat (quota_provider 5) w w')).
  - split; [by intros ?|]. intros place jv jd vecs docs Hjv.
    unfold w in Hjv. cbn in Hjv. by rewrite lookup_empty in Hjv.
  - apply run_operations_steps. simpl.
    split; [reflexivity|]. split; [by vm_compute|].
    split; [by vm_compute|]. split; [by vm_compute|].
    split; [exact I|]. split; [by vm_compute|]. exact I.
Defined.

(** C9 as stated fails: [get_vector] called twice on [VectorStore(['a'])]
    leaves one chunk and two vectors. *)
Lemma get_vector_twice_unpaired :
  let w :=
    @run_operations nat (quota_provider 5) [GetVector; GetVector]
      (World (new_store [str "a"]) 0%nat [] ∅) in
  vectors (self w) ≠ []
  /\ length (document (self w)) = 1%nat
  /\ length (vectors (self w)) = 2%nat.
Proof. by vm_compute. Qed.

(** *** query *)

Lemma py_slice_from {A} (l : list A) (start : Z) :
  py_slice l (Some start) None =
    drop (Z.to_nat (slice_bound (Z.of_nat (length l)) start)) l.
Proof. unfold py_slice. by rewrite Nat2Z.id, firstn_all. Qed.

Lemma result_map_ok {A B} (f : A -> result B) (l : list A) :
  Forall (fun x => exists y, f x = Ok y) l ->
  exists ys, result_map f l = Ok ys /\ Forall2 (fun x y => f x = Ok y) l ys.
Proof.
  induction 1 as [|x l [y Hy] _ (ys & Hys & Hall)]; simpl.
  - exists []. by split.
  - exists (y :: ys). rewrite Hy, Hys. split; [done|]. by constructor.
Qed.

Lemma np_take_ok (docs : list pystr) (idx : list nat) :
  Forall (fun i => (i < length docs)%nat) idx ->
  exists chunks,
    np_take docs idx = Ok chunks
    /\ Forall2 (fun i c => exists d, docs !! i = Some d /\ c = np_str d)
         idx chunks.
Proof.
  intros Hidx. unfold np_take.
  destruct (result_map_ok
              (fun i => match docs !! i with
                        | Some d => Ok (np_str d)
                        | None => Raise IndexError
                        end) idx) as (chunks & Hrun & Hall).
  - eapply Forall_impl; [exact Hidx|]. intros i Hi. simpl in Hi.
    destruct (lookup_lt_is_Some_2 docs i Hi) as [d Hd].
    rewrite Hd. eauto.
  - exists chunks. split; [exact Hrun|].
    eapply Forall2_impl; [exact Hall|]. intros i c Hc. simpl in Hc.
    destruct (docs !! i) as [d|]; [|discriminate].
    injection Hc as <-. eauto.
Qed.

(** A chunk that does not end in NUL comes back from numpy as it is. *)
Lemma np_str_unchanged (s : pystr) (c : N) :
  last s = Some c -> c ≠ 0%N -> np_str s = s.
Proof.
  intros Hlast Hc. unfold np_str.
  destruct (rev s) as [|d r] eqn:Hrev.
  - apply (f_equal (@rev N)) in Hrev. rewrite rev_involutive in Hrev.
    by subst.
  - apply (f_equal (@rev N)) in Hrev. rewrite rev_involutive in Hrev.
    simpl in Hrev. subst s. rewrite last_snoc in Hlast.
    injection Hlast as ->. simpl.
    by destruct c as [|p].
Qed.

(** [c] is [d] without the NUL characters [d] ends in. *)
Definition without_trailing_nul (d c : pystr) : Prop :=
  (exists n : nat, d = c ++ replicate n 0%N) /\ last c ≠ Some 0%N.

Lemma lstrip_nul_spec (s : pystr) :
  exists n : nat,
    s = replicate n 0%N ++ lstrip_nul s /\ head (lstrip_nul s) ≠ Some 0%N.
Proof.
  induction s as [|c s (n & Hs & Hhead)]; [by exists 0%nat|].
  destruct c as [|p].
  - exists (S n). simpl. by rewrite <- Hs.
  - by exists 0%nat.
Qed.

(** What numpy hands back for a chunk: the chunk without the NUL characters
    it ends in, and so the chunk itself unless it ends in one. *)
Lemma np_str_spec (d : pystr) : without_trailing_nul d (np_str d).
Proof.
  unfold without_trailing_nul, np_str.
  destruct (lstrip_nul_spec (rev d)) as (n & Hd & Hhead).
  rewrite !rev_reverse in *. split.
  - exists n. rewrite <- (reverse_involutive d), Hd at 1.
    by rewrite reverse_app, reverse_replicate.
  - by rewrite last_reverse.
Qed.

Section QueryFacts.
Context `{Numpy} {P : Type} `{BaseEmbeddings P}.

(** The index array of [query]: [result.argsort()[-k:][::-1]]. *)
Definition selection (scores : list float) (k : Z) : list nat :=
  rev (py_slice (np_argsort scores) (Some (- k)) None).

Lemma query_run (q : pystr) (k : Z) (w : world P) (qv : vector) (p1 : P)
    (scores : list float) (chunks : list pystr) :
  get_embedding q (provider w) = (Ok qv, p1) ->
  result_map (cosine_similarity qv) (vectors (self w)) = Ok scores ->
  np_take (document (self w)) (selection scores k) = Ok chunks ->
  query q k w = (Ok chunks, World (self w) p1 (calls w ++ [q]) (disk w)).
Proof.
  intros Hqv Hscores Hchunks.
  unfold query, call_embedding. run_M.
  rewrite Hqv. run_M.
  change (get_similarity qv) with (cosine_similarity qv).
  rewrite Hscores.
  fold (selection scores k). by rewrite Hchunks.
Qed.

(** Whatever [k] is, the selection is the reversed tail of the sorted index
    array, from some position [m] on. *)
Lemma selection_tail (scores : list float) (k : Z) :
  selection scores k =
    reverse (drop (Z.to_nat (slice_bound
                               (Z.of_nat (length (np_argsort scores))) (- k)))
               (np_argsort scores)).
Proof. unfold selection. by rewrite rev_reverse, py_slice_from. Qed.

Lemma np_argsort_length (scores : list float) :
  length (np_argsort scores) = length scores.
Proof. by rewrite (np_argsort_perm scores), length_seq. Qed.

Lemma np_argsort_NoDup (scores : list float) : NoDup (np_argsort scores).
Proof. rewrite (np_argsort_perm scores). apply NoDup_seq. Qed.

Lemma np_argsort_elem_of (scores : list float) (a : nat) :
  a ∈ np_argsort scores <-> (a < length scores)%nat.
Proof. rewrite (np_argsort_perm scores), elem_of_seq. lia. Qed.

Lemma selection_lookup (scores : list float) (k : Z) (i a : nat) :
  selection scores k !! i = Some a ->
  exists pos,
    np_argsort scores !! pos = Some a
    /\ (Z.to_nat (slice_bound (Z.of_nat (length (np_argsort scores))) (- k))
        <= pos)%nat
    /\ (pos + S i = length (np_argsort scores))%nat.
Proof.
  rewrite selection_tail.
  set (m := Z.to_nat _). intros [Ha Hi]%reverse_lookup_Some.
  rewrite length_drop in Ha, Hi. rewrite lookup_drop in Ha.
  eexists. split; [exact Ha|]. lia.
Qed.

Lemma selection_NoDup (scores : list float) (k : Z) :
  NoDup (selection scores k).
Proof.
  rewrite selection_tail, reverse_Permutation.
  eapply sublist_NoDup; [apply np_argsort_NoDup|apply sublist_drop].
Qed.

Lemma selection_in_range (scores : list float) (k : Z) :
  Forall (fun a => (a < length scores)%nat) (selection scores k).
Proof.
  apply Forall_forall. intros a Ha.
  apply np_argsort_elem_of. rewrite selection_tail in Ha.
  rewrite elem_of_reverse in Ha.
  eapply elem_of_sublist; [exact Ha|apply sublist_drop].
Qed.

(** No chunk comes before a chunk that is more similar. *)
Lemma selection_descending (scores : list float) (k : Z)
    (i j a b : nat) (x y : float) :
  (i < j)%nat ->
  selection scores k !! i = Some a -> selection scores k !! j = Some b ->
  scores !! a = Some x -> scores !! b = Some y ->
  np_lt x y = false.
Proof.
  intros Hij (pa & Hpa & _ & Hia)%selection_lookup
    (pb & Hpb & _ & Hjb)%selection_lookup Hx Hy.
  apply (np_argsort_sorted scores pb pa b a y x); [lia|done..].
Qed.

(** No chunk left out is more similar than a chunk returned. *)
Lemma selection_top (scores : list float) (k : Z) (a b : nat) (x y : float) :
  a ∈ selection scores k -> b ∉ selection scores k ->
  scores !! a = Some x -> scores !! b = Some y ->
  np_lt x y = false.
Proof.
  intros [i Hi]%list_elem_of_lookup Hb Hx Hy.
  destruct (selection_lookup _ _ _ _ Hi) as (pa & Hpa & Hm & _).
  assert (b ∈ np_argsort scores) as [pb Hpb]%list_elem_of_lookup.
  { apply np_argsort_elem_of. by eapply lookup_lt_Some. }
  assert (pb < pa)%nat as Hlt.
  { destruct (decide (pb < pa)%nat) as [|Hge]; [done|].
    exfalso. apply Hb. rewrite selection_tail. apply elem_of_reverse.
    apply list_elem_of_lookup. exists (pb - Z.to_nat (slice_bound
      (Z.of_nat (length (np_argsort scores))) (- k)))%nat.
    rewrite lookup_drop. rewrite <- Hpb. f_equal. lia. }
  apply (np_argsort_sorted scores pb pa b a y x); done.
Qed.

Lemma selection_length (scores : list float) (k : Z) :
  0 < k ->
  Z.of_nat (length (selection scores k)) =
    Z.min k (Z.of_nat (length scores)).
Proof.
  intros Hk. rewrite selection_tail, length_reverse, length_drop.
  rewrite np_argsort_length. unfold slice_bound.
  destruct (- k <? 0) eqn:Hneg; lia.
Qed.

Lemma selection_all (scores : list float) :
  selection scores 0 ≡ₚ seq 0 (length scores).
Proof.
  rewrite selection_tail. simpl. unfold slice_bound. simpl.
  rewrite Z.min_l by lia. simpl. rewrite drop_0, reverse_Permutation.
  apply np_argsort_perm.
Qed.

Lemma similarities_ok (qv : vector) (vecs : list vector) :
  Forall (fun v => length v = length qv) vecs ->
  exists scores,
    result_map (cosine_similarity qv) vecs = Ok scores
    /\ Forall2 (fun v s => cosine_similarity qv v = Ok s) vecs scores.
Proof.
  intros Hdim. apply result_map_ok.
  eapply Forall_impl; [exact Hdim|]. intros v Hv. simpl in Hv.
  destruct (np_dot_aligned qv v (eq_sym Hv)) as [d Hd].
  unfold cosine_similarity. rewrite Hd. simpl.
  destruct (falsy _); eauto.
Qed.

End QueryFacts.

Section QueryResults.
Context `{Numpy} {P : Type} `{BaseEmbeddings P}.

(** [scores] are the similarities of the stored vectors to the query
    vector, in the order of the store. *)
Definition similarities (query_vector : vector) (vecs : list vector)
    (scores : list float) : Prop :=
  Forall2 (fun v s => cosine_similarity query_vector v = Ok s) vecs scores.

(** [chunks] are the chunks of [docs] at the positions [idx], each without
    the NUL characters it ends in: a chunk that does not end in NUL is
    there as it is. *)
Definition chunks_at (docs : list pystr) (idx : list nat)
    (chunks : list pystr) : Prop :=
  Forall2 (fun i c => exists d, docs !! i = Some d /\ without_trailing_nul d c)
    idx chunks.

(** From most to least similar, in the order numpy sorts by ([np_lt]: by
    value, a NaN above every number): no position comes before a position
    whose score is above its own. *)
Definition descending (scores : list float) (idx : list nat) : Prop :=
  forall (i j a b : nat) (x y : float),
    (i < j)%nat -> idx !! i = Some a -> idx !! j = Some b ->
    scores !! a = Some x -> scores !! b = Some y ->
    np_lt x y = false.

(** The positions chosen are the best: no position left out has a score
    above the score of a position chosen. *)
Definition dominant (scores : list float) (idx : list nat) : Prop :=
  forall (a b : nat) (x y : float),
    a ∈ idx -> b ∉ idx ->
    scores !! a = Some x -> scores !! b = Some y ->
    np_lt x y = false.

(** What [query] does for every [k], when the provider embeds the query and
    the stored vectors have the dimension of the query vector. *)
Lemma query_selects (q : pystr) (k : Z) (w : world P)
    (query_vector : vector) (p1 : P) :
  get_embedding q (provider w) = (Ok query_vector, p1) ->
  Forall (fun v => length v = length query_vector) (vectors (self w)) ->
  (length (vectors (self w)) <= length (document (self w)))%nat ->
  exists (scores : list float) (chunks : list pystr),
    query q k w = (Ok chunks, World (self w) p1 (calls w ++ [q]) (disk w))
    /\ similarities query_vector (vectors (self w)) scores
    /\ chunks_at (document (self w)) (selection scores k) chunks.
Proof.
  intros Hqv Hdim Hlen.
  destruct (similarities_ok query_vector _ Hdim) as (scores & Hscores & Hsim).
  destruct (np_take_ok (document (self w)) (selection scores k))
    as (chunks & Hchunks & Hat).
  { eapply Forall_impl; [apply selection_in_range|].
    intros a Ha. simpl in Ha.
    rewrite <- (Forall2_length _ _ _ Hsim) in Ha. lia. }
  exists scores, chunks.
  split; [by apply query_run with (qv := query_vector) (scores := scores)|].
  split; [done|].
  eapply Forall2_impl; [exact Hat|]. intros i c (d & Hd & ->).
  exists d. split; [done|apply np_str_spec].
Qed.

End QueryResults.

(** C1, amended. For every [k >= 1], when the provider returns an embedding
    of the query, every stored vector has the dimension of that embedding
    and no vector is without a chunk, [query] returns exactly
    [min(k, number of stored vectors)] chunks: the chunks at that many
    distinct positions that hold a vector, each chunk without the NUL
    characters it ends in, ordered from most to least similar to the query,
    and none of them less similar than the chunk of a vector left out
    (similar as numpy sorts: by value, a NaN above every number). In
    particular with [k] above the number of stored vectors the chunks of all
    vectors are returned. *)
Theorem query_top_k `{Numpy} {P : Type} `{BaseEmbeddings P}
    (q : pystr) (k : Z) (w : world P) (query_vector : vector) (p1 : P) :
  0 < k ->
  get_embedding q (provider w) = (Ok query_vector, p1) ->
  Forall (fun v => length v = length query_vector) (vectors (self w)) ->
  (length (vectors (self w)) <= length (document (self w)))%nat ->
  exists (idx : list nat) (scores : list float) (chunks : list pystr),
    query q k w = (Ok chunks, World (self w) p1 (calls w ++ [q]) (disk w))
    /\ similarities query_vector (vectors (self w)) scores
    /\ chunks_at (document (self w)) idx chunks
    /\ NoDup idx
    /\ Forall (fun i => (i < length (vectors (self w)))%nat) idx
    /\ Z.of_nat (length chunks)
       = Z.min k (Z.of_nat (length (vectors (self w))))
    /\ descending scores idx
    /\ dominant scores idx.
Proof.
  intros Hk Hqv Hdim Hlen.
  destruct (query_selects q k w query_vector p1 Hqv Hdim Hlen)
    as (scores & chunks & Hrun & Hsim & Hat).
  exists (selection scores k), scores, chunks.
  split; [exact Hrun|]. split; [exact Hsim|]. split; [exact Hat|].
  split; [apply selection_NoDup|].
  split.
  { rewrite (Forall2_length _ _ _ Hsim). apply selection_in_range. }
  split.
  { rewrite <- (Forall2_length _ _ _ Hat), (Forall2_length _ _ _ Hsim).
    by apply selection_length. }
  split.
  - intros i j a b x y. apply selection_descending.
  - intros a b x y. apply selection_top.
Qed.

(** An embedding provider that maps every text to [[1.0; 0.0]]. *)
Definition constant_provider : BaseEmbeddings () :=
  fun _ p => (Ok [1; 0]%float, p).

(** The store of the specification's scenario: three chunks with the
    vectors [[1,0]], [[0,1]] and [[1,1]]. *)
Definition scenario_store : VectorStore :=
  Store [str "east"; str "north"; str "north-east"]
    [[1; 0]; [0; 1]; [1; 1]]%float.

Lemma query_top_k_witness :
  let w := World scenario_store () [] ∅ in
  exists (idx : list nat) (scores : list float) (chunks : list pystr),
    @query numpy_reference () constant_provider (str "where") 2 w
    = (Ok chunks, World scenario_store () [str "where"] ∅)
    /\ @similarities numpy_reference [1; 0]%float (vectors scenario_store)
         scores
    /\ chunks_at (document scenario_store) idx chunks
    /\ NoDup idx
    /\ Forall (fun i => (i < length (vectors scenario_store))%nat) idx
    /\ Z.of_nat (length chunks)
       = Z.min 2 (Z.of_nat (length (vectors scenario_store)))
    /\ descending scores idx
    /\ dominant scores idx.
Proof.
  intros w.
  apply (@query_top_k numpy_reference () constant_provider
           (str "where") 2 w [1; 0]%float ()).
  - lia.
  - reflexivity.
  - repeat constructor.
  - simpl. lia.
Defined.

(** C1 as stated fails for [k = 0]: on the scenario store [query] returns
    three chunks and not [min(0, 3) = 0]. *)
Lemma query_k_zero_not_min :
  exists chunks w',
    @query numpy_reference () constant_provider (str "where") 0
      (World scenario_store () [] ∅) = (Ok chunks, w')
    /\ length chunks = 3%nat
    /\ Z.min 0 (Z.of_nat (length (vectors scenario_store))) = 0.
Proof. do 2 eexists. split; [by vm_compute|]. by split. Qed.

(** C10, amended. With [k = 0] the slice [[-0:]] keeps the whole index
    array: on a store with at least one vector, when the provider returns an
    embedding of the query, every stored vector has its dimension and no
    vector is without a chunk, [query] returns one chunk for every stored
    vector (and so not the empty list): the chunks at the positions
    [0 .. n-1], each position once and each chunk without the NUL characters
    it ends in, ordered from most to least similar. *)
Theorem query_k_zero_returns_all `{Numpy} {P : Type} `{BaseEmbeddings P}
    (q : pystr) (w : world P) (query_vector : vector) (p1 : P) :
  (1 <= length (vectors (self w)))%nat ->
  get_embedding q (provider w) = (Ok query_vector, p1) ->
  Forall (fun v => length v = length query_vector) (vectors (self w)) ->
  (length (vectors (self w)) <= length (document (self w)))%nat ->
  exists (idx : list nat) (scores : list float) (chunks : list pystr),
    query q 0 w = (Ok chunks, World (self w) p1 (calls w ++ [q]) (disk w))
    /\ similarities query_vector (vectors (self w)) scores
    /\ chunks_at (document (self w)) idx chunks
    /\ idx ≡ₚ seq 0 (length (vectors (self w)))
    /\ length chunks = length (vectors (self w))
    /\ chunks ≠ []
    /\ descending scores idx.
Proof.
  intros Hn Hqv Hdim Hlen.
  destruct (query_selects q 0 w query_vector p1 Hqv Hdim Hlen)
    as (scores & chunks & Hrun & Hsim & Hat).
  pose proof (Forall2_length _ _ _ Hsim) as Hscores.
  pose proof (Forall2_length _ _ _ Hat) as Hchunks.
  pose proof (selection_all scores) as Hall.
  assert (length chunks = length (vectors (self w))) as Hcount.
  { by rewrite <- Hchunks, Hall, length_seq. }
  exists (selection scores 0), scores, chunks.
  split; [exact Hrun|]. split; [exact Hsim|]. split; [exact Hat|].
  split; [by rewrite Hscores|].
  split; [exact Hcount|].
  split; [intros ->; simpl in Hcount; lia|].
  intros i j a b x y. apply selection_descending.
Qed.

Lemma query_k_zero_returns_all_witness :
  let w := World scenario_store () [] ∅ in
  exists (idx : list nat) (scores : list float) (chunks : list pystr),
    @query numpy_reference () constant_provider (str "where") 0 w
    = (Ok chunks, World scenario_store () [str "where"] ∅)
    /\ @similarities numpy_reference [1; 0]%float (vectors scenario_store)
         scores
    /\ chunks_at (document scenario_store) idx chunks
    /\ idx ≡ₚ seq 0 (length (vectors scenario_store))
    /\ length chunks = length (vectors scenario_store)
    /\ chunks ≠ []
    /\ descending scores idx.
Proof.
  intros w.
  apply (@query_k_zero_returns_all numpy_reference () constant_provider
           (str "where") w [1; 0]%float ()).
  - simpl. lia.
  - reflexivity.
  - repeat constructor.
  - simpl. lia.
Defined.

(** C10 as stated fails on a store that holds more vectors than chunks,
    which [get_vector] called twice leaves: with one chunk and two vectors,
    [query] with [k = 0] selects both positions and raises [IndexError]. *)
Lemma query_k_zero_index_error :
  let w :=
    snd ((@get_vector () constant_provider ;; @get_vector () constant_provider)
           (World (new_store [str "east"]) () [] ∅)) in
  (1 <= length (vectors (self w)))%nat
  /\ fst (@query numpy_reference () constant_provider (str "where") 0 w)
     = Raise IndexError.
Proof. split; [vm_compute; lia|by vm_compute]. Qed.

(** The scenarios of the specification, run. The chunk of [[1,0]] comes
    first, then the chunk of [[1,1]]; with [k = 10] all three chunks are
    returned. *)
Example query_scenarios :
  fst (@query numpy_reference () constant_provider (str "where") 2
         (World scenario_store () [] ∅))
  = Ok [str "east"; str "north-east"]
  /\ fst (@query numpy_reference () constant_provider (str "where") 10
            (World scenario_store () [] ∅))
     = Ok [str "east"; str "north-east"; str "north"].
Proof. split; by vm_compute. Qed.

(** ** More on the chunker *)

(** *** One token per character *)

Lemma remove_spaces_length (s : pystr) :
  (length (remove_spaces s) <= length s)%nat.
Proof. apply length_filter. Qed.

Lemma char_tokens_line (line : pystr) :
  line_tokens char_tokens line <= Z.of_nat (length line).
Proof.
  unfold line_tokens, char_tokens. rewrite length_map.
  pose proof (remove_spaces_length line). lia.
Qed.

Lemma budget_last_line (cur : pystr) :
  budget char_tokens (match cur with [] => [] | _ => [rev cur] end)
  <= Z.of_nat (length cur) + 1.
Proof.
  destruct cur as [|d cur]; [simpl; lia|].
  pose proof (char_tokens_line (rev (d :: cur))) as Hline.
  rewrite length_rev in Hline. simpl in *. lia.
Qed.

(** Each line break takes at least one character of the text, so the
    tokens counted for the lines, with one more per line, are at most the
    characters of the text and one. *)
Lemma char_tokens_budget_from (n : nat) (s cur : pystr) :
  (length s <= n)%nat ->
  budget char_tokens (splitlines_from cur s)
  <= Z.of_nat (length cur) + Z.of_nat (length s) + 1.
Proof.
  revert s cur. induction n as [|n IH]; intros [|c s] cur Hn;
    try (simpl in Hn; lia).
  - pose proof (budget_last_line cur). simpl in *. lia.
  - pose proof (budget_last_line cur). simpl in *. lia.
  - cbn [splitlines_from]. simpl in Hn.
    pose proof (char_tokens_line (rev cur)) as Hline.
    rewrite length_rev in Hline.
    destruct (is_linebreak c).
    + assert (forall rest : pystr,
                (length rest <= length s)%nat ->
                budget char_tokens (rev cur :: splitlines_from [] rest)
                <= Z.of_nat (length cur) + Z.of_nat (length (c :: s)) + 1)
        as Hrest.
      { intros rest Hlen. specialize (IH rest [] ltac:(lia)).
        simpl in *. lia. }
      repeat case_match; subst; apply Hrest; simpl; lia.
    + specialize (IH s (c :: cur) ltac:(lia)). simpl in *. lia.
Qed.

Lemma char_tokens_budget (text : pystr) :
  budget char_tokens (splitlines text) <= Z.of_nat (length text) + 1.
Proof.
  unfold splitlines.
  pose proof (char_tokens_budget_from (length text) text [] ltac:(lia)).
  simpl in *. lia.
Qed.

(** With one token per character, every text of at least one and at most
    [T - C] characters is returned as one chunk: its lines, each without its
    spaces and followed by a newline. *)
Theorem get_chunk_char_tokens_single_chunk (text : pystr) (T C : Z) :
  0 <= C ->
  text ≠ [] ->
  Z.of_nat (length (char_tokens text)) <= T - C ->
  get_chunk (returning char_tokens) text T C
  = Ok [reassemble (splitlines text)].
Proof.
  intros HC Htext Hfit. unfold char_tokens in Hfit. rewrite length_map in Hfit.
  pose proof (char_tokens_budget text) as Hbudget.
  unfold get_chunk.
  rewrite process_lines_fit; simpl; [|done|done|lia].
  pose proof (reassemble_nonempty _ (splitlines_nonempty _ Htext)) as Hne.
  by destruct (reassemble (splitlines text)).
Qed.

Lemma get_chunk_char_tokens_single_chunk_witness :
  get_chunk (returning char_tokens) (str "to be" ++ [NL] ++ str "or not") 20 5
  = Ok [str "tobe" ++ [NL] ++ str "ornot" ++ [NL]].
Proof.
  apply (get_chunk_char_tokens_single_chunk
           (str "to be" ++ [NL] ++ str "or not") 20 5).
  - lia.
  - discriminate.
  - by vm_compute.
Defined.

(** *** Every oversized line leaves a chunk twice *)

Section Oversized.
Variable enc_encode : pystr -> list Z.

Lemma split_pass_binds_end (line : pystr) (line_len token_len C : Z)
    (st : locals) (i : Z) :
  is_Some (end_var (split_pass line line_len token_len C st i)).
Proof. unfold split_pass. destruct (seek _ _ _ _). simpl. eauto. Qed.

Lemma split_pass_keeps_len (line : pystr) (line_len token_len C : Z)
    (st : locals) (i : Z) :
  curr_len (split_pass line line_len token_len C st i) = curr_len st.
Proof. unfold split_pass. by destruct (seek _ _ _ _). Qed.

Lemma split_loop_binds_end (line : pystr) (line_len token_len C : Z)
    (passes : list Z) (st : locals) :
  is_Some (end_var st) \/ passes ≠ [] ->
  is_Some (end_var (foldl (split_pass line line_len token_len C) st passes)).
Proof.
  revert st. induction passes as [|i passes IH]; intros st Hst; simpl.
  - by destruct Hst.
  - apply IH. left. apply split_pass_binds_end.
Qed.

Lemma split_loop_keeps_len (line : pystr) (line_len token_len C : Z)
    (passes : list Z) (st : locals) :
  curr_len (foldl (split_pass line line_len token_len C) st passes)
  = curr_len st.
Proof.
  revert st. induction passes as [|i passes IH]; intros st; simpl; [done|].
  by rewrite IH, split_pass_keeps_len.
Qed.

(** The splitting branch returns when [C < T] and the line counts at least
    one token; it ends with the chunk of "handle the last chunk" both as the
    last chunk appended and as the buffer. *)
Lemma split_line_returns (line : pystr) (line_len token_len C : Z)
    (st : locals) :
  0 < token_len -> 0 < line_len ->
  exists chunks chunk e,
    split_line line line_len token_len C st =
      Ok (Locals (chunks ++ [chunk]) (curr_len st) chunk e).
Proof.
  intros Htok Hlen. unfold split_line.
  destruct (token_len =? 0) eqn:Hzero; [lia|].
  set (num_chunks := (line_len + token_len - 1) / token_len).
  assert (1 <= num_chunks) as Hnum.
  { unfold num_chunks. apply Z.div_le_lower_bound; lia. }
  destruct (split_loop_binds_end line line_len token_len C
              (seqZ 0 num_chunks) st) as [end_ Hend].
  { right. intros Hnil. apply (f_equal length) in Hnil.
    rewrite length_seqZ in Hnil. simpl in Hnil. lia. }
  rewrite Hend, split_loop_keeps_len. eauto.
Qed.

End Oversized.

(** For [0 <= C < T], whatever the tokenizer and whatever came before, a
    line of more than [T] tokens leaves the same chunk twice in a row in the
    chunk list: the chunk appended after the splitting loop is appended
    again by the accumulation branch. *)
Theorem oversized_line_chunk_twice (enc_encode : pystr -> list Z)
    (T C : Z) (st : locals) (line : pystr) :
  0 <= C < T ->
  0 <= curr_len st ->
  T < line_tokens enc_encode line ->
  exists st' chunks chunk,
    process_line (returning enc_encode) T C st line = Ok st'
    /\ chunk_text st' = chunks ++ [chunk; chunk].
Proof.
  intros HC Hlen Hover. rewrite process_line_returning.
  fold (line_tokens enc_encode line).
  destruct (T <? line_tokens enc_encode line) eqn:Hlt; [|lia].
  destruct (split_line_returns (remove_spaces line)
              (line_tokens enc_encode line) (T - C) C st)
    as (chunks & chunk & e & ->); [lia|lia|].
  simpl. unfold accumulate. simpl.
  destruct (curr_len st + line_tokens enc_encode line <=? T - C) eqn:Hfit;
    [lia|].
  eexists _, chunks, chunk. split; [done|]. simpl.
  by rewrite <- app_assoc.
Qed.

Lemma oversized_line_chunk_twice_witness :
  exists st' chunks chunk,
    process_line (returning char_tokens) 3 1 (Locals [] 0 [] None) (str "cdefgh")
    = Ok st'
    /\ chunk_text st' = chunks ++ [chunk; chunk].
Proof.
  apply (oversized_line_chunk_twice char_tokens 3 1
           (Locals [] 0 [] None) (str "cdefgh")).
  - lia.
  - simpl. lia.
  - by vm_compute.
Defined.

(** * Further properties of the code *)

(** ** [get_chunk]: when it returns and when it raises *)

Section ChunkerOutcome.
Variable enc_encode : pystr -> list Z.

Lemma process_line_returns (T C : Z) (st : locals) (line : pystr) :
  C < T -> 0 <= T ->
  exists st', process_line (returning enc_encode) T C st line = Ok st'.
Proof.
  intros HC HT. rewrite process_line_returning.
  destruct (T <? line_tokens enc_encode line) eqn:Hover.
  - destruct (split_line_returns (remove_spaces line)
                (line_tokens enc_encode line) (T - C) C st)
      as (chunks & chunk & e & ->); [lia|lia|].
    simpl. eauto.
  - simpl. eauto.
Qed.

Lemma process_lines_all_return (T C : Z) (lines : list pystr) (st : locals) :
  C < T -> 0 <= T ->
  exists st', process_lines (returning enc_encode) T C st lines = Ok st'.
Proof.
  intros HC HT. revert st.
  induction lines as [|line lines IH]; intros st; simpl; [by eexists|].
  destruct (process_line_returns T C st line HC HT) as [st1 ->].
  simpl. apply IH.
Qed.

(** The lines that do not take the splitting branch leave the local [end]
    as it was. *)
Lemma process_lines_keep_end (T C : Z) (lines : list pystr) (st : locals) :
  Forall (fun line => line_tokens enc_encode line <= T) lines ->
  exists st',
    process_lines (returning enc_encode) T C st lines = Ok st'
    /\ end_var st' = end_var st.
Proof.
  intros Hfit. revert st.
  induction Hfit as [|line lines Hline _ IH]; intros st; simpl; [by eexists|].
  rewrite process_line_returning.
  destruct (T <? line_tokens enc_encode line) eqn:Hover; [lia|].
  simpl.
  destruct (IH (accumulate (remove_spaces line)
                  (line_tokens enc_encode line) (T - C) C st))
    as (st' & -> & Hend).
  exists st'. split; [done|]. rewrite Hend.
  unfold accumulate. by destruct (_ <=? _).
Qed.

Lemma process_lines_app (T C : Z) (before after : list pystr) (st : locals) :
  process_lines (returning enc_encode) T C st (before ++ after) =
    result_bind (process_lines (returning enc_encode) T C st before)
      (fun st' => process_lines (returning enc_encode) T C st' after).
Proof.
  revert st. induction before as [|line before IH]; intros st; simpl; [done|].
  destruct (process_line (returning enc_encode) T C st line) as [st1|e];
    simpl; [|done].
  apply IH.
Qed.

End ChunkerOutcome.

(** *** The tokenizer can raise *)

Section Tokenizer.
Variable enc_encode : pystr -> result (list Z).

(** The tokenizer returns on the line, as [get_chunk] hands it over:
    without its spaces. *)
Definition encodes (line : pystr) : Prop :=
  exists tokens, enc_encode (remove_spaces line) = Ok tokens.

(** The tokens of a text the tokenizer returns on. *)
Definition tokens_of (text : pystr) : list Z :=
  match enc_encode text with
  | Ok tokens => tokens
  | Raise _ => []
  end.

Lemma process_line_encoded (T C : Z) (st : locals) (line : pystr) :
  encodes line ->
  process_line enc_encode T C st line
  = process_line (returning tokens_of) T C st line.
Proof.
  intros [tokens Hline]. unfold process_line, returning, tokens_of.
  by rewrite Hline.
Qed.

Lemma process_line_tokenizer_raises (T C : Z) (st : locals) (line : pystr)
    (e : exn) :
  enc_encode (remove_spaces line) = Raise e ->
  process_line enc_encode T C st line = Raise e.
Proof. intros Hline. unfold process_line. by rewrite Hline. Qed.

Lemma process_lines_encoded (T C : Z) (lines : list pystr) (st : locals) :
  Forall encodes lines ->
  process_lines enc_encode T C st lines
  = process_lines (returning tokens_of) T C st lines.
Proof.
  intros Hlines. revert st.
  induction Hlines as [|line lines Hline _ IH]; intros st; simpl; [done|].
  rewrite process_line_encoded by done.
  destruct (process_line (returning tokens_of) T C st line); simpl; [|done].
  apply IH.
Qed.

(** On a text of which the tokenizer takes every line, [get_chunk] is
    [get_chunk] with the tokens it returns. *)
(** On a text whose lines the tokenizer takes, [get_chunk] does what it
    does with the tokenizer that returns the same tokens and never
    raises. *)
Lemma get_chunk_encoded (text : pystr) (T C : Z) :
  Forall encodes (splitlines text) ->
  get_chunk enc_encode text T C = get_chunk (returning tokens_of) text T C.
Proof. intros Hlines. unfold get_chunk. by rewrite process_lines_encoded. Qed.

Lemma process_lines_tokenizer_raises (T C : Z) (before after : list pystr)
    (line : pystr) (st : locals) (e : exn) :
  C < T -> 0 <= T ->
  Forall encodes before ->
  enc_encode (remove_spaces line) = Raise e ->
  process_lines enc_encode T C st (before ++ line :: after) = Raise e.
Proof.
  intros HC HT Hbefore Hline. revert st.
  induction Hbefore as [|l before Hl _ IH]; intros st; simpl.
  - by rewrite (process_line_tokenizer_raises T C st line e).
  - rewrite process_line_encoded by done.
    destruct (process_line_returns tokens_of T C st l HC HT) as [st1 ->].
    simpl. apply IH.
Qed.

(** With [cover_content < max_token_len] and [max_token_len >= 0], whatever
    [get_chunk] raises the tokenizer raised on a line of the text. *)
Lemma process_lines_raise (T C : Z) (lines : list pystr) (st : locals)
    (e : exn) :
  C < T -> 0 <= T ->
  process_lines enc_encode T C st lines = Raise e ->
  exists line, line ∈ lines /\ enc_encode (remove_spaces line) = Raise e.
Proof.
  intros HC HT. revert st.
  induction lines as [|line lines IH]; intros st; simpl; [done|].
  destruct (enc_encode (remove_spaces line)) as [tokens|e'] eqn:Hline.
  - rewrite process_line_encoded by by exists tokens.
    destruct (process_line_returns tokens_of T C st line HC HT) as [st1 ->].
    simpl. intros (l & Hin & Hl)%IH. exists l. split; [by right|done].
  - rewrite (process_line_tokenizer_raises T C st line e') by done.
    simpl. intros [= ->]. exists line. split; [by left|done].
Qed.

Lemma get_chunk_raise (text : pystr) (T C : Z) (e : exn) :
  C < T -> 0 <= T ->
  get_chunk enc_encode text T C = Raise e ->
  exists line,
    line ∈ splitlines text /\ enc_encode (remove_spaces line) = Raise e.
Proof.
  intros HC HT. unfold get_chunk.
  destruct (process_lines enc_encode T C (Locals [] 0 [] None)
              (splitlines text)) as [st|e'] eqn:Hrun.
  - simpl. by destruct (curr_chunk st).
  - simpl. intros [= ->]. by eapply process_lines_raise.
Qed.

(** What [get_chunk] returns it returns as with the tokens the tokenizer
    gave: it returns only when the tokenizer took every line. *)
Lemma process_lines_returned (T C : Z) (lines : list pystr)
    (st st' : locals) :
  process_lines enc_encode T C st lines = Ok st' -> Forall encodes lines.
Proof.
  revert st. induction lines as [|line lines IH]; intros st; simpl; [done|].
  destruct (enc_encode (remove_spaces line)) as [tokens|e] eqn:Hline.
  - destruct (process_line enc_encode T C st line) as [st1|e]; simpl;
      [|discriminate].
    intros Hrest%IH. constructor; [by exists tokens|done].
  - by rewrite (process_line_tokenizer_raises T C st line e).
Qed.

(** And when [get_chunk] returns, the tokenizer took every line. *)
Lemma get_chunk_returned (text : pystr) (T C : Z) (chunks : list pystr) :
  get_chunk enc_encode text T C = Ok chunks ->
  get_chunk (returning tokens_of) text T C = Ok chunks.
Proof.
  intros Hrun. rewrite <- get_chunk_encoded; [done|].
  unfold get_chunk in Hrun.
  destruct (process_lines enc_encode T C (Locals [] 0 [] None)
              (splitlines text)) as [st|e] eqn:Hst; [|discriminate].
  by eapply process_lines_returned.
Qed.

End Tokenizer.

(** With [cover_content < max_token_len] and [max_token_len >= 0],
    [get_chunk] has one way to fail, the tokenizer: on a text of which the
    tokenizer takes every line it returns a list of chunks (neither the
    division nor the unbound [end] can be reached), and the error the
    tokenizer raises on the first line it does not take is raised by
    [get_chunk] unchanged. *)
Theorem get_chunk_returns (enc_encode : pystr -> result (list Z))
    (text : pystr) (T C : Z) :
  C < T -> 0 <= T ->
  (Forall (encodes enc_encode) (splitlines text) ->
   exists chunks, get_chunk enc_encode text T C = Ok chunks)
  /\ (forall (before after : list pystr) (line : pystr) (e : exn),
        splitlines text = before ++ line :: after ->
        Forall (encodes enc_encode) before ->
        enc_encode (remove_spaces line) = Raise e ->
        get_chunk enc_encode text T C = Raise e).
Proof.
  intros HC HT. split.
  - intros Hlines. rewrite get_chunk_encoded by done. unfold get_chunk.
    destruct (process_lines_all_return (tokens_of enc_encode) T C
                (splitlines text) (Locals [] 0 [] None) HC HT) as [st ->].
    simpl. destruct (curr_chunk st); eauto.
  - intros before after line e Hsplit Hbefore Hline. unfold get_chunk.
    rewrite Hsplit.
    by rewrite (process_lines_tokenizer_raises enc_encode T C before after
                  line _ e).
Qed.

Lemma get_chunk_returns_witness :
  (exists chunks,
     get_chunk strict_tokens (str "ab" ++ [NL] ++ str "cdefgh") 3 1
     = Ok chunks)
  /\ get_chunk strict_tokens
       (str "ab" ++ [NL] ++ str "c <|endoftext|>" ++ [NL] ++ str "d") 3 1
     = Raise ValueError.
Proof.
  split.
  - apply (proj1 (get_chunk_returns strict_tokens
                    (str "ab" ++ [NL] ++ str "cdefgh") 3 1
                    ltac:(lia) ltac:(lia))).
    repeat constructor; by eexists.
  - apply (proj2 (get_chunk_returns strict_tokens
                    (str "ab" ++ [NL] ++ str "c <|endoftext|>" ++ [NL]
                     ++ str "d") 3 1 ltac:(lia) ltac:(lia))
             [str "ab"] [str "d"] (str "c <|endoftext|>") ValueError).
    + reflexivity.
    + repeat constructor. by eexists.
    + reflexivity.
Defined.

(** With [cover_content = max_token_len] the width of a segment is zero:
    [get_chunk] raises [ZeroDivisionError] as soon as the text has a line of
    more than [max_token_len] tokens, and returns when it has none. *)
Theorem get_chunk_zero_width (enc_encode : pystr -> list Z) (text : pystr)
    (T : Z) :
  (Exists (fun line => T < line_tokens enc_encode line) (splitlines text) ->
   get_chunk (returning enc_encode) text T T = Raise ZeroDivisionError)
  /\ (Forall (fun line => line_tokens enc_encode line <= T) (splitlines text) ->
      exists chunks, get_chunk (returning enc_encode) text T T = Ok chunks).
Proof.
  split.
  - intros Hover. unfold get_chunk.
    assert (forall st,
              process_lines (returning enc_encode) T T st (splitlines text)
              = Raise ZeroDivisionError) as ->; [|done].
    induction Hover as [line lines Hline|line lines _ IH]; intros st; simpl.
    + rewrite process_line_returning.
      destruct (T <? line_tokens enc_encode line) eqn:Hlt; [|lia].
      unfold split_line. by rewrite Z.sub_diag.
    + rewrite process_line_returning.
      destruct (T <? line_tokens enc_encode line) eqn:Hlt.
      * unfold split_line. by rewrite Z.sub_diag.
      * simpl. apply IH.
  - intros Hfit. unfold get_chunk.
    destruct (process_lines_returns enc_encode T T (splitlines text)
                (Locals [] 0 [] None) Hfit) as [st ->].
    simpl. destruct (curr_chunk st); eauto.
Qed.

Lemma get_chunk_zero_width_witness :
  get_chunk (returning char_tokens) (str "ab" ++ [NL] ++ str "cdefgh") 3 3
  = Raise ZeroDivisionError
  /\ exists chunks,
       get_chunk (returning char_tokens) (str "ab" ++ [NL] ++ str "cd") 3 3
       = Ok chunks.
Proof.
  split.
  - apply (proj1 (get_chunk_zero_width char_tokens
                    (str "ab" ++ [NL] ++ str "cdefgh") 3)).
    apply Exists_cons_tl, Exists_cons_hd. by vm_compute.
  - apply (proj2 (get_chunk_zero_width char_tokens
                    (str "ab" ++ [NL] ++ str "cd") 3)).
    repeat constructor; by vm_compute.
Defined.

(** With [cover_content > max_token_len] the width of a segment is
    negative. On the first line of more than [max_token_len] tokens, if it
    also counts more than [cover_content - max_token_len] tokens, the
    splitting loop makes no pass, the local [end] is still unbound after
    it, and [get_chunk] raises [UnboundLocalError]. *)
Theorem get_chunk_negative_width (enc_encode : pystr -> list Z)
    (text : pystr) (T C : Z) (before after : list pystr) (line : pystr) :
  T < C ->
  splitlines text = before ++ line :: after ->
  Forall (fun l => line_tokens enc_encode l <= T) before ->
  T < line_tokens enc_encode line ->
  C - T < line_tokens enc_encode line ->
  get_chunk (returning enc_encode) text T C = Raise UnboundLocalError.
Proof.
  intros HC Hlines Hbefore Hover Hlong. unfold get_chunk.
  rewrite Hlines, process_lines_app.
  destruct (process_lines_keep_end enc_encode T C before
              (Locals [] 0 [] None) Hbefore) as (st & -> & Hend).
  simpl in *. rewrite process_line_returning.
  destruct (T <? line_tokens enc_encode line) eqn:Hlt; [|lia].
  unfold split_line.
  destruct (T - C =? 0) eqn:Hzero; [lia|].
  assert ((line_tokens enc_encode line + (T - C) - 1) / (T - C) <= 0)
    as Hnum.
  { rewrite <- Z.div_opp_opp by lia.
    apply Z.div_le_upper_bound; lia. }
  rewrite seqZ_nil by lia. simpl. by rewrite Hend.
Qed.

Lemma get_chunk_negative_width_witness :
  get_chunk (returning char_tokens) (str "ab" ++ [NL] ++ str "cdefgh") 5 8
  = Raise UnboundLocalError.
Proof.
  apply (get_chunk_negative_width char_tokens
           (str "ab" ++ [NL] ++ str "cdefgh") 5 8
           [str "ab"] [] (str "cdefgh")).
  - lia.
  - reflexivity.
  - repeat constructor. by vm_compute.
  - by vm_compute.
  - by vm_compute.
Defined.

(** ** [get_chunk]: what the chunks hold *)

(** No space character. *)
Definition spaceless (s : pystr) : Prop := SPACE ∉ s.

(** [chunk] holds [part] as a run of consecutive characters. *)
Definition holds (chunk part : pystr) : Prop :=
  exists before after, chunk = before ++ part ++ after.

Lemma remove_spaces_spaceless (s : pystr) : spaceless (remove_spaces s).
Proof.
  unfold spaceless, remove_spaces. rewrite list_elem_of_filter.
  by intros [? _].
Qed.

Lemma py_slice_subseteq {A} (l : list A) (start stop : option Z) :
  py_slice l start stop ⊆ l.
Proof.
  unfold py_slice. etrans; [apply subseteq_drop|apply subseteq_take].
Qed.

Lemma spaceless_app (s t : pystr) :
  spaceless s -> spaceless t -> spaceless (s ++ t).
Proof. unfold spaceless. rewrite elem_of_app. tauto. Qed.

Lemma spaceless_slice (s : pystr) (start stop : option Z) :
  spaceless s -> spaceless (py_slice s start stop).
Proof. intros Hs Hin. by apply Hs, (py_slice_subseteq s start stop). Qed.

Lemma tail_slice_0 (s : pystr) : tail_slice s 0 = s.
Proof.
  unfold tail_slice, py_slice, slice_bound. simpl.
  rewrite Z.min_l by lia. simpl. by rewrite Nat2Z.id, firstn_all.
Qed.

Section ChunkContents.
Variable enc_encode : pystr -> list Z.
Variables T C : Z.

(** The chunks appended so far and the buffer are without spaces. *)
Definition all_spaceless (st : locals) : Prop :=
  Forall spaceless (chunk_text st) /\ spaceless (curr_chunk st).

Lemma split_pass_spaceless (line : pystr) (line_len token_len : Z)
    (st : locals) (i : Z) :
  spaceless line -> all_spaceless st ->
  all_spaceless (split_pass line line_len token_len C st i).
Proof.
  intros Hline [Htext Hcurr]. unfold split_pass.
  destruct (seek _ _ _ _) as [start end_]. simpl.
  assert (spaceless (tail_slice (curr_chunk st) C
                       ++ py_slice line (Some start) (Some end_))) as Hchunk.
  { apply spaceless_app; by apply spaceless_slice. }
  split; [|done]. simpl. apply Forall_app. split; [done|]. by constructor.
Qed.

Lemma split_loop_spaceless (line : pystr) (line_len token_len : Z)
    (passes : list Z) (st : locals) :
  spaceless line -> all_spaceless st ->
  all_spaceless (foldl (split_pass line line_len token_len C) st passes).
Proof.
  intros Hline. revert st.
  induction passes as [|i passes IH]; intros st Hst; simpl; [done|].
  by apply IH, split_pass_spaceless.
Qed.

Lemma process_line_spaceless (st st' : locals) (line : pystr) :
  all_spaceless st ->
  process_line (returning enc_encode) T C st line = Ok st' ->
  all_spaceless st'.
Proof.
  intros Hst. rewrite process_line_returning.
  pose proof (remove_spaces_spaceless line) as Hline.
  set (stripped := remove_spaces line) in *.
  assert (forall st1, all_spaceless st1 ->
            all_spaceless (accumulate stripped (line_tokens enc_encode line)
                             (T - C) C st1)) as Hacc.
  { intros st1 [Htext Hcurr]. unfold accumulate.
    destruct (_ <=? _); split; simpl; try done.
    - apply spaceless_app; [done|]. apply spaceless_app; [done|].
      unfold spaceless. rewrite list_elem_of_singleton. discriminate.
    - apply Forall_app. split; [done|]. by constructor.
    - apply spaceless_app; [by apply spaceless_slice|done]. }
  destruct (T <? line_tokens enc_encode line); simpl.
  - unfold split_line. destruct (T - C =? 0); [discriminate|].
    set (st1 := foldl _ st _).
    assert (all_spaceless st1) as [Htext Hcurr]
      by by apply split_loop_spaceless.
    destruct (end_var st1) as [end_|]; [|discriminate].
    simpl. intros [= <-]. apply Hacc.
    assert (spaceless (tail_slice (curr_chunk st1) C
                         ++ py_slice stripped
                              (Some (((line_tokens enc_encode line + (T - C) - 1)
                                      / (T - C) - 1) * (T - C)))
                              (Some end_))) as Hchunk.
    { apply spaceless_app; by apply spaceless_slice. }
    split; [|done]. simpl. apply Forall_app. split; [done|]. by constructor.
  - intros [= <-]. by apply Hacc.
Qed.

Lemma process_lines_spaceless (lines : list pystr) (st st' : locals) :
  all_spaceless st ->
  process_lines (returning enc_encode) T C st lines = Ok st' ->
  all_spaceless st'.
Proof.
  revert st. induction lines as [|line lines IH]; intros st Hst; simpl.
  - by intros [= <-].
  - destruct (process_line (returning enc_encode) T C st line)
      as [st1|e] eqn:Hline;
      [|discriminate].
    simpl. apply IH. by eapply process_line_spaceless.
Qed.

(** The chunks appended so far are never taken back. *)
Lemma process_line_keeps_chunks (st st' : locals) (line : pystr) :
  process_line (returning enc_encode) T C st line = Ok st' ->
  chunk_text st `prefix_of` chunk_text st'.
Proof.
  rewrite process_line_returning.
  set (stripped := remove_spaces line).
  assert (forall st1,
            chunk_text st1 `prefix_of`
              chunk_text (accumulate stripped (line_tokens enc_encode line)
                            (T - C) C st1)) as Hacc.
  { intros st1. unfold accumulate.
    destruct (_ <=? _); simpl; [done|]. by apply prefix_app_r. }
  destruct (T <? line_tokens enc_encode line); simpl.
  - unfold split_line. destruct (T - C =? 0); [discriminate|].
    set (st1 := foldl _ st _).
    assert (chunk_text st `prefix_of` chunk_text st1) as Hloop.
    { subst st1. generalize (seqZ 0 ((line_tokens enc_encode line + (T - C) - 1)
                                       / (T - C))).
      intros passes. revert st.
      induction passes as [|i passes IH]; intros st; simpl; [done|].
      etrans; [|apply IH]. unfold split_pass.
      destruct (seek _ _ _ _). simpl. by apply prefix_app_r. }
    destruct (end_var st1) as [end_|]; [|discriminate].
    simpl. intros [= <-]. etrans; [exact Hloop|].
    etrans; [|apply Hacc]. simpl. by apply prefix_app_r.
  - intros [= <-]. apply Hacc.
Qed.

Lemma process_lines_keep_chunks (lines : list pystr) (st st' : locals) :
  process_lines (returning enc_encode) T C st lines = Ok st' ->
  chunk_text st `prefix_of` chunk_text st'.
Proof.
  revert st. induction lines as [|line lines IH]; intros st; simpl.
  - by intros [= <-].
  - destruct (process_line (returning enc_encode) T C st line)
      as [st1|e] eqn:Hline;
      [|discriminate].
    simpl. intros Hrest. etrans; [by eapply process_line_keeps_chunks|].
    by apply IH.
Qed.

End ChunkContents.

(** Whatever the tokenizer and the parameters, no chunk [get_chunk] returns
    holds a space character: the spaces of every line are removed before the
    line is used, and only newlines are put between lines. *)
Theorem get_chunk_spaceless (enc_encode : pystr -> result (list Z))
    (text : pystr) (T C : Z) (chunks : list pystr) :
  get_chunk enc_encode text T C = Ok chunks ->
  Forall spaceless chunks.
Proof.
  intros Hrun%get_chunk_returned. revert Hrun. unfold get_chunk.
  destruct (process_lines (returning (tokens_of enc_encode)) T C
              (Locals [] 0 [] None) (splitlines text)) as [st|e] eqn:Hst;
    [|discriminate].
  simpl.
  assert (all_spaceless (Locals [] 0 [] None)) as Hstart.
  { split; simpl; [constructor|]. unfold spaceless. apply not_elem_of_nil. }
  destruct (process_lines_spaceless (tokens_of enc_encode) T C _ _ _
              Hstart Hst) as [Htext Hcurr].
  destruct (curr_chunk st) eqn:Hbuf; intros [= <-]; [done|].
  apply Forall_app. split; [done|]. by constructor.
Qed.

Lemma get_chunk_spaceless_witness :
  Forall spaceless
    [str "tobe" ++ [NL]; [NL] ++ str "ornottobe,thatisthequestion"].
Proof.
  apply (get_chunk_spaceless strict_tokens
           (str "to be" ++ [NL] ++ str "or not to be, that is the question")
           30 1).
  by vm_compute.
Defined.

(** When the first line counts more than [T - C] tokens and at most [T],
    the first chunk returned is the empty string: the empty buffer is
    appended before the line is put into it. *)
Theorem get_chunk_empty_first_chunk (enc_encode : pystr -> list Z)
    (text : pystr) (T C : Z) (line : pystr) (rest : list pystr) :
  C < T -> 0 <= T ->
  splitlines text = line :: rest ->
  T - C < line_tokens enc_encode line <= T ->
  exists chunks, get_chunk (returning enc_encode) text T C = Ok ([] :: chunks).
Proof.
  intros HC HT Hlines Hline. unfold get_chunk. rewrite Hlines. simpl.
  rewrite process_line_returning.
  destruct (T <? line_tokens enc_encode line) eqn:Hover; [lia|].
  simpl. unfold accumulate. simpl.
  destruct (0 + line_tokens enc_encode line <=? T - C) eqn:Hfit; [lia|].
  match goal with
  | |- context [process_lines _ _ _ ?st rest] =>
      destruct (process_lines_all_return enc_encode T C rest st HC HT)
        as [st' Hst'];
      pose proof (process_lines_keep_chunks enc_encode T C _ _ _ Hst')
        as [more Hmore]
  end.
  rewrite Hst'. simpl in *. rewrite Hmore.
  destruct (curr_chunk st'); simpl; eauto.
Qed.

Lemma get_chunk_empty_first_chunk_witness :
  exists chunks,
    get_chunk (returning char_tokens) (str "abcdef" ++ [NL] ++ str "gh") 10 8
    = Ok ([] :: chunks).
Proof.
  apply (get_chunk_empty_first_chunk char_tokens
           (str "abcdef" ++ [NL] ++ str "gh") 10 8 (str "abcdef") [str "gh"]).
  - lia.
  - lia.
  - reflexivity.
  - by vm_compute.
Defined.

(** *** No line is lost, unless a line is oversized *)

Lemma holds_app_r (chunk part more : pystr) :
  holds chunk part -> holds (chunk ++ more) part.
Proof.
  intros (before & after & ->). exists before, (after ++ more).
  by rewrite <- !app_assoc.
Qed.

Section Coverage.
Variable enc_encode : pystr -> list Z.
Variables T C : Z.

(** Every line read so far is held by a chunk appended so far or by the
    buffer. *)
Definition covered (st : locals) (lines : list pystr) : Prop :=
  forall line : pystr,
    line ∈ lines ->
    exists chunk : pystr,
      chunk ∈ chunk_text st ++ [curr_chunk st]
      /\ holds chunk (remove_spaces line).

Lemma accumulate_covered (st : locals) (read : list pystr) (line : pystr)
    (line_len : Z) :
  covered st read ->
  covered (accumulate (remove_spaces line) line_len (T - C) C st)
    (read ++ [line]).
Proof.
  intros Hcov l [Hl|Hl%list_elem_of_singleton]%elem_of_app.
  - destruct (Hcov l Hl) as (chunk & Hchunk & Hholds).
    unfold accumulate. destruct (_ <=? _); simpl.
    + apply elem_of_app in Hchunk as [Hchunk|Hchunk%list_elem_of_singleton].
      * exists chunk. split; [|done]. apply elem_of_app. by left.
      * subst chunk. eexists. split.
        { apply elem_of_app. right. by apply list_elem_of_singleton. }
        by apply holds_app_r.
    + exists chunk. split; [|done]. apply elem_of_app. by left.
  - subst l. unfold accumulate. destruct (_ <=? _); simpl.
    + eexists. split.
      { apply elem_of_app. right. by apply list_elem_of_singleton. }
      by exists (curr_chunk st), [NL].
    + eexists. split.
      { apply elem_of_app. right. by apply list_elem_of_singleton. }
      exists (tail_slice (curr_chunk st) C), []. by rewrite app_nil_r.
Qed.

Lemma process_lines_covered (lines read : list pystr) (st st' : locals) :
  Forall (fun line => line_tokens enc_encode line <= T) lines ->
  covered st read ->
  process_lines (returning enc_encode) T C st lines = Ok st' ->
  covered st' (read ++ lines).
Proof.
  intros Hfit. revert read st.
  induction Hfit as [|line lines Hline _ IH]; intros read st Hcov; simpl.
  - intros [= <-]. by rewrite app_nil_r.
  - rewrite process_line_returning.
    destruct (T <? line_tokens enc_encode line) eqn:Hover; [lia|].
    simpl. intros Hrest.
    replace (read ++ line :: lines) with ((read ++ [line]) ++ lines)
      by by rewrite <- app_assoc.
    eapply IH; [|exact Hrest]. by apply accumulate_covered.
Qed.

End Coverage.

(** If no line counts more than [T] tokens, no line is lost: every line
    that is not empty once its spaces are removed is held, whole, by one of
    the chunks returned. *)
Theorem get_chunk_holds_every_line (enc_encode : pystr -> list Z)
    (text : pystr) (T C : Z) (chunks : list pystr) (line : pystr) :
  Forall (fun l => line_tokens enc_encode l <= T) (splitlines text) ->
  get_chunk (returning enc_encode) text T C = Ok chunks ->
  line ∈ splitlines text ->
  remove_spaces line ≠ [] ->
  exists chunk : pystr, chunk ∈ chunks /\ holds chunk (remove_spaces line).
Proof.
  intros Hfit Hrun Hline Hne. unfold get_chunk in Hrun.
  destruct (process_lines (returning enc_encode) T C (Locals [] 0 [] None)
              (splitlines text)) as [st|e] eqn:Hst; [|discriminate].
  simpl in Hrun.
  assert (covered (Locals [] 0 [] None) []) as Hstart
    by by intros l ?%elem_of_nil.
  destruct (process_lines_covered enc_encode T C _ _ _ _ Hfit Hstart Hst
              line Hline) as (chunk & Hchunk & Hholds).
  destruct (curr_chunk st) eqn:Hbuf; injection Hrun as <-.
  - apply elem_of_app in Hchunk as [Hchunk|Hchunk%list_elem_of_singleton];
      [by exists chunk|].
    subst chunk. destruct Hholds as (before & after & Hempty).
    symmetry in Hempty. apply app_eq_nil in Hempty as [_ Hempty].
    by apply app_eq_nil in Hempty as [? _].
  - by exists chunk.
Qed.

Lemma get_chunk_holds_every_line_witness :
  exists chunk : pystr,
    chunk ∈ [str "ab" ++ [NL]; [NL] ++ str "cd"; str "d" ++ str "ef"]
    /\ holds chunk (remove_spaces (str "c d")).
Proof.
  apply (get_chunk_holds_every_line char_tokens
           (str "ab" ++ [NL] ++ str "c d" ++ [NL] ++ str "ef") 3 1).
  - repeat constructor; by vm_compute.
  - by vm_compute.
  - vm_compute. apply list_elem_of_further, list_elem_of_here.
  - discriminate.
Defined.

(** *** Without overlap the chunks pile up *)

(** Each chunk after the first begins with the whole chunk before it. *)
Definition cumulative (chunks : list pystr) : Prop :=
  forall (i : nat) (a b : pystr),
    chunks !! i = Some a -> chunks !! S i = Some b -> a `prefix_of` b.

Lemma cumulative_extend_last (l : list pystr) (x y : pystr) :
  cumulative (l ++ [x]) -> x `prefix_of` y -> cumulative (l ++ [y]).
Proof.
  intros Hok Hxy i a b Ha Hb.
  destruct (decide (S i < length l)%nat) as [Hlt|Hge].
  - rewrite lookup_app_l in Ha by lia. rewrite lookup_app_l in Hb by lia.
    apply (Hok i); by rewrite lookup_app_l by lia.
  - destruct (decide (S i = length l)) as [Heq|Hne].
    + rewrite lookup_app_l in Ha by lia.
      rewrite lookup_app_r, Heq, Nat.sub_diag in Hb by lia.
      simpl in Hb. injection Hb as <-.
      trans x; [|done].
      apply (Hok i); [by rewrite lookup_app_l by lia|].
      by rewrite lookup_app_r, Heq, Nat.sub_diag by lia.
    + apply lookup_lt_Some in Hb. rewrite length_app in Hb. simpl in Hb. lia.
Qed.

Lemma cumulative_snoc (l : list pystr) (x y : pystr) :
  cumulative (l ++ [x]) -> x `prefix_of` y -> cumulative ((l ++ [x]) ++ [y]).
Proof.
  intros Hok Hxy i a b Ha Hb.
  destruct (decide (S i < length (l ++ [x]))%nat) as [Hlt|Hge].
  - rewrite lookup_app_l in Ha by lia. rewrite lookup_app_l in Hb by lia.
    by apply (Hok i).
  - destruct (decide (S i = length (l ++ [x]))) as [Heq|Hne].
    + rewrite lookup_app_l in Ha by lia.
      rewrite lookup_app_r, Heq, Nat.sub_diag in Hb by lia.
      simpl in Hb. injection Hb as <-.
      rewrite length_app in Heq. simpl in Heq.
      rewrite lookup_app_r in Ha by lia.
      replace (i - length l)%nat with 0%nat in Ha by lia.
      simpl in Ha. by injection Ha as <-.
    + apply lookup_lt_Some in Hb. rewrite length_app in Hb. simpl in Hb. lia.
Qed.

Lemma process_lines_cumulative (enc_encode : pystr -> list Z) (T : Z)
    (lines : list pystr) (st st' : locals) :
  Forall (fun line => line_tokens enc_encode line <= T) lines ->
  cumulative (chunk_text st ++ [curr_chunk st]) ->
  process_lines (returning enc_encode) T 0 st lines = Ok st' ->
  cumulative (chunk_text st' ++ [curr_chunk st']).
Proof.
  intros Hfit. revert st.
  induction Hfit as [|line lines Hline _ IH]; intros st Hok; simpl.
  - by intros [= <-].
  - rewrite process_line_returning.
    destruct (T <? line_tokens enc_encode line) eqn:Hover; [lia|].
    simpl. apply IH. unfold accumulate.
    destruct (_ <=? _); simpl.
    + eapply cumulative_extend_last; [exact Hok|]. by apply prefix_app_r.
    + apply cumulative_snoc; [exact Hok|].
      rewrite tail_slice_0. by apply prefix_app_r.
Qed.

(** With [cover_content = 0] the seed [curr_chunk[-0:]] of a new buffer is
    the whole chunk just appended, not the empty string: on a text without
    an oversized line every chunk begins with the entire chunk before it. *)
Theorem get_chunk_zero_overlap_cumulative (enc_encode : pystr -> list Z)
    (text : pystr) (T : Z) (chunks : list pystr) :
  Forall (fun line => line_tokens enc_encode line <= T) (splitlines text) ->
  get_chunk (returning enc_encode) text T 0 = Ok chunks ->
  cumulative chunks.
Proof.
  intros Hfit Hrun. unfold get_chunk in Hrun.
  destruct (process_lines (returning enc_encode) T 0 (Locals [] 0 [] None)
              (splitlines text)) as [st|e] eqn:Hst; [|discriminate].
  simpl in Hrun.
  assert (cumulative (chunk_text st ++ [curr_chunk st])) as Hok.
  { eapply process_lines_cumulative; [exact Hfit| |exact Hst].
    intros [|i] a b Ha Hb; discriminate. }
  destruct (curr_chunk st) eqn:Hbuf; injection Hrun as <-; [|done].
  intros i a b Ha Hb. apply (Hok i); by apply lookup_app_l_Some.
Qed.

Lemma get_chunk_zero_overlap_cumulative_witness :
  cumulative
    [str "ab" ++ [NL]; str "ab" ++ [NL] ++ str "cd";
     str "ab" ++ [NL] ++ str "cd" ++ str "ef"].
Proof.
  apply (get_chunk_zero_overlap_cumulative char_tokens
           (str "ab" ++ [NL] ++ str "cd" ++ [NL] ++ str "ef") 3).
  - repeat constructor; by vm_compute.
  - by vm_compute.
Defined.

(** ** [query]: the edges *)

Lemma result_map_raises {A B} (f : A -> result B) (l : list A) (e : exn) :
  Exists (fun x => f x = Raise e) l ->
  Forall (fun x => (exists y, f x = Ok y) \/ f x = Raise e) l ->
  result_map f l = Raise e.
Proof.
  intros Hbad Hall. induction Hall as [|x l Hx Hall IH]; [by inversion Hbad|].
  simpl. destruct Hx as [[y Hy]|Hraise]; [|by rewrite Hraise].
  rewrite Hy. simpl.
  rewrite IH; [done|]. inversion Hbad as [? ? Hhead|]; subst; [|done].
  congruence.
Qed.

Section QueryEdges.
Context `{Numpy} {P : Type} `{BaseEmbeddings P}.

Lemma similarities_not_aligned (qv : vector) (vecs : list vector) :
  Exists (fun v => length v ≠ length qv) vecs ->
  result_map (cosine_similarity qv) vecs = Raise ValueError.
Proof.
  intros Hbad. apply result_map_raises.
  - eapply Exists_impl; [exact Hbad|]. intros v Hv. simpl in Hv.
    unfold cosine_similarity. by rewrite np_dot_not_aligned.
  - apply Forall_forall. intros v _.
    destruct (decide (length qv = length v)) as [Heq|Hne].
    + left. destruct (np_dot_aligned qv v Heq) as [d Hd].
      unfold cosine_similarity. rewrite Hd. simpl.
      destruct (falsy _); eauto.
    + right. unfold cosine_similarity. by rewrite np_dot_not_aligned.
Qed.

Lemma np_take_out_of_range (docs : list pystr) (idx : list nat) :
  Exists (fun i => (length docs <= i)%nat) idx ->
  np_take docs idx = Raise IndexError.
Proof.
  intros Hbad. unfold np_take. apply result_map_raises.
  - eapply Exists_impl; [exact Hbad|]. intros i Hi. simpl in Hi.
    by rewrite lookup_ge_None_2.
  - apply Forall_forall. intros i _.
    destruct (docs !! i); eauto.
Qed.

End QueryEdges.

(** A negative [k] does not raise: [argsort()[-k:]] then drops the [|k|]
    least similar positions, so [query] returns the chunks of all vectors
    but those: [max(n - |k|, 0)] chunks for [n] stored vectors, at that many
    distinct positions that hold a vector, none of them less similar than
    the chunk of a vector left out, from most to least similar. *)
Theorem query_negative_k `{Numpy} {P : Type} `{BaseEmbeddings P}
    (q : pystr) (k : Z) (w : world P) (query_vector : vector) (p1 : P) :
  k < 0 ->
  get_embedding q (provider w) = (Ok query_vector, p1) ->
  Forall (fun v => length v = length query_vector) (vectors (self w)) ->
  (length (vectors (self w)) <= length (document (self w)))%nat ->
  exists (idx : list nat) (scores : list float) (chunks : list pystr),
    query q k w = (Ok chunks, World (self w) p1 (calls w ++ [q]) (disk w))
    /\ similarities query_vector (vectors (self w)) scores
    /\ chunks_at (document (self w)) idx chunks
    /\ NoDup idx
    /\ Forall (fun i => (i < length (vectors (self w)))%nat) idx
    /\ Z.of_nat (length chunks)
       = Z.max (Z.of_nat (length (vectors (self w))) + k) 0
    /\ descending scores idx
    /\ dominant scores idx.
Proof.
  intros Hk Hqv Hdim Hlen.
  destruct (query_selects q k w query_vector p1 Hqv Hdim Hlen)
    as (scores & chunks & Hrun & Hsim & Hat).
  exists (selection scores k), scores, chunks.
  split; [exact Hrun|]. split; [exact Hsim|]. split; [exact Hat|].
  split; [apply selection_NoDup|].
  split.
  { rewrite (Forall2_length _ _ _ Hsim). apply selection_in_range. }
  split.
  { rewrite <- (Forall2_length _ _ _ Hat), (Forall2_length _ _ _ Hsim).
    rewrite selection_tail, length_reverse, length_drop, np_argsort_length.
    unfold slice_bound. destruct (- k <? 0) eqn:Hneg; lia. }
  split.
  - intros i j a b x y. apply selection_descending.
  - intros a b x y. apply selection_top.
Qed.

Lemma query_negative_k_witness :
  let w := World scenario_store () [] ∅ in
  exists (idx : list nat) (scores : list float) (chunks : list pystr),
    @query numpy_reference () constant_provider (str "where") (-1) w
    = (Ok chunks, World scenario_store () [str "where"] ∅)
    /\ @similarities numpy_reference [1; 0]%float (vectors scenario_store)
         scores
    /\ chunks_at (document scenario_store) idx chunks
    /\ NoDup idx
    /\ Forall (fun i => (i < length (vectors scenario_store))%nat) idx
    /\ Z.of_nat (length chunks)
       = Z.max (Z.of_nat (length (vectors scenario_store)) + -1) 0
    /\ descending scores idx
    /\ dominant scores idx.
Proof.
  intros w.
  apply (@query_negative_k numpy_reference () constant_provider
           (str "where") (-1) w [1; 0]%float ()).
  - lia.
  - reflexivity.
  - repeat constructor.
  - simpl. lia.
Defined.

(** [query] has no handler: an error of the provider on the query text is
    raised unchanged, and a stored vector whose length differs from the
    length of the query vector makes it raise [ValueError]. Either way
    neither the store nor the disk has changed. *)
Theorem query_raises `{Numpy} {P : Type} `{BaseEmbeddings P}
    (q : pystr) (k : Z) (w : world P) :
  (forall e p1,
     get_embedding q (provider w) = (Raise e, p1) ->
     query q k w = (Raise e, World (self w) p1 (calls w ++ [q]) (disk w)))
  /\ (forall query_vector p1,
        get_embedding q (provider w) = (Ok query_vector, p1) ->
        Exists (fun v => length v ≠ length query_vector) (vectors (self w)) ->
        query q k w =
          (Raise ValueError, World (self w) p1 (calls w ++ [q]) (disk w))).
Proof.
  split.
  - intros e p1 Hraise. unfold query, call_embedding. run_M.
    rewrite Hraise. by run_M.
  - intros qv p1 Hqv Hbad. unfold query, call_embedding. run_M.
    rewrite Hqv. run_M.
    change (get_similarity qv) with (cosine_similarity qv).
    by rewrite (similarities_not_aligned qv _ Hbad).
Qed.

Lemma query_raises_witness :
  @query numpy_reference nat (quota_provider 0) (str "where") 2
    (World scenario_store 0%nat [] ∅)
  = (Raise (ProviderError 429), World scenario_store 1%nat [str "where"] ∅)
  /\ @query numpy_reference () constant_provider (str "where") 2
       (World (Store [str "east"; str "up"] [[1; 0]; [0; 0; 1]]%float) () [] ∅)
     = (Raise ValueError,
        World (Store [str "east"; str "up"] [[1; 0]; [0; 0; 1]]%float) ()
          [str "where"] ∅).
Proof.
  split.
  - apply (proj1 (@query_raises numpy_reference nat (quota_provider 0)
                    (str "where") 2 (World scenario_store 0%nat [] ∅))).
    reflexivity.
  - apply (proj2 (@query_raises numpy_reference () constant_provider
                    (str "where") 2
                    (World (Store [str "east"; str "up"]
                              [[1; 0]; [0; 0; 1]]%float) () [] ∅))
             [1; 0]%float ()).
    + reflexivity.
    + apply Exists_cons_tl, Exists_cons_hd. simpl. lia.
Defined.

(** When the store holds more vectors than chunks and [k] selects every
    position ([k = 0], or [k] at least the number of vectors), [query]
    raises [IndexError]: some selected position has no chunk. *)
Theorem query_more_vectors_than_chunks `{Numpy} {P : Type}
    `{BaseEmbeddings P}
    (q : pystr) (k : Z) (w : world P) (query_vector : vector) (p1 : P) :
  (length (document (self w)) < length (vectors (self w)))%nat ->
  k = 0 \/ Z.of_nat (length (vectors (self w))) <= k ->
  get_embedding q (provider w) = (Ok query_vector, p1) ->
  Forall (fun v => length v = length query_vector) (vectors (self w)) ->
  query q k w = (Raise IndexError, World (self w) p1 (calls w ++ [q]) (disk w)).
Proof.
  intros Hmore Hk Hqv Hdim.
  destruct (similarities_ok query_vector _ Hdim) as (scores & Hscores & Hsim).
  pose proof (Forall2_length _ _ _ Hsim) as Hn.
  unfold query, call_embedding. run_M. rewrite Hqv. run_M.
  change (get_similarity query_vector) with (cosine_similarity query_vector).
  rewrite Hscores. fold (selection scores k).
  rewrite np_take_out_of_range; [done|].
  assert (selection scores k ≡ₚ seq 0 (length scores)) as Hall.
  { rewrite selection_tail.
    replace (Z.to_nat (slice_bound _ (- k))) with 0%nat.
    - rewrite drop_0, reverse_Permutation. apply np_argsort_perm.
    - rewrite np_argsort_length. unfold slice_bound.
      destruct (- k <? 0) eqn:Hneg; lia. }
  apply Exists_exists. exists (length (document (self w))).
  split; [|lia]. rewrite Hall. apply elem_of_seq. lia.
Qed.

Lemma query_more_vectors_than_chunks_witness :
  @query numpy_reference () constant_provider (str "where") 0
    (World (Store [str "east"] [[1; 0]; [0; 1]]%float) () [] ∅)
  = (Raise IndexError,
     World (Store [str "east"] [[1; 0]; [0; 1]]%float) () [str "where"] ∅).
Proof.
  apply (@query_more_vectors_than_chunks numpy_reference () constant_provider
           (str "where") 0
           (World (Store [str "east"] [[1; 0]; [0; 1]]%float) () [] ∅)
           [1; 0]%float ()).
  - simpl. lia.
  - by left.
  - reflexivity.
  - repeat constructor.
Defined.

(** ** [persist] and [load_vector]: the edges *)

(** A file that is not there cannot be opened. *)
Lemma open_read_missing (d : filesystem) (file : pystr) :
  os_stat d file = Raise FileNotFoundError ->
  open_read d file = Raise FileNotFoundError.
Proof.
  unfold os_stat, open_read.
  destruct (resolve d file) as [place|e]; cbn [result_bind];
    [|by intros [= ->]].
  by destruct (node_at d place).
Qed.

(** [load_vector] reads [vectors.json] first. When that file cannot be
    opened (it or its directory is missing: [FileNotFoundError]) the error
    is raised and nothing has changed. When [vectors.json] is read and
    [document.json] cannot be opened (it is missing: [FileNotFoundError])
    the error is raised as well, but the vectors of the store have already
    been replaced and its chunks have not: the load is not undone. *)
Theorem load_vector_missing_file {P : Type} (path : pystr) (w : world P) :
  (forall e,
     open_read (disk w) (path ++ str "/" ++ vectors_json) = Raise e ->
     load_vector path w = (Raise e, w))
  /\ (os_stat (disk w) (path ++ str "/" ++ vectors_json)
      = Raise FileNotFoundError ->
      load_vector path w = (Raise FileNotFoundError, w))
  /\ (forall jv vecs e,
        open_read (disk w) (path ++ str "/" ++ vectors_json) = Ok (Json jv) ->
        load_vectors jv = Some vecs ->
        open_read (disk w) (path ++ str "/" ++ document_json) = Raise e ->
        load_vector path w =
          (Raise e,
           World (Store (document (self w)) vecs) (provider w) (calls w)
             (disk w)))
  /\ (forall jv vecs,
        open_read (disk w) (path ++ str "/" ++ vectors_json) = Ok (Json jv) ->
        load_vectors jv = Some vecs ->
        os_stat (disk w) (path ++ str "/" ++ document_json)
        = Raise FileNotFoundError ->
        load_vector path w =
          (Raise FileNotFoundError,
           World (Store (document (self w)) vecs) (provider w) (calls w)
             (disk w))).
Proof.
  assert (forall e,
            open_read (disk w) (path ++ str "/" ++ vectors_json) = Raise e ->
            load_vector path w = (Raise e, w)) as Hfirst.
  { intros e Hraise. unfold load_vector, read_file. run_M.
    rewrite Hraise. by destruct w. }
  assert (forall jv vecs e,
            open_read (disk w) (path ++ str "/" ++ vectors_json)
            = Ok (Json jv) ->
            load_vectors jv = Some vecs ->
            open_read (disk w) (path ++ str "/" ++ document_json)
            = Raise e ->
            load_vector path w =
              (Raise e,
               World (Store (document (self w)) vecs) (provider w) (calls w)
                 (disk w))) as Hsecond.
  { intros jv vecs e Hjv Hvecs Hraise. unfold load_vector, read_file. run_M.
    rewrite Hjv. cbn [json_load]. rewrite Hvecs. run_M. by rewrite Hraise. }
  split; [exact Hfirst|]. split; [|split; [exact Hsecond|]].
  - intros Hmissing. by apply Hfirst, open_read_missing.
  - intros jv vecs Hjv Hvecs Hmissing.
    by apply (Hsecond jv vecs), open_read_missing.
Qed.

(** A store left by an earlier run, and a disk with a directory that holds
    a [vectors.json] and no [document.json]. *)
Definition earlier_store : VectorStore := Store [str "old"] [[1; 0]]%float.

Definition half_written : filesystem :=
  Disk []
    (<[ [str "storage"] := Folder ]>
       (<[ [str "storage"; vectors_json] :=
             File (Json (dump_vectors [[0; 1]]%float)) ]> ∅)).

Lemma load_vector_missing_file_witness :
  load_vector (str "storage") (World earlier_store () [] ∅)
  = (Raise FileNotFoundError, World earlier_store () [] ∅)
  /\ load_vector (str "storage") (World earlier_store () [] half_written)
     = (Raise FileNotFoundError,
        World (Store [str "old"] [[0; 1]]%float) () [] half_written).
Proof.
  split.
  - apply (proj1 (proj2 (load_vector_missing_file (str "storage")
                           (World earlier_store () [] ∅)))).
    by vm_compute.
  - apply (proj2 (proj2 (proj2 (load_vector_missing_file (str "storage")
                                  (World earlier_store () [] half_written))))
             (dump_vectors [[0; 1]]%float) [[0; 1]]%float).
    + by vm_compute.
    + reflexivity.
    + by vm_compute.
Defined.

Lemma persisted_twice (s : VectorStore) (place : list pystr)
    (old : gmap (list pystr) node) :
  persisted s place (persisted s place old) = persisted s place old.
Proof.
  unfold persisted. destruct (vectors s) as [|v vs].
  - apply insert_insert_eq.
  - rewrite (insert_insert_ne _ (place ++ [document_json])
               (place ++ [vectors_json]))
      by (intros [_ ?]%app_inj_tail; by apply artifact_names_differ).
    by rewrite !insert_insert_eq.
Qed.

(** What writing a file of a directory comes to: the file cannot be opened
    and nothing has changed, or it holds what was written. *)
Lemma write_text_cases (d : filesystem) (path name : pystr)
    (body : content * result unit) :
  file_name name -> path ≠ [] ->
  (exists e, write_text (path ++ str "/" ++ name) body d = (Raise e, d))
  \/ (exists place,
        folder_at d path place
        /\ node_at d (place ++ [name]) ≠ Some Folder
        /\ write_text (path ++ str "/" ++ name) body d
           = (snd body,
              Disk (cwd d) (<[place ++ [name] := File (fst body)]> (nodes d)))).
Proof.
  intros Hname Hpath. unfold write_text.
  rewrite open_write_file by done.
  destruct (resolve d path) as [place|e] eqn:Hplace; cbn [result_bind];
    [|left; by eexists].
  destruct (node_at d place) as [[|c]|] eqn:Hfolder; [|left; by eexists..].
  destruct (node_at d (place ++ [name])) as [[|c]|] eqn:Hnode;
    [left; by eexists|right..]; exists place; by rewrite Hnode.
Qed.

(** A file written again with what it holds. *)
Lemma write_text_again (d : filesystem) (path name : pystr)
    (place : list pystr) (body : content * result unit) :
  file_name name -> path ≠ [] ->
  folder_at d path place ->
  node_at d (place ++ [name]) ≠ Some Folder ->
  write_text (path ++ str "/" ++ name) body
    (Disk (cwd d) (<[place ++ [name] := File (fst body)]> (nodes d)))
  = (snd body,
     Disk (cwd d) (<[place ++ [name] := File (fst body)]> (nodes d))).
Proof.
  intros Hname Hpath Hat Hnode.
  rewrite (write_text_run _ path name place); [|done|done|..].
  - cbn [cwd nodes]. by rewrite insert_insert_eq.
  - eapply folder_at_kept; [|done]. by apply write_folders_kept.
  - rewrite node_at_app. cbn [nodes]. by rewrite lookup_insert_eq.
Qed.

Lemma persist_disk_twice (s : VectorStore) (path : pystr) (d : filesystem) :
  os_path_exists d path = true \/ fst (persist_disk s path d) = Ok () ->
  persist_disk s path (snd (persist_disk s path d)) = persist_disk s path d.
Proof.
  intros Hcase.
  destruct (persist_disk s path d) as [[[]|e] d'] eqn:Hrun; cbn [snd].
  - (* the call returned *)
    destruct (persist_disk_returns _ _ _ _ Hrun)
      as (d1 & place & Hdir & Hpath & Hat & Hdoc & Henc & Hvec & ->).
    pose proof (persisted_folders_kept s place d1 Hdoc Hvec) as Hkept.
    rewrite (persist_disk_run s path _ _ place
               (exists_kept _ _ _ _ Hat Hkept) Hpath).
    + cbn [cwd nodes]. by rewrite persisted_twice.
    + by eapply folder_at_kept.
    + rewrite node_at_app. cbn [nodes]. by rewrite persisted_document.
    + done.
    + intros Hvecs. rewrite node_at_app. cbn [nodes].
      rewrite persisted_vectors. by destruct (vectors s).
  - (* the call raised, in a directory that was there *)
    destruct Hcase as [Hexists|Hok]; [|done].
    assert (path ≠ []) as Hpath by (by intros ->).
    revert Hrun. unfold persist_disk at 1, after_directory at 1.
    rewrite Hexists.
    destruct (write_text_cases d path document_json
                (json_dump_document (document s))
                document_json_file_name Hpath)
      as [[e' Hraise]|(place & Hat & Hdoc & Hwrite)].
    { rewrite Hraise. intros [= <- <-]. unfold persist_disk, after_directory.
      by rewrite Hexists, Hraise. }
    rewrite Hwrite.
    pose proof (write_folders_kept d place document_json
                  (fst (json_dump_document (document s))) Hdoc) as Hkept.
    destruct (snd (json_dump_document (document s))) as [[]|e'] eqn:Hbody.
    + destruct (vectors s) as [|v vs] eqn:Hvecs; [done|].
      destruct (write_text_cases
                  (Disk (cwd d)
                     (<[place ++ [document_json] :=
                          File (fst (json_dump_document (document s)))]>
                        (nodes d)))
                  path vectors_json (json_dump_vectors (v :: vs))
                  vectors_json_file_name Hpath)
        as [[e' Hraise]|(place' & Hat' & Hvec & Hwrite')].
      * rewrite Hraise. intros [= <- <-].
        unfold persist_disk. rewrite (exists_kept _ _ _ _ Hat Hkept).
        rewrite write_text_again, Hbody, Hvecs by
          (done || apply document_json_file_name).
        by rewrite Hraise.
      * by rewrite Hwrite'.
    + intros [= <- <-].
      unfold persist_disk. rewrite (exists_kept _ _ _ _ Hat Hkept).
      by rewrite write_text_again, Hbody by
        (done || apply document_json_file_name).
Qed.

(** [persist] called again right away gives what the first call gave,
    result and disk, whenever the first call returned or found the
    directory in place (and then also when it raised): nothing is written
    that was not written before. *)
Theorem persist_idempotent {P : Type} (path : pystr) (w : world P) :
  os_path_exists (disk w) path = true \/ fst (persist path w) = Ok () ->
  persist path (snd (persist path w)) = persist path w.
Proof.
  intros Hcase. rewrite (persist_run path w) in *. cbn [fst snd] in *.
  rewrite persist_run. cbn [self provider calls disk].
  by rewrite persist_disk_twice.
Qed.

Lemma persist_idempotent_witness :
  let w := World (Store [str "a"; [97; 55296]%N] [[1; 0]; [0; 1]]%float) ()
             [] half_written in
  persist (str "storage") (snd (persist (str "storage") w))
  = persist (str "storage") w.
Proof.
  intros w. apply (persist_idempotent (str "storage") w).
  left. by vm_compute.
Defined.

(** The first call does not return and the second does: [persist] with the
    path [a/..] makes [a], raises [FileExistsError] for [a/..], and finds
    the directory the next time. *)
Lemma persist_again_after_makedirs_raised :
  let w := World (Store [str "a"] [[1; 0]]%float) () [] ∅ in
  fst (persist (str "a/..") w) = Raise FileExistsError
  /\ fst (persist (str "a/..") (snd (persist (str "a/..") w))) = Ok ().
Proof. intros w. split; by vm_compute. Qed.




(** [persist] has no handler. With the empty path nothing can be made:
    [FileNotFoundError], and the disk is as it was. With a path that
    stands for a file, no file can be opened below it:
    [NotADirectoryError], and the disk is as it was. In a directory that
    is there, a chunk that cannot be encoded in UTF-8 (it holds a
    surrogate) ends the call with [UnicodeEncodeError] after
    [document.json] has been emptied and the chunks before that one written
    to it: the file is left cut off, [vectors.json] is not written, and
    [load_vector] on the same path then raises instead of returning the
    older state. *)
Theorem persist_raises {P : Type} (path : pystr) (w : world P) :
  (path = [] -> persist path w = (Raise FileNotFoundError, w))
  /\ (forall holds : content,
        os_stat (disk w) path = Ok (File holds) ->
        persist path w = (Raise NotADirectoryError, w))
  /\ (forall place : list pystr,
        path ≠ [] ->
        folder_at (disk w) path place ->
        node_at (disk w) (place ++ [document_json]) ≠ Some Folder ->
        forallb encodable (document (self w)) = false ->
        persist path w =
          (Raise UnicodeEncodeError,
           World (self w) (provider w) (calls w)
             (Disk (cwd (disk w))
                (<[place ++ [document_json] :=
                     File (Cut (encodable_prefix (document (self w))))]>
                   (nodes (disk w)))))
        /\ fst (load_vector path (snd (persist path w))) ≠ Ok ()).
Proof.
  split; [|split].
  - intros ->. rewrite persist_run. unfold persist_disk.
    rewrite after_directory_empty_path. by destruct w.
  - intros holds Hstat.
    assert (path ≠ []) as Hpath by (by intros ->).
    rewrite persist_run.
    unfold persist_disk, after_directory, os_path_exists, write_text.
    rewrite Hstat, open_write_file
      by (done || apply document_json_file_name).
    revert Hstat. unfold os_stat.
    destruct (resolve (disk w) path) as [place|e]; cbn [result_bind];
      [|done].
    destruct (node_at (disk w) place) as [[|c]|]; [done| |done].
    intros _. by destruct w.
  - intros place Hpath Hat Hdoc Henc.
    assert (persist path w =
              (Raise UnicodeEncodeError,
               World (self w) (provider w) (calls w)
                 (Disk (cwd (disk w))
                    (<[place ++ [document_json] :=
                         File (Cut (encodable_prefix (document (self w))))]>
                       (nodes (disk w)))))) as Hrun.
    { rewrite persist_run. unfold persist_disk.
      rewrite (exists_kept _ _ _ _ Hat (folders_kept_refl _)).
      rewrite (write_text_run _ path document_json place)
        by (done || apply document_json_file_name).
      unfold json_dump_document. by rewrite Henc. }
    split; [exact Hrun|]. rewrite Hrun. cbn [snd].
    unfold load_vector, read_file. run_M. cbn [disk].
    assert (folder_at
              (Disk (cwd (disk w))
                 (<[place ++ [document_json] :=
                      File (Cut (encodable_prefix (document (self w))))]>
                    (nodes (disk w)))) path place) as Hat'.
    { eapply folder_at_kept; [|done]. by apply write_folders_kept. }
    rewrite (open_read_at _ path vectors_json place)
      by (done || apply vectors_json_file_name).
    destruct (_ !! (place ++ [vectors_json])) as [[|[jv|cut]]|];
      cbn [json_load]; try done.
    destruct (load_vectors jv); [|done]. cbn [disk].
    rewrite (open_read_at _ path document_json place)
      by (done || apply document_json_file_name).
    cbn [nodes]. by rewrite lookup_insert_eq.
Qed.

(** A disk on which [storage] is a file. *)
Definition storage_file : filesystem :=
  Disk [] (<[ [str "storage"] := File (Json (JArr [])) ]> ∅).

Lemma persist_raises_witness :
  persist [] (World (Store [str "a"] [[1; 0]]%float) () [] half_written)
  = (Raise FileNotFoundError,
     World (Store [str "a"] [[1; 0]]%float) () [] half_written)
  /\ persist (str "storage")
       (World (Store [str "a"] [[1; 0]]%float) () [] storage_file)
     = (Raise NotADirectoryError,
        World (Store [str "a"] [[1; 0]]%float) () [] storage_file)
  /\ (persist (str "storage")
        (World (Store [str "a"; [97; 55296]%N; str "c"] [[1; 0]]%float) ()
           [] half_written)
      = (Raise UnicodeEncodeError,
         World (Store [str "a"; [97; 55296]%N; str "c"] [[1; 0]]%float) ()
           []
           (Disk []
              (<[ [str "storage"] ++ [document_json] :=
                    File (Cut (encodable_prefix
                                 [str "a"; [97; 55296]%N; str "c"])) ]>
                 (nodes half_written))))
      /\ fst (load_vector (str "storage")
                (snd (persist (str "storage")
                        (World (Store [str "a"; [97; 55296]%N; str "c"]
                                  [[1; 0]]%float) () [] half_written))))
         ≠ Ok ()).
Proof.
  split; [|split].
  - by apply (proj1 (persist_raises []
                       (World (Store [str "a"] [[1; 0]]%float) () []
                          half_written))).
  - apply (proj1 (proj2 (persist_raises (str "storage")
                           (World (Store [str "a"] [[1; 0]]%float) () []
                              storage_file)))
             (Json (JArr []))).
    by vm_compute.
  - apply (proj2 (proj2 (persist_raises (str "storage")
                           (World (Store [str "a"; [97; 55296]%N; str "c"]
                                     [[1; 0]]%float) () [] half_written)))
             [str "storage"]).
    + discriminate.
    + split; by vm_compute.
    + by vm_compute.
    + by vm_compute.
Defined.

(** ** [get_vector]: called again *)

(** [get_vector] does not start from an empty list: called twice with a
    provider that answers every time, it asks for every chunk twice and
    leaves the vectors held before followed by two batches, one vector per
    chunk each. *)
Theorem get_vector_twice {P : Type} `{BaseEmbeddings P} (w : world P)
    (first second : list vector) (p1 p2 : P) :
  provides (provider w) (document (self w)) first p1 ->
  provides p1 (document (self w)) second p2 ->
  (get_vector ≫= fun _ => get_vector) w =
    (Ok (vectors (self w) ++ first ++ second),
     World (Store (document (self w)) (vectors (self w) ++ first ++ second))
       p2 (calls w ++ document (self w) ++ document (self w)) (disk w))
  /\ length (vectors (self w) ++ first ++ second)
     = (length (vectors (self w)) + 2 * length (document (self w)))%nat.
Proof.
  intros Hfirst Hsecond. split.
  - run_M. rewrite (get_vector_ok w first p1 Hfirst).
    rewrite (get_vector_ok _ second p2); [|exact Hsecond].
    cbn [self provider calls disk document vectors].
    by rewrite <- !app_assoc.
  - rewrite !length_app, (provides_length _ _ _ _ Hfirst),
      (provides_length _ _ _ _ Hsecond). lia.
Qed.

Lemma get_vector_twice_witness :
  let docs := [str "a"; str "b"] in
  (@get_vector nat (quota_provider 9) ≫= fun _ => @get_vector nat (quota_provider 9))
    (World (new_store docs) 0%nat [] ∅)
  = (Ok [[1; 0]; [1; 0]; [1; 0]; [1; 0]]%float,
     World (Store docs [[1; 0]; [1; 0]; [1; 0]; [1; 0]]%float) 4%nat
       (docs ++ docs) ∅)
  /\ length ([] ++ [[1; 0]; [1; 0]] ++ [[1; 0]; [1; 0]])%float
     = (0 + 2 * length docs)%nat.
Proof.
  intros docs.
  apply (@get_vector_twice nat (quota_provider 9)
           (World (new_store docs) 0%nat [] ∅)
           [[1; 0]; [1; 0]]%float [[1; 0]; [1; 0]]%float 2%nat 4%nat);
    repeat econstructor.
Defined.

(** * Reading the documents: [ReadFiles] *)

(** ** The model *)

(** [os.path.join(a, b)] on a POSIX system: an absolute [b] replaces [a];
    otherwise [b] follows [a], after a ['/'] unless [a] is empty or ends in
    one. *)
Definition path_join (a b : pystr) : pystr :=
  if startswith b (str "/") then b
  else if bool_decide (a = []) || endswith a (str "/") then a ++ b
  else a ++ str "/" ++ b.

(** What [os.walk] yields for a directory: [(filepath, dirnames,
    filenames)]. The walk itself is the operating system's. *)
Definition walked := (pystr * list pystr * list pystr)%type.

(** The inner loop of [get_files]: the file names of one directory. *)
Definition collect_files (filepath : pystr) (file_list : list pystr)
    (filenames : list pystr) : list pystr :=
  foldl (fun file_list filename =>
           if endswith filename (str ".md")
           then file_list ++ [path_join filepath filename]
           else if endswith filename (str ".txt")
           then file_list ++ [path_join filepath filename]
           else if endswith filename (str ".pdf")
           then file_list ++ [path_join filepath filename]
           else file_list)
    file_list filenames.

(** [ReadFiles.get_files], on what [os.walk(self._path)] yields. *)
Definition get_files (walk : list walked) : list pystr :=
  foldl (fun file_list '(filepath, dirnames, filenames) =>
           collect_files filepath file_list filenames)
    [] walk.

Record ReadFiles := {
  _path : pystr;
  file_list : list pystr
}.

(** [ReadFiles(path)]; [os_walk] is [os.walk]. *)
Definition new_ReadFiles (os_walk : pystr -> list walked) (path : pystr)
    : ReadFiles :=
  {| _path := path; file_list := get_files (os_walk path) |}.

(** The characters from U+4E00 to U+9FFF, the range of the class in the
    pattern of [read_pdf]. *)
Definition is_cjk (c : N) : bool := ((19968 <=? c) && (c <=? 40959))%N.

Definition BULLET : N := 8226%N.

(** [re.sub(pattern, lambda match: match.group(0).replace('\n', ''), s)]
    for the pattern of [read_pdf]: a character outside U+4E00..U+9FFF, a
    newline, and a character outside U+4E00..U+9FFF. The matches are taken
    from left to right and do not overlap; a match is three characters, of
    which every newline is dropped. *)
Fixpoint join_wrapped (s : pystr) : pystr :=
  match s with
  | x :: tl =>
      match tl with
      | y :: z :: rest =>
          if negb (is_cjk x) && (y =? NL)%N && negb (is_cjk z)
          then filter (fun c => c ≠ NL) [x; y; z] ++ join_wrapped rest
          else x :: join_wrapped tl
      | _ => s
      end
  | [] => []
  end.

(** What [read_pdf] does to the text of one page. *)
Definition clean_page (page_content : pystr) : pystr :=
  remove_spaces (filter (fun c => c ≠ BULLET) (join_wrapped page_content)).

(** [s.replace('\n\n', '\n')]: pairs of newlines are taken from left to
    right and do not overlap. *)
Fixpoint merge_newlines (s : pystr) : pystr :=
  match s with
  | c :: tl =>
      match tl with
      | d :: rest =>
          if (c =? NL)%N && (d =? NL)%N then NL :: merge_newlines rest
          else c :: merge_newlines tl
      | [] => [c]
      end
  | [] => []
  end.

Section Readers.

(** The tokenizer, as for [get_chunk]. *)
Variable enc_encode : pystr -> result (list Z).

(** The libraries that open the files: the page texts
    [PyMuPDFLoader(file_path).load()] and
    [UnstructuredMarkdownLoader(file_path).load()] give, and the text
    [open(file_path).read()] gives. Each can raise. *)
Variable load_pdf : pystr -> result (list pystr).
Variable load_markdown : pystr -> result (list pystr).
Variable open_text : pystr -> result pystr.

Definition read_pdf (file_path : pystr) : result pystr :=
  result_bind (load_pdf file_path) (fun pdf_pages =>
  Ok (foldl (fun text page_content => text ++ clean_page page_content)
        [] pdf_pages)).

Definition read_markdown (file_path : pystr) : result pystr :=
  result_bind (load_markdown file_path) (fun md_pages =>
  Ok (foldl (fun text page_content => text ++ merge_newlines page_content)
        [] md_pages)).

Definition read_text (file_path : pystr) : result pystr :=
  open_text file_path.

Definition read_file_content (file_path : pystr) : result pystr :=
  if endswith file_path (str ".pdf") then read_pdf file_path
  else if endswith file_path (str ".md") then read_markdown file_path
  else if endswith file_path (str ".txt") then read_text file_path
  else Raise ValueError.

(** The loop of [get_content]; the progress lines it prints are left out. *)
Fixpoint extend_docs (max_token_len cover_content : Z) (docs : list pystr)
    (files : list pystr) : result (list pystr) :=
  match files with
  | [] => Ok docs
  | file :: rest =>
      result_bind (read_file_content file) (fun content =>
      result_bind (get_chunk enc_encode content max_token_len cover_content)
        (fun chunk_content =>
      extend_docs max_token_len cover_content (docs ++ chunk_content) rest))
  end.

Definition get_content (reader : ReadFiles) (max_token_len cover_content : Z)
    : result (list pystr) :=
  extend_docs max_token_len cover_content [] (file_list reader).

End Readers.

(** ** Discovery and dispatch *)

Lemma path_join_suffix (a b : pystr) : b `suffix_of` path_join a b.
Proof.
  unfold path_join. destruct (startswith b (str "/")); [done|].
  destruct (_ || _).
  - by apply suffix_app_r.
  - rewrite app_assoc. by apply suffix_app_r.
Qed.

Lemma endswith_path_join (a b ext : pystr) :
  endswith b ext = true -> endswith (path_join a b) ext = true.
Proof.
  rewrite !endswith_suffix. intros Hext.
  etrans; [exact Hext|apply path_join_suffix].
Qed.

(** The file names [get_files] takes. *)
Definition supported (filename : pystr) : bool :=
  endswith filename (str ".md") || endswith filename (str ".txt")
  || endswith filename (str ".pdf").

Lemma collect_files_filter (filepath : pystr) (filenames acc : list pystr) :
  collect_files filepath acc filenames =
    acc ++ map (path_join filepath) (filter (fun f => supported f = true)
                                       filenames).
Proof.
  unfold collect_files. revert acc.
  induction filenames as [|name names IH]; intros acc; simpl.
  - by rewrite app_nil_r.
  - rewrite IH, filter_cons.
    destruct (endswith name (str ".md")) eqn:Hmd.
    { rewrite decide_True by (unfold supported; by rewrite Hmd).
      simpl. by rewrite <- app_assoc. }
    destruct (endswith name (str ".txt")) eqn:Htxt.
    { rewrite decide_True by (unfold supported; by rewrite Hmd, Htxt).
      simpl. by rewrite <- app_assoc. }
    destruct (endswith name (str ".pdf")) eqn:Hpdf.
    { rewrite decide_True by (unfold supported; by rewrite Hmd, Htxt, Hpdf).
      simpl. by rewrite <- app_assoc. }
    by rewrite decide_False by (unfold supported; by rewrite Hmd, Htxt, Hpdf).
Qed.

Lemma get_files_from (walk : list walked) (acc : list pystr) :
  foldl (fun file_list '(filepath, dirnames, filenames) =>
           collect_files filepath file_list filenames) acc walk =
    acc ++ concat (map (fun '(filepath, dirnames, filenames) =>
                          map (path_join filepath)
                            (filter (fun f => supported f = true) filenames))
                     walk).
Proof.
  revert acc. induction walk as [|[[filepath dirnames] filenames] walk IH];
    intros acc; simpl.
  - by rewrite app_nil_r.
  - rewrite IH, collect_files_filter. by rewrite <- app_assoc.
Qed.

Lemma elem_of_concat {A : Type} (x : A) (ls : list (list A)) :
  x ∈ concat ls <-> exists l, x ∈ l /\ l ∈ ls.
Proof.
  induction ls as [|l ls IH]; simpl.
  - split; [by intros ?%not_elem_of_nil|].
    by intros (l & _ & ?%not_elem_of_nil).
  - rewrite elem_of_app, IH. split.
    + intros [Hx|(l' & Hx & Hl)].
      * exists l. split; [done|]. by left.
      * exists l'. split; [done|]. by right.
    + intros (l' & Hx & Hl). apply elem_of_cons in Hl as [->|Hl].
      * by left.
      * right. by exists l'.
Qed.

(** A path is in the list of [get_files] exactly when it is the join of a
    directory of the walk with one of its file names that ends in [.md],
    [.txt] or [.pdf], in lower case; no other file is listed. *)
Theorem get_files_lists_supported (walk : list walked) (file : pystr) :
  file ∈ get_files walk <->
  exists filepath dirnames filenames filename,
    (filepath, dirnames, filenames) ∈ walk
    /\ filename ∈ filenames
    /\ supported filename = true
    /\ file = path_join filepath filename.
Proof.
  unfold get_files. rewrite get_files_from. simpl.
  rewrite elem_of_concat. split.
  - intros (files & Hfile & Hfiles).
    apply list_elem_of_fmap in Hfiles
      as ([[filepath dirnames] filenames] & -> & Hwalk).
    apply list_elem_of_fmap in Hfile as (filename & -> & Hname).
    apply list_elem_of_filter in Hname as [Hsup Hname].
    by exists filepath, dirnames, filenames, filename.
  - intros (filepath & dirnames & filenames & filename
            & Hwalk & Hname & Hsup & ->).
    exists (map (path_join filepath)
              (filter (fun f => supported f = true) filenames)).
    split.
    + apply list_elem_of_fmap. exists filename. split; [done|].
      by apply list_elem_of_filter.
    + apply list_elem_of_fmap. by exists (filepath, dirnames, filenames).
Qed.

Lemma get_files_elem (walk : list walked) (file : pystr) :
  file ∈ get_files walk ->
  exists filepath filename,
    supported filename = true /\ file = path_join filepath filename.
Proof.
  unfold get_files. rewrite get_files_from. simpl.
  intros (files & Hfile & Hfiles)%elem_of_concat.
  apply list_elem_of_fmap in Hfiles
    as ([[filepath dirnames] filenames] & -> & Hwalk).
  apply list_elem_of_fmap in Hfile as (filename & -> & Hname).
  apply list_elem_of_filter in Hname as [Hsup Hname].
  by exists filepath, filename.
Qed.

Section Dispatch.
Variable load_pdf : pystr -> result (list pystr).
Variable load_markdown : pystr -> result (list pystr).
Variable open_text : pystr -> result pystr.

(** The reader [read_file_content] hands a path with a supported name to. *)
Lemma read_file_content_supported (filepath filename : pystr) :
  supported filename = true ->
  let file := path_join filepath filename in
  endswith file (str ".pdf") = true
  /\ read_file_content load_pdf load_markdown open_text file
     = read_pdf load_pdf file
  \/ endswith file (str ".md") = true
     /\ read_file_content load_pdf load_markdown open_text file
        = read_markdown load_markdown file
  \/ endswith file (str ".txt") = true
     /\ read_file_content load_pdf load_markdown open_text file
        = read_text open_text file.
Proof.
  intros Hsup file. unfold read_file_content.
  destruct (endswith file (str ".pdf")) eqn:Hpdf; [by left|].
  destruct (endswith file (str ".md")) eqn:Hmd; [right; by left|].
  destruct (endswith file (str ".txt")) eqn:Htxt; [right; by right|].
  exfalso. unfold supported in Hsup.
  apply orb_true_iff in Hsup as [[Hs|Hs]%orb_true_iff|Hs];
    apply (endswith_path_join filepath) in Hs; fold file in Hs; congruence.
Qed.

End Dispatch.

(** Discovery and dispatch agree: every path [get_files] lists is handed by
    [read_file_content] to the reader of its extension, so the error for an
    unsupported file type is never raised for a listed file, although the
    two functions test the extensions in different orders. *)
Theorem read_file_content_of_listed
    (load_pdf load_markdown : pystr -> result (list pystr))
    (open_text : pystr -> result pystr)
    (walk : list walked) (file : pystr) :
  file ∈ get_files walk ->
  endswith file (str ".pdf") = true
  /\ read_file_content load_pdf load_markdown open_text file
     = read_pdf load_pdf file
  \/ endswith file (str ".md") = true
     /\ read_file_content load_pdf load_markdown open_text file
        = read_markdown load_markdown file
  \/ endswith file (str ".txt") = true
     /\ read_file_content load_pdf load_markdown open_text file
        = read_text open_text file.
Proof.
  intros (filepath & filename & Hsup & ->)%get_files_elem.
  by apply read_file_content_supported.
Qed.

(** A walk of the demo's [./data] directory. *)
Definition data_walk : list walked :=
  [(str "./data", [str "img"],
    [str "Guidelines.md"; str "pumpkin_book.pdf"; str "notes.TXT"]);
   (str "./data/img", [], [str "cover.png"; str "readme.txt"])].

Lemma read_file_content_of_listed_witness :
  let load := fun _ : pystr => Ok [str "page"] in
  let file := str "./data/pumpkin_book.pdf" in
  endswith file (str ".pdf") = true
  /\ read_file_content load load Ok file = read_pdf load file
  \/ endswith file (str ".md") = true
     /\ read_file_content load load Ok file = read_markdown load file
  \/ endswith file (str ".txt") = true
     /\ read_file_content load load Ok file = read_text Ok file.
Proof.
  intros load file.
  apply (read_file_content_of_listed load load Ok data_walk file).
  apply (bool_decide_unpack _). by vm_compute.
Defined.

(** ** Cleaning the pages *)

(** Induction for the functions that take several characters at a step. *)
Lemma pystr_length_ind (P : pystr -> Prop) :
  (forall s, (forall t, (length t < length s)%nat -> P t) -> P s) ->
  forall s, P s.
Proof.
  intros Hstep s. remember (length s) as n eqn:Hn. revert s Hn.
  induction n as [n IH] using lt_wf_ind. intros s ->.
  apply Hstep. intros t Hlt. by apply (IH (length t)).
Qed.

Lemma join_wrapped_step (x y z : N) (rest : pystr) :
  join_wrapped (x :: y :: z :: rest) =
    if negb (is_cjk x) && (y =? NL)%N && negb (is_cjk z)
    then filter (fun c => c ≠ NL) [x; y; z] ++ join_wrapped rest
    else x :: join_wrapped (y :: z :: rest).
Proof. done. Qed.

(** The characters [read_pdf] never removes: all but the newline, the space
    and the bullet. *)
Definition content_char (c : N) : Prop := c ≠ NL /\ c ≠ SPACE /\ c ≠ BULLET.

#[local] Instance content_char_dec (c : N) : Decision (content_char c).
Proof. unfold content_char. apply _. Defined.

Lemma join_wrapped_content (s : pystr) :
  filter content_char (join_wrapped s) = filter content_char s.
Proof.
  induction s as [s IH] using pystr_length_ind.
  destruct s as [|x [|y [|z rest]]]; [done..|].
  rewrite join_wrapped_step.
  destruct (negb (is_cjk x) && (y =? NL)%N && negb (is_cjk z)).
  - unfold pystr. rewrite filter_app, IH by (simpl; lia).
    rewrite list_filter_filter_l by (by intros c [? _]).
    symmetry. apply (filter_app content_char [x; y; z] rest).
  - unfold pystr. rewrite !(filter_cons _ x), IH by (simpl; lia). done.
Qed.

Lemma clean_page_content (page_content : pystr) :
  filter content_char (clean_page page_content)
  = filter content_char page_content.
Proof.
  unfold clean_page, remove_spaces, pystr.
  rewrite list_filter_filter_l by (by intros c (_ & ? & _)).
  rewrite list_filter_filter_l by (by intros c (_ & _ & ?)).
  apply join_wrapped_content.
Qed.

Lemma clean_page_clean (page_content : pystr) :
  (SPACE ∉ clean_page page_content) /\ (BULLET ∉ clean_page page_content).
Proof.
  unfold clean_page, remove_spaces. rewrite !list_elem_of_filter.
  split; [by intros [? _]|by intros (_ & ? & _)].
Qed.

Lemma read_pages_from (clean : pystr -> pystr) (pages : list pystr)
    (text : pystr) :
  foldl (fun text page_content => text ++ clean page_content) text pages
  = text ++ concat (map clean pages).
Proof.
  revert text. induction pages as [|page pages IH]; intros text; simpl.
  - by rewrite app_nil_r.
  - by rewrite IH, app_assoc.
Qed.

(** [read_pdf] takes out of the pages every space and every bullet, and
    besides these only newlines: every other character of the pages is in
    the text, in the order of the pages. *)
Theorem read_pdf_drops_layout_only
    (load_pdf : pystr -> result (list pystr))
    (file_path : pystr) (pdf_pages : list pystr) :
  load_pdf file_path = Ok pdf_pages ->
  exists text,
    read_pdf load_pdf file_path = Ok text
    /\ (SPACE ∉ text) /\ (BULLET ∉ text)
    /\ filter content_char text = filter content_char (concat pdf_pages).
Proof.
  intros Hload. unfold read_pdf. rewrite Hload. simpl.
  eexists. split; [done|]. rewrite read_pages_from. simpl. clear Hload.
  induction pdf_pages as [|page pages IH]; simpl.
  - split; [apply not_elem_of_nil|]. split; [apply not_elem_of_nil|done].
  - destruct IH as (Hspace & Hbullet & Hcontent).
    destruct (clean_page_clean page) as [Hs Hb].
    unfold pystr in *.
    rewrite !elem_of_app, !filter_app, clean_page_content, Hcontent.
    split; [by intros [?|?]|]. split; [by intros [?|?]|done].
Qed.

Lemma read_pdf_drops_layout_only_witness :
  let load := fun _ : pystr =>
    Ok [str "RAG is" ++ [NL] ++ str "retrieval"; [BULLET] ++ str " a b"] in
  exists text,
    read_pdf load (str "book.pdf") = Ok text
    /\ (SPACE ∉ text) /\ (BULLET ∉ text)
    /\ filter content_char text
       = filter content_char
           (concat [str "RAG is" ++ [NL] ++ str "retrieval";
                    [BULLET] ++ str " a b"]).
Proof.
  intros load.
  apply (read_pdf_drops_layout_only load (str "book.pdf")
           [str "RAG is" ++ [NL] ++ str "retrieval"; [BULLET] ++ str " a b"]).
  reflexivity.
Defined.

(** A newline between two characters outside U+4E00..U+9FFF. *)
Definition wrapped_at (s : pystr) (i : nat) : Prop :=
  exists x z,
    s !! i = Some x /\ s !! S i = Some NL /\ s !! S (S i) = Some z
    /\ is_cjk x = false /\ is_cjk z = false.

Lemma join_wrapped_length (s : pystr) :
  (length (join_wrapped s) <= length s)%nat.
Proof.
  induction s as [s IH] using pystr_length_ind.
  destruct s as [|x [|y [|z rest]]]; [done..|].
  rewrite join_wrapped_step.
  destruct (negb (is_cjk x) && (y =? NL)%N && negb (is_cjk z)).
  - rewrite length_app.
    pose proof (length_filter (fun c => c ≠ NL) [x; y; z]) as Hthree.
    pose proof (IH rest) as Hrest. simpl in *. lia.
  - pose proof (IH (y :: z :: rest)) as Hrest. simpl in *. lia.
Qed.

Lemma join_wrapped_shorter (s : pystr) (i : nat) :
  wrapped_at s i -> (length (join_wrapped s) < length s)%nat.
Proof.
  revert i. induction s as [s IH] using pystr_length_ind.
  intros i (x0 & z0 & Hx & Hy & Hz & Hcx & Hcz).
  destruct s as [|x [|y [|z rest]]];
    [done|by destruct i|by destruct i as [|[|i]]|].
  rewrite join_wrapped_step.
  destruct (negb (is_cjk x) && (y =? NL)%N && negb (is_cjk z)) eqn:Hmatch.
  - apply andb_true_iff in Hmatch as [[_ Hnl%N.eqb_eq]%andb_true_iff _].
    subst y. rewrite length_app.
    pose proof (length_filter_lt (fun c => c ≠ NL) [x; NL; z] NL) as Hthree.
    pose proof (join_wrapped_length rest) as Hrest.
    simpl in *. cut (length (filter (fun c => c ≠ NL) [x; NL; z]) < 3)%nat.
    { lia. }
    apply Hthree; [set_solver|by intros ?].
  - destruct i as [|i].
    + simpl in Hx, Hy, Hz. injection Hx as <-. injection Hy as ->.
      injection Hz as <-. by rewrite Hcx, Hcz in Hmatch.
    + assert (length (join_wrapped (y :: z :: rest))
              < length (y :: z :: rest))%nat as Hlt.
      { apply (IH (y :: z :: rest)) with (i := i); [simpl; lia|].
        by exists x0, z0. }
      simpl in *. lia.
Qed.

(** The joining step of [read_pdf] changes a page exactly when the page has
    a newline between two characters outside U+4E00..U+9FFF; a page of
    which every newline has a character of that range before or after it
    is left as it is. *)
Theorem join_wrapped_unchanged (s : pystr) :
  join_wrapped s = s <-> forall i, ~ wrapped_at s i.
Proof.
  split.
  - intros Hsame i Hwrapped. apply join_wrapped_shorter in Hwrapped.
    rewrite Hsame in Hwrapped. lia.
  - induction s as [|x tl IH]; [done|]. intros Hnone.
    destruct tl as [|y [|z rest]]; [done..|].
    rewrite join_wrapped_step.
    destruct (negb (is_cjk x) && (y =? NL)%N && negb (is_cjk z)) eqn:Hmatch.
    + exfalso. apply (Hnone 0%nat).
      apply andb_true_iff in Hmatch as [[Hx Hnl%N.eqb_eq]%andb_true_iff Hz].
      subst y. exists x, z. simpl.
      by rewrite <- (negb_involutive (is_cjk x)),
                 <- (negb_involutive (is_cjk z)), Hx, Hz.
    + f_equal. apply IH. intros i (x0 & z0 & Hw). apply (Hnone (S i)).
      by exists x0, z0.
Qed.

Lemma merge_newlines_app (before rest : pystr) :
  last before ≠ Some NL ->
  merge_newlines (before ++ rest)
  = merge_newlines before ++ merge_newlines rest.
Proof.
  induction before as [before IH] using pystr_length_ind. intros Hlast.
  destruct before as [|c [|d before]]; [done|..].
  - simpl in Hlast. destruct rest as [|d rest]; [done|].
    assert ((c =? NL)%N = false) as Hc
      by (apply N.eqb_neq; congruence).
    simpl. by rewrite Hc.
  - change (merge_newlines ((c :: d :: before) ++ rest))
      with (if (c =? NL)%N && (d =? NL)%N
            then NL :: merge_newlines (before ++ rest)
            else c :: merge_newlines ((d :: before) ++ rest)).
    change (merge_newlines (c :: d :: before))
      with (if (c =? NL)%N && (d =? NL)%N
            then NL :: merge_newlines before
            else c :: merge_newlines (d :: before)).
    destruct ((c =? NL)%N && (d =? NL)%N).
    + rewrite IH; [done|simpl; lia|]. by destruct before.
    + rewrite IH; [done|simpl; lia|done].
Qed.

Lemma merge_newlines_replicate (n : nat) (rest : pystr) :
  head rest ≠ Some NL ->
  merge_newlines (replicate n NL ++ rest)
  = replicate (n - n / 2) NL ++ merge_newlines rest.
Proof.
  intros Hhead. induction n as [n IH] using lt_wf_ind.
  destruct n as [|[|n]]; [done|..].
  - destruct rest as [|d rest]; [done|].
    assert ((d =? NL)%N = false) as Hd
      by (apply N.eqb_neq; simpl in Hhead; congruence).
    simpl. by rewrite Hd.
  - change (merge_newlines (replicate (S (S n)) NL ++ rest))
      with (NL :: merge_newlines (replicate n NL ++ rest)).
    rewrite IH by lia.
    replace (S (S n) - S (S n) / 2)%nat with (S (n - n / 2)); [done|].
    pose proof (Nat.div_mod_eq n 2). pose proof (Nat.div_mod_eq (S (S n)) 2).
    pose proof (Nat.mod_upper_bound n 2).
    pose proof (Nat.mod_upper_bound (S (S n)) 2). lia.
Qed.

(** [read_markdown] halves the runs of newlines and no more: where a page
    has [n] newlines in a row, the text has [n - n / 2] of them, so that
    the blank lines of a run of three or more newlines stay. *)
Theorem merge_newlines_halves_run (before rest : pystr) (n : nat) :
  last before ≠ Some NL -> head rest ≠ Some NL ->
  merge_newlines (before ++ replicate n NL ++ rest)
  = merge_newlines before ++ replicate (n - n / 2) NL ++ merge_newlines rest.
Proof.
  intros Hlast Hhead.
  by rewrite merge_newlines_app, merge_newlines_replicate.
Qed.

Lemma merge_newlines_halves_run_witness :
  merge_newlines (str "title" ++ replicate 4 NL ++ str "text")
  = merge_newlines (str "title") ++ replicate 2 NL
    ++ merge_newlines (str "text").
Proof.
  apply (merge_newlines_halves_run (str "title") (str "text") 4); by vm_compute.
Defined.

(** ** Reading a directory: [get_content] *)

Section Content.
Variable enc_encode : pystr -> result (list Z).
Variable load_pdf : pystr -> result (list pystr).
Variable load_markdown : pystr -> result (list pystr).
Variable open_text : pystr -> result pystr.

Lemma extend_docs_returns (T C : Z) (files contents docs : list pystr)
    (chunks : list (list pystr)) :
  Forall2 (fun file content =>
             read_file_content load_pdf load_markdown open_text file
             = Ok content) files contents ->
  Forall2 (fun content chunk_content =>
             get_chunk enc_encode content T C = Ok chunk_content)
    contents chunks ->
  extend_docs enc_encode load_pdf load_markdown open_text T C docs files
  = Ok (docs ++ concat chunks).
Proof.
  intros Hread. revert docs chunks.
  induction Hread as [|file content files contents Hfile _ IH];
    intros docs chunks Hchunks.
  - apply Forall2_nil_inv_l in Hchunks as ->. simpl. by rewrite app_nil_r.
  - apply Forall2_cons_inv_l in Hchunks
      as (chunk_content & chunks' & Hchunk & Hchunks & ->).
    simpl. rewrite Hfile. simpl. rewrite Hchunk. simpl.
    rewrite (IH _ chunks') by done. by rewrite app_assoc.
Qed.

Lemma extend_docs_raises (T C : Z) (files docs : list pystr) (e : exn) :
  C < T -> 0 <= T ->
  extend_docs enc_encode load_pdf load_markdown open_text T C docs files
  = Raise e ->
  exists file,
    file ∈ files
    /\ (read_file_content load_pdf load_markdown open_text file = Raise e
        \/ exists content line,
             read_file_content load_pdf load_markdown open_text file
             = Ok content
             /\ line ∈ splitlines content
             /\ enc_encode (remove_spaces line) = Raise e).
Proof.
  intros HC HT. revert docs.
  induction files as [|file files IH]; intros docs; simpl; [done|].
  destruct (read_file_content load_pdf load_markdown open_text file)
    as [content|e'] eqn:Hfile; simpl.
  - destruct (get_chunk enc_encode content T C) as [chunk_content|e']
      eqn:Hchunk; simpl.
    + intros (file' & Hin & Hraise)%IH.
      exists file'. split; [by right|done].
    + intros [= ->]. exists file. split; [by left|]. right.
      destruct (get_chunk_raise enc_encode content T C e HC HT Hchunk)
        as (line & Hline & Hraise).
      by exists content, line.
  - intros [= ->]. exists file. split; [by left|by left].
Qed.

End Content.

(** When every file of the list is read and cut into chunks, [get_content]
    returns the chunks of the first file, then those of the second, and so
    on: each file is cut on its own, so no chunk holds text of two files,
    and no overlap is carried from one file to the next. *)
Theorem get_content_chunks_per_file
    (enc_encode : pystr -> result (list Z))
    (load_pdf load_markdown : pystr -> result (list pystr))
    (open_text : pystr -> result pystr)
    (reader : ReadFiles) (T C : Z) (contents : list pystr)
    (chunks : list (list pystr)) :
  Forall2 (fun file content =>
             read_file_content load_pdf load_markdown open_text file
             = Ok content) (file_list reader) contents ->
  Forall2 (fun content chunk_content =>
             get_chunk enc_encode content T C = Ok chunk_content)
    contents chunks ->
  get_content enc_encode load_pdf load_markdown open_text reader T C
  = Ok (concat chunks).
Proof.
  intros Hread Hchunks. unfold get_content.
  by rewrite (extend_docs_returns enc_encode load_pdf load_markdown open_text
                T C (file_list reader) contents [] chunks).
Qed.

(** The demo's directory and the libraries that open its files. *)
Definition data_reader : ReadFiles :=
  new_ReadFiles (fun _ => data_walk) (str "./data").

Definition data_pages (file_path : pystr) : result (list pystr) :=
  Ok [str "page one" ++ [NL]; str "page two"].

Definition data_text (file_path : pystr) : result pystr :=
  Ok (str "read me").

Lemma get_content_chunks_per_file_witness :
  get_content strict_tokens data_pages data_pages data_text data_reader
    600 150
  = Ok (concat [[str "pageone" ++ [NL] ++ str "pagetwo" ++ [NL]];
                [str "pageone" ++ [NL] ++ str "pagetwo" ++ [NL]];
                [str "readme" ++ [NL]]]).
Proof.
  apply (get_content_chunks_per_file strict_tokens data_pages data_pages
           data_text data_reader 600 150
           [str "page one" ++ [NL] ++ str "page two";
            str "pageone" ++ [NL] ++ str "pagetwo";
            str "read me"]);
    repeat constructor.
Defined.

(** On the files [get_files] found, with [cover_content < max_token_len]
    and [max_token_len >= 0], whatever [get_content] raises was raised by a
    library that opened one of the listed files, or by the tokenizer on a
    line of a listed file: the error for an unsupported file type, the
    division and the unbound [end] of [get_chunk] cannot come out of it. *)
Theorem get_content_raises_what_a_library_raised
    (enc_encode : pystr -> result (list Z))
    (load_pdf load_markdown : pystr -> result (list pystr))
    (open_text : pystr -> result pystr)
    (os_walk : pystr -> list walked) (path : pystr) (T C : Z) (e : exn) :
  C < T -> 0 <= T ->
  get_content enc_encode load_pdf load_markdown open_text
    (new_ReadFiles os_walk path) T C = Raise e ->
  exists file,
    file ∈ file_list (new_ReadFiles os_walk path)
    /\ (load_pdf file = Raise e \/ load_markdown file = Raise e
        \/ open_text file = Raise e
        \/ exists content line,
             read_file_content load_pdf load_markdown open_text file
             = Ok content
             /\ line ∈ splitlines content
             /\ enc_encode (remove_spaces line) = Raise e).
Proof.
  intros HC HT Hraise. unfold get_content in Hraise.
  apply extend_docs_raises in Hraise as (file & Hin & Hraise); [|done..].
  exists file. split; [done|].
  destruct Hraise as [Hraise|Hraise]; [|by do 3 right].
  simpl in Hin.
  apply get_files_elem in Hin as (filepath & filename & Hsup & ->).
  destruct (read_file_content_supported load_pdf load_markdown open_text
              filepath filename Hsup) as [[_ Heq]|[[_ Heq]|[_ Heq]]];
    rewrite Heq in Hraise.
  - left. unfold read_pdf in Hraise.
    destruct (load_pdf (path_join filepath filename)); [done|].
    simpl in Hraise. congruence.
  - right; left. unfold read_markdown in Hraise.
    destruct (load_markdown (path_join filepath filename)); [done|].
    simpl in Hraise. congruence.
  - right; right; left. done.
Qed.

(** A PDF library that cannot open the book, and a text file that holds a
    special token. *)
Definition broken_pdf (file_path : pystr) : result (list pystr) :=
  Raise FileNotFoundError.

Definition special_text (file_path : pystr) : result pystr :=
  Ok (str "see <|endoftext|>").

Lemma get_content_raises_what_a_library_raised_witness :
  (exists file,
     file ∈ file_list data_reader
     /\ (broken_pdf file = Raise FileNotFoundError
         \/ data_pages file = Raise FileNotFoundError
         \/ data_text file = Raise FileNotFoundError
         \/ exists content line,
              read_file_content broken_pdf data_pages data_text file
              = Ok content
              /\ line ∈ splitlines content
              /\ strict_tokens (remove_spaces line) = Raise FileNotFoundError))
  /\ (exists file,
        file ∈ file_list data_reader
        /\ (data_pages file = Raise ValueError
            \/ data_pages file = Raise ValueError
            \/ special_text file = Raise ValueError
            \/ exists content line,
                 read_file_content data_pages data_pages special_text file
                 = Ok content
                 /\ line ∈ splitlines content
                 /\ strict_tokens (remove_spaces line) = Raise ValueError)).
Proof.
  split.
  - apply (get_content_raises_what_a_library_raised strict_tokens broken_pdf
             data_pages data_text (fun _ => data_walk) (str "./data") 600 150
             FileNotFoundError); [lia|lia|].
    by vm_compute.
  - apply (get_content_raises_what_a_library_raised strict_tokens data_pages
             data_pages special_text (fun _ => data_walk) (str "./data")
             600 150 ValueError); [lia|lia|].
    by vm_compute.
Defined.
